(** * Shared texture store of hytale2html: deduplication, rehydration, pruning

    A shallow embedding of [texture-store.ts] (with the constants of
    [constants.ts] and the helpers of [utils.ts] it calls) and the
    properties of its specification. *)

From Stdlib Require Import ZArith Lia List String Ascii QArith Qround.
From Corelib Require PrimInt63 PrimFloat FloatOps SpecFloat.
From Stdlib Require Uint63.
From stdpp Require Import base option list gmap strings sorting pretty.

Local Open Scope Z_scope.

(** ** SHA-256 (FIPS 180-4), the digest behind [createHash("sha256")]

    Words are 32-bit integers held in [Z]; every addition wraps modulo 2^32. *)
Module SHA256.

Definition w32 (x : Z) : Z := Z.land x 0xffffffff.
Definition add32 (x y : Z) : Z := w32 (x + y).
Definition rotr (n x : Z) : Z := Z.lor (Z.shiftr x n) (w32 (Z.shiftl x (32 - n))).

Definition Ch (x y z : Z) : Z := Z.lxor (Z.land x y) (Z.land (Z.lxor x 0xffffffff) z).
Definition Maj (x y z : Z) : Z := Z.lxor (Z.lxor (Z.land x y) (Z.land x z)) (Z.land y z).
Definition Sigma0 (x : Z) : Z := Z.lxor (Z.lxor (rotr 2 x) (rotr 13 x)) (rotr 22 x).
Definition Sigma1 (x : Z) : Z := Z.lxor (Z.lxor (rotr 6 x) (rotr 11 x)) (rotr 25 x).
Definition sigma0 (x : Z) : Z := Z.lxor (Z.lxor (rotr 7 x) (rotr 18 x)) (Z.shiftr x 3).
Definition sigma1 (x : Z) : Z := Z.lxor (Z.lxor (rotr 17 x) (rotr 19 x)) (Z.shiftr x 10).

(** The constants are taken from the first primes (FIPS 180-4, 4.2.2 and
    5.3.3): the round constants are the first 32 bits of the fractional
    parts of the cube roots of the first 64 primes, and the initial
    chaining value those of the square roots of the first 8. *)
Definition isPrime (n : Z) : bool :=
  forallb (fun d => negb (n mod d =? 0) || (n <=? d)) (seqZ 2 18).

Definition primes : list Z := List.filter isPrime (seqZ 2 310).

(** The integer cube root, one bit at a time from bit [b] down. *)
Fixpoint cubeRootBits (n : Z) (b : nat) (acc : Z) : Z :=
  let try := acc + 2 ^ Z.of_nat b in
  let acc' := if try * try * try <=? n then try else acc in
  match b with
  | O => acc'
  | S b' => cubeRootBits n b' acc'
  end.

Definition fracCubeRoot (p : Z) : Z := w32 (cubeRootBits (p * 2 ^ 96) 35 0).
Definition fracSquareRoot (p : Z) : Z := w32 (Z.sqrt (p * 2 ^ 64)).

Definition K : list Z := Eval vm_compute in map fracCubeRoot (take 64 primes).

(** The eight working variables a..h, also the chaining value. *)
Record state := State { sa : Z; sb : Z; sc : Z; sd : Z; se : Z; sf : Z; sg : Z; sh : Z }.

Definition H0 : state :=
  Eval vm_compute in
    match map fracSquareRoot (take 8 primes) with
    | [a; b; c; d; e; f; g; h] => State a b c d e f g h
    | _ => State 0 0 0 0 0 0 0 0
    end.

Definition round (s : state) (k w : Z) : state :=
  let t1 := add32 (add32 (add32 (add32 (sh s) (Sigma1 (se s))) (Ch (se s) (sf s) (sg s))) k) w in
  let t2 := add32 (Sigma0 (sa s)) (Maj (sa s) (sb s) (sc s)) in
  State (add32 t1 t2) (sa s) (sb s) (sc s) (add32 (sd s) t1) (se s) (sf s) (sg s).

(** The message schedule is kept as a window of the last sixteen words,
    oldest first: the next word is s1(w[14]) + w[9] + s0(w[1]) + w[0]. *)
Definition next_word (win : list Z) : Z :=
  add32 (add32 (add32 (sigma1 (nth 14 win 0)) (nth 9 win 0)) (sigma0 (nth 1 win 0))) (nth 0 win 0).

Fixpoint rounds (ks : list Z) (win : list Z) (s : state) : state :=
  match ks with
  | [] => s
  | k :: ks' =>
      let w := nth 0 win 0 in
      rounds ks' (tl win ++ [next_word win]) (round s k w)
  end.

Definition compress (s : state) (block : list Z) : state :=
  let r := rounds K block s in
  State (add32 (sa s) (sa r)) (add32 (sb s) (sb r)) (add32 (sc s) (sc r)) (add32 (sd s) (sd r))
        (add32 (se s) (se r)) (add32 (sf s) (sf r)) (add32 (sg s) (sg r)) (add32 (sh s) (sh r)).

(** Big-endian bytes to 32-bit words. *)
Fixpoint words (bs : list Z) : list Z :=
  match bs with
  | b0 :: b1 :: b2 :: b3 :: rest =>
      (Z.lor (Z.lor (Z.lor (Z.shiftl b0 24) (Z.shiftl b1 16)) (Z.shiftl b2 8)) b3) :: words rest
  | _ => []
  end.

Definition be64 (n : Z) : list Z :=
  map (fun i => Z.land (Z.shiftr n (8 * i)) 0xff) [7; 6; 5; 4; 3; 2; 1; 0].

(** Padding: 0x80, zeros up to 56 mod 64, then the bit length on 8 bytes. *)
Definition pad (msg : list Z) : list Z :=
  let len := Z.of_nat (length msg) in
  let zeros := (55 - len) mod 64 in
  msg ++ [0x80] ++ repeat 0 (Z.to_nat zeros) ++ be64 (8 * len).

Fixpoint blocks (n : nat) (ws : list Z) (s : state) : state :=
  match n with
  | O => s
  | S n' => blocks n' (drop 16 ws) (compress s (take 16 ws))
  end.

Definition hexdigit (d : Z) : ascii :=
  nth (Z.to_nat d) (list_ascii_of_string "0123456789abcdef") "0"%char.

Definition hex32 (w : Z) : string :=
  string_of_list_ascii
    (map (fun i => hexdigit (Z.land (Z.shiftr w (4 * i)) 0xf)) [7; 6; 5; 4; 3; 2; 1; 0]).

Definition digest (msg : list Z) : state :=
  let ws := words (pad msg) in
  blocks (length ws / 16)%nat ws H0.

Definition hexdigest (msg : list Z) : string :=
  let s := digest msg in
  hex32 (sa s) +:+ hex32 (sb s) +:+ hex32 (sc s) +:+ hex32 (sd s) +:+
  hex32 (se s) +:+ hex32 (sf s) +:+ hex32 (sg s) +:+ hex32 (sh s).

End SHA256.

Definition bytes_of_string (s : string) : list Z :=
  map (fun c => Z.of_N (N_of_ascii c)) (list_ascii_of_string s).

(** ** JavaScript numbers

    Every number of the store is a double. Those met here are finite and
    in the normal range, so a double is held exactly as [mant * 2^expo];
    an operation computes the exact result and rounds it to a 53-bit
    significand, to nearest with ties to even. *)
Module Double.

Record t := mk { mant : Z; expo : Z }.

Definition round53 (m e : Z) : t :=
  let k := Z.log2 (Z.abs m) - 52 in
  if k <=? 0 then mk m e
  else
    let q := Z.abs m / 2 ^ k in
    let r := Z.abs m mod 2 ^ k in
    let half := 2 ^ (k - 1) in
    let q' := if r <? half then q
              else if half <? r then q + 1
              else if Z.even q then q else q + 1 in
    mk (Z.sgn m * q') (e + k).

Definition of_Z (n : Z) : t := round53 n 0.

Definition mul (x y : t) : t := round53 (mant x * mant y) (expo x + expo y).

Definition sub (x y : t) : t :=
  let e := Z.min (expo x) (expo y) in
  round53 (mant x * 2 ^ (expo x - e) - mant y * 2 ^ (expo y - e)) e.

(** [Math.floor], on a double whose floor is taken as an integer. *)
Definition floor (x : t) : Z :=
  if 0 <=? expo x then mant x * 2 ^ expo x else mant x / 2 ^ (- expo x).

(** The double nearest to 0.999, [0x1.ff7ced916872bp-1]. *)
Definition lit_0_999 : t := mk 0x1ff7ced916872b (-53).

End Double.

(** [Math.round(p / q)] for integers [p >= 0] and [q > 0] where [p / q] is
    never half-way between two integers (the divisors here, 255 and 17,
    are odd): the double quotient is off by far less than the distance
    to the nearest half-integer, so rounding it is rounding [p / q]. *)
Definition roundDiv (p q : Z) : Z := (2 * p + q) / (2 * q).

(** ** constants.ts *)
Definition SHARED_TEXTURES_DIR : string := "Shared".
Definition SHARED_TEXTURE_PREFIX : string := "t".
Definition DEDUPE_SIMILARITY_THRESHOLD : Double.t := Double.lit_0_999.
Definition DEDUPE_MAX_MISMATCH_PIXELS : Z := 64.
Definition DEDUPE_CHANNEL_TOLERANCE : Z := 4.
Definition DEDUPE_ALPHA_IGNORE_BELOW : Z := 4.
Definition DEDUPE_FINGERPRINT_SIZE : Z := 16.

(** ** types.ts *)
Record DecodedPng := { width : Z; height : Z; data : list Z }.

Record SharedTextureInfo := {
  key : string;
  info_width : Z;
  info_height : Z;
  fingerprint : string;
  filePath : string;
  texturePath : string
}.

(** What [register] resolves to. *)
Record TextureRef := { ref_texturePath : string; ref_filePath : string }.

Definition refOf (info : SharedTextureInfo) : TextureRef :=
  {| ref_texturePath := texturePath info; ref_filePath := filePath info |}.

(** ** Errors and results *)
Inductive error := DecodeError | ENOENT | EISDIR | EACCES.

(** What is thrown, as an object. The source declares no class of
    errors and the store catches nothing: the value a call of the store
    rejects with is the one pngjs or node:fs made, an [Error]; those of
    node:fs carry their [code]. *)
Definition errorClass (e : error) : string :=
  match e with
  | DecodeError => "Error"
  | ENOENT | EISDIR | EACCES => "Error"
  end.

Definition errorCode (e : error) : option string :=
  match e with
  | DecodeError => None
  | ENOENT => Some "ENOENT"
  | EISDIR => Some "EISDIR"
  | EACCES => Some "EACCES"
  end.

Inductive result (A : Type) := Ok (a : A) | Err (e : error).
Arguments Ok {A} a.
Arguments Err {A} e.

(** A [throw] ends the call: the rest of the body is not run. *)
Global Instance result_bind : MBind result := fun A B f r =>
  match r with Ok a => f a | Err e => Err e end.

(** ** Bytes and strings *)

(** [buf[i] ?? 0]: a read outside the buffer gives [undefined]. *)
Definition byteAt (buf : list Z) (i : Z) : Z :=
  if i <? 0 then 0 else nth (Z.to_nat i) buf 0.

Fixpoint stripPrefix (p s : string) : option string :=
  match p with
  | EmptyString => Some s
  | String c p' =>
      match s with
      | String d s' => if Ascii.eqb c d then stripPrefix p' s' else None
      | EmptyString => None
      end
  end.

Fixpoint endsWith (s suffix : string) : bool :=
  String.eqb s suffix ||
  match s with
  | EmptyString => false
  | String _ s' => endsWith s' suffix
  end.

(** The class [[0-9a-f]]. *)
Definition isLowerHex (c : ascii) : bool :=
  let n := N_of_ascii c in
  ((48 <=? n) && (n <=? 57) || (97 <=? n) && (n <=? 102))%N.

(** [[0-9a-f]{n}] at the head of [s]: the digits and what follows. *)
Fixpoint hexRun (n : nat) (s : string) : option (string * string) :=
  match n with
  | O => Some (EmptyString, s)
  | S n' =>
      match s with
      | String c s' =>
          if isLowerHex c then
            match hexRun n' s' with
            | Some (h, rest) => Some (String c h, rest)
            | None => None
            end
          else None
      | EmptyString => None
      end
  end.

(** The group [(${SHARED_TEXTURE_PREFIX}[0-9a-f]{64})] at the head of [s]. *)
Definition matchKey (s : string) : option (string * string) :=
  match stripPrefix SHARED_TEXTURE_PREFIX s with
  | Some s' =>
      match hexRun 64 s' with
      | Some (h, rest) => Some (SHARED_TEXTURE_PREFIX +:+ h, rest)
      | None => None
      end
  | None => None
  end.

(** [name.match(/^(t[0-9a-f]{64})@2x\.png$/)], giving group 1. *)
Definition matchSharedFileName (name : string) : option string :=
  match matchKey name with
  | Some (k, rest) => if String.eqb rest "@2x.png" then Some k else None
  | None => None
  end.

(** [path.join(dir, name)] for a normalised [dir] and a plain file name. *)
Definition path_join (dir name : string) : string := dir +:+ "/" +:+ name.

(** ** utils.ts: sha256Hex over its chunks, strings being UTF-8 encoded *)
Section Digest.

Variable sha256 : list Z -> string.

Definition sha256Hex (chunks : list (list Z)) : string := sha256 (concat chunks).

(** ** texture-store.ts: the codec side *)

Definition hashPngPixels (decoded : DecodedPng) : string :=
  sha256Hex [ bytes_of_string (pretty (width decoded) +:+ "x" +:+ pretty (height decoded)
                               +:+ String (ascii_of_nat 0) EmptyString);
              data decoded ].

Definition quant (v : Z) : Z := Z.max 0 (Z.min 15 (roundDiv v 17)).

Definition gridIndices : list Z := seqZ 0 DEDUPE_FINGERPRINT_SIZE.

(** [Math.min(dim - 1, Math.floor(((c + 0.5) * dim) / size))]: the product
    and the division by 16 are exact in doubles. *)
Definition sampleCoord (dim c : Z) : Z :=
  Z.min (dim - 1) (((2 * c + 1) * dim) / (2 * DEDUPE_FINGERPRINT_SIZE)).

Definition fingerprintCell (decoded : DecodedPng) (y x : Z) : list Z :=
  let srcY := sampleCoord (height decoded) y in
  let srcX := sampleCoord (width decoded) x in
  let i := (srcY * width decoded + srcX) * 4 in
  let a := byteAt (data decoded) (i + 3) in
  let r := roundDiv (byteAt (data decoded) i * a) 255 in
  let g := roundDiv (byteAt (data decoded) (i + 1) * a) 255 in
  let b := roundDiv (byteAt (data decoded) (i + 2) * a) 255 in
  [quant r; quant g; quant b; quant a].

Definition fingerprintGrid (decoded : DecodedPng) : list Z :=
  flat_map (fun y => flat_map (fun x => fingerprintCell decoded y x) gridIndices) gridIndices.

Definition computeFingerprint (decoded : DecodedPng) : string :=
  sha256Hex [fingerprintGrid decoded].

End Digest.

(** ** texture-store.ts: the comparator *)

(** The test of one pixel, at byte offset [i] of both buffers. *)
Definition pixelMismatch (a b : list Z) (i : Z) : bool :=
  let aA := byteAt a (i + 3) in
  let bA := byteAt b (i + 3) in
  if (aA <=? DEDUPE_ALPHA_IGNORE_BELOW) && (bA <=? DEDUPE_ALPHA_IGNORE_BELOW) then false
  else
    let aR := roundDiv (byteAt a i * aA) 255 in
    let aG := roundDiv (byteAt a (i + 1) * aA) 255 in
    let aB := roundDiv (byteAt a (i + 2) * aA) 255 in
    let bR := roundDiv (byteAt b i * bA) 255 in
    let bG := roundDiv (byteAt b (i + 1) * bA) 255 in
    let bB := roundDiv (byteAt b (i + 2) * bA) 255 in
    let dR := Z.abs (aR - bR) in
    let dG := Z.abs (aG - bG) in
    let dB := Z.abs (aB - bB) in
    let dA := Z.abs (aA - bA) in
    let delta := Z.max (Z.max (Z.max dR dG) dB) dA in
    DEDUPE_CHANNEL_TOLERANCE <? delta.

(** The loop [for (i = 0; i < a.length; i += 4)], [n] iterations left. *)
Fixpoint countLoop (a b : list Z) (allowed : Z) (n : nat) (i : Z) (mismatches : Z) : Z :=
  match n with
  | O => mismatches
  | S n' =>
      if pixelMismatch a b i then
        let mismatches' := mismatches + 1 in
        if allowed <? mismatches' then mismatches'
        else countLoop a b allowed n' (i + 4) mismatches'
      else countLoop a b allowed n' (i + 4) mismatches
  end.

Definition countMismatchedPixels (a b : list Z) (allowed : Z) : Z :=
  if negb (length a =? length b)%nat then allowed + 1
  else countLoop a b allowed ((length a + 3) / 4)%nat 0 0.

(** ** The file system

    The store works in one directory, [sharedDir], which is missing or
    there, readable or not. An entry is a regular file with its bytes or
    something else (a sub-directory); the entries are listed in the
    order [readdir] returns them. *)
Inductive FsNode := FsFile (content : list Z) | FsDir.

Inductive FileSystem :=
| NoDir
| Dir (readable : bool) (entries : list (string * FsNode)).

Definition dirExists (fs : FileSystem) : bool :=
  match fs with NoDir => false | Dir _ _ => true end.

Definition dirReadable (fs : FileSystem) : bool :=
  match fs with NoDir => false | Dir readable _ => readable end.

Definition dirEntries (fs : FileSystem) : list (string * FsNode) :=
  match fs with NoDir => [] | Dir _ entries => entries end.

(** [bestMismatches] starts at [Number.POSITIVE_INFINITY]. *)
Inductive Mismatches := Finite (n : Z) | PosInfinity.

Definition mm_ltb (m : Z) (best : Mismatches) : bool :=
  match best with Finite n => m <? n | PosInfinity => true end.

Definition mm_eqb (m : Z) (best : Mismatches) : bool :=
  match best with Finite n => m =? n | PosInfinity => false end.

(** A string is truthy when it is not empty. *)
Definition truthy (s : string) : bool := negb (String.eqb s "").

(** [list.sort()]: the default order, by code units. *)
Definition sortKeys (l : list string) : list string := merge_sort String.le l.

(** ** The index *)
Record Store := {
  exactHashToKey : gmap string string;
  bucketToKeys : gmap string (list string);
  keyToInfo : gmap string SharedTextureInfo
}.

Definition newStore : Store :=
  {| exactHashToKey := ∅; bucketToKeys := ∅; keyToInfo := ∅ |}.

(** The budget of [register]:
    [Math.min(Math.floor(totalPixels * (1 - DEDUPE_SIMILARITY_THRESHOLD)),
    DEDUPE_MAX_MISMATCH_PIXELS)], in doubles. *)
Definition allowedMismatches (w h : Z) : Z :=
  let totalPixels := Double.mul (Double.of_Z w) (Double.of_Z h) in
  let allowedByRatio :=
    Double.floor (Double.mul totalPixels
                    (Double.sub (Double.of_Z 1) DEDUPE_SIMILARITY_THRESHOLD)) in
  Z.min allowedByRatio DEDUPE_MAX_MISMATCH_PIXELS.

Section Store.

(** [PNG.sync.read] of pngjs ([None]: it throws), the SHA-256 of
    node:crypto as a hexadecimal string, and the constructor's parameters. *)
Variable pngRead : list Z -> option DecodedPng.
Variable sha256 : list Z -> string.
Variables sharedDir namespace : string.

Definition decodePng (buffer : list Z) : result DecodedPng :=
  match pngRead buffer with
  | Some decoded => Ok decoded
  | None => Err DecodeError
  end.

(** *** node:fs, as the store uses it *)

Definition mkdir (fs : FileSystem) : FileSystem :=
  match fs with NoDir => Dir true [] | Dir _ _ => fs end.

Definition readdir (fs : FileSystem) : result (list (string * FsNode)) :=
  match fs with
  | NoDir => Err ENOENT
  | Dir false _ => Err EACCES
  | Dir true entries => Ok entries
  end.

Definition atPath (p : string) (entry : string * FsNode) : bool :=
  String.eqb (path_join sharedDir entry.1) p.

Definition lookupPath (fs : FileSystem) (p : string) : option FsNode :=
  snd <$> List.find (atPath p) (dirEntries fs).

Definition readFile (fs : FileSystem) (p : string) : result (list Z) :=
  match lookupPath fs p with
  | Some (FsFile content) => Ok content
  | Some FsDir => Err EISDIR
  | None => Err ENOENT
  end.

(** [exists]: [fsp.access] succeeds on whatever is at the path. *)
Definition exists_ (fs : FileSystem) (p : string) : bool :=
  match lookupPath fs p with Some _ => true | None => false end.

(** [writeFileSafe]: the directory is made, then the file written. *)
Definition writeFileSafe (fs : FileSystem) (p : string) (buffer : list Z)
  : result FileSystem :=
  let fs1 := mkdir fs in
  match stripPrefix (sharedDir +:+ "/") p with
  | None => Err ENOENT
  | Some name =>
      match lookupPath fs1 p with
      | Some FsDir => Err EISDIR
      | Some (FsFile _) =>
          Ok (Dir (dirReadable fs1)
                (map (fun e => if atPath p e then (e.1, FsFile buffer) else e)
                     (dirEntries fs1)))
      | None =>
          Ok (Dir (dirReadable fs1) (dirEntries fs1 ++ [(name, FsFile buffer)]))
      end
  end.

(** [fsp.rm(p, { force: true })]. *)
Definition rm (fs : FileSystem) (p : string) : FileSystem :=
  match fs with
  | NoDir => NoDir
  | Dir readable entries => Dir readable (List.filter (fun e => negb (atPath p e)) entries)
  end.

(** *** SharedTextureStore *)

Definition bucketKey (w h : Z) (fp : string) : string :=
  pretty w +:+ "x" +:+ pretty h +:+ ":" +:+ fp.

Definition texturePathForKey (k : string) : string :=
  namespace +:+ "/" +:+ SHARED_TEXTURES_DIR +:+ "/" +:+ k +:+ ".png".

(** The three writes that end [init]'s loop body and [register]:
    [keyToInfo.set], [exactHashToKey.set], then the bucket list read,
    pushed to, sorted and set. *)
Definition insertEntry (st : Store) (info : SharedTextureInfo) (exactHash bk : string)
  : Store :=
  let list := default [] (bucketToKeys st !! bk) in
  {| keyToInfo := <[key info := info]> (keyToInfo st);
     exactHashToKey := <[exactHash := key info]> (exactHashToKey st);
     bucketToKeys := <[bk := sortKeys (list ++ [key info])]> (bucketToKeys st) |}.

Definition initEntry (fs : FileSystem) (st : Store) (entry : string * FsNode)
  : result Store :=
  match entry.2 with
  | FsDir => Ok st
  | FsFile _ =>
      match matchSharedFileName entry.1 with
      | None => Ok st
      | Some keyFromName =>
          let filePath := path_join sharedDir entry.1 in
          buffer ← readFile fs filePath;
          decoded ← decodePng buffer;
          let exactHash := hashPngPixels sha256 decoded in
          let fp := computeFingerprint sha256 decoded in
          let bk := bucketKey (width decoded) (height decoded) fp in
          let info := {| key := keyFromName;
                         info_width := width decoded;
                         info_height := height decoded;
                         fingerprint := fp;
                         filePath := filePath;
                         texturePath := texturePathForKey keyFromName |} in
          Ok (insertEntry st info exactHash bk)
      end
  end.

Fixpoint initLoop (fs : FileSystem) (st : Store) (entries : list (string * FsNode))
  : result Store :=
  match entries with
  | [] => Ok st
  | entry :: rest => st' ← initEntry fs st entry; initLoop fs st' rest
  end.

Definition init (st : Store) (fs : FileSystem) : result (Store * FileSystem) :=
  let fs1 := mkdir fs in
  entries ← readdir fs1;
  st' ← initLoop fs1 st entries;
  Ok (st', fs1).

(** One turn of [for (const key of candidates)], on [(bestKey, bestMismatches)]. *)
Definition scanStep (st : Store) (fs : FileSystem) (decoded : DecodedPng) (allowed : Z)
    (best : option string * Mismatches) (k : string)
  : result (option string * Mismatches) :=
  match keyToInfo st !! k with
  | None => Ok best
  | Some info =>
      if negb (info_width info =? width decoded) || negb (info_height info =? height decoded)
      then Ok best
      else
        candidateBuffer ← readFile fs (filePath info);
        candidateDecoded ← decodePng candidateBuffer;
        if negb (width candidateDecoded =? width decoded)
           || negb (height candidateDecoded =? height decoded)
        then Ok best
        else
          let mismatches :=
            countMismatchedPixels (data decoded) (data candidateDecoded) allowed in
          if mismatches <=? allowed then
            if mm_ltb mismatches best.2
               || mm_eqb mismatches best.2 && String.ltb k (default "~" best.1)
            then Ok (Some k, Finite mismatches)
            else Ok best
          else Ok best
  end.

Fixpoint scanCandidates (st : Store) (fs : FileSystem) (decoded : DecodedPng)
    (allowed : Z) (candidates : list string) (best : option string * Mismatches)
  : result (option string * Mismatches) :=
  match candidates with
  | [] => Ok best
  | k :: rest =>
      best' ← scanStep st fs decoded allowed best k;
      scanCandidates st fs decoded allowed rest best'
  end.

(** [if (k) { const info = this.keyToInfo.get(k); if (info) .. }]: the
    entry of a key that is there, truthy and known. *)
Definition infoOfKey (st : Store) (k : option string) : option SharedTextureInfo :=
  match k with
  | Some k' => if truthy k' then keyToInfo st !! k' else None
  | None => None
  end.

(** The end of [register]: a bitmap that matched nothing is stored. *)
Definition registerNew (st : Store) (fs : FileSystem) (buffer : list Z)
    (decoded : DecodedPng) (exactHash fp bk : string)
  : result (TextureRef * Store * FileSystem) :=
  let k := SHARED_TEXTURE_PREFIX +:+ exactHash in
  let filePath := path_join sharedDir (k +:+ "@2x.png") in
  let texturePath := texturePathForKey k in
  fs' ← (if exists_ fs filePath then Ok fs else writeFileSafe fs filePath buffer);
  let info := {| key := k;
                 info_width := width decoded;
                 info_height := height decoded;
                 fingerprint := fp;
                 filePath := filePath;
                 texturePath := texturePath |} in
  Ok ({| ref_texturePath := texturePath; ref_filePath := filePath |},
      insertEntry st info exactHash bk, fs').

(** [this.exactHashToKey.set(exactHash, bestKey)]: one more digest for a key. *)
Definition addAlias (st : Store) (h k : string) : Store :=
  {| exactHashToKey := <[h := k]> (exactHashToKey st);
     bucketToKeys := bucketToKeys st;
     keyToInfo := keyToInfo st |}.

(** The body that [register] runs under [synchronized]. *)
Definition register (st : Store) (fs : FileSystem) (buffer : list Z)
  : result (TextureRef * Store * FileSystem) :=
  decoded ← decodePng buffer;
  let exactHash := hashPngPixels sha256 decoded in
  match infoOfKey st (exactHashToKey st !! exactHash) with
  | Some info => Ok (refOf info, st, fs)
  | None =>
      let fp := computeFingerprint sha256 decoded in
      let bk := bucketKey (width decoded) (height decoded) fp in
      let candidates := default [] (bucketToKeys st !! bk) in
      let allowed := allowedMismatches (width decoded) (height decoded) in
      best ← scanCandidates st fs decoded allowed candidates (None, PosInfinity);
      match best.1 with
      | Some bestKey =>
          match infoOfKey st (Some bestKey) with
          | Some info =>
              Ok (refOf info, addAlias st exactHash bestKey, fs)
          | None => registerNew st fs buffer decoded exactHash fp bk
          end
      | None => registerNew st fs buffer decoded exactHash fp bk
      end
  end.

(** *** pruneUnusedSharedTextures *)

(** The pattern [<namespace>/Shared/(t[0-9a-f]{64})\.png] at the head of
    [s]: group 1. [escapeRegExp] makes the namespace a literal. *)
Definition matchReference (s : string) : option string :=
  match stripPrefix (namespace +:+ "/" +:+ SHARED_TEXTURES_DIR +:+ "/") s with
  | Some s1 =>
      match matchKey s1 with
      | Some (k, s2) =>
          match stripPrefix ".png" s2 with
          | Some _ => Some k
          | None => None
          end
      | None => None
      end
  | None => None
  end.

Definition referenceLength : nat :=
  String.length (namespace +:+ "/" +:+ SHARED_TEXTURES_DIR +:+ "/")
  + String.length SHARED_TEXTURE_PREFIX + 64 + 4.

(** [contents.matchAll(re)] with the flag [g]: the matches from left to
    right, the search going on after the end of each match ([skip]
    characters of it are still to pass). *)
Fixpoint matchAll (skip : nat) (s : string) : list string :=
  match s with
  | EmptyString => []
  | String _ s' =>
      match skip with
      | S skip' => matchAll skip' s'
      | O =>
          match matchReference s with
          | Some k => k :: matchAll (referenceLength - 1) s'
          | None => matchAll 0 s'
          end
      end
  end.

(** The keys used by the [.ui] files among [files], the regular files
    under [uiOutputDir] with their text. *)
Definition collectUsedKeys (files : list (string * string)) : gset string :=
  foldl (fun usedKeys uiFile => foldl (fun s k => {[k]} ∪ s) usedKeys (matchAll 0 uiFile.2))
        ∅
        (List.filter (fun file => endsWith file.1 ".ui") files).

Definition pruneEntry (usedKeys : gset string) (acc : FileSystem * Z)
    (entry : string * FsNode) : FileSystem * Z :=
  match entry.2 with
  | FsDir => acc
  | FsFile _ =>
      match matchSharedFileName entry.1 with
      | None => acc
      | Some k =>
          if bool_decide (k ∈ usedKeys) then acc
          else (rm acc.1 (path_join sharedDir entry.1), acc.2 + 1)
      end
  end.

(** [sharedDir] is the same path as the store's: [cli.ts] builds both
    from [resourcesRoot] and the namespace. The result is the file
    system and [deleted]. *)
Definition pruneUnusedSharedTextures (files : list (string * string)) (fs : FileSystem)
  : result (FileSystem * Z) :=
  if negb (dirExists fs) then Ok (fs, 0)
  else
    let usedKeys := collectUsedKeys files in
    entries ← readdir fs;
    Ok (foldl (pruneEntry usedKeys) (fs, 0) entries).

(** *** Notions the properties are stated with *)

(** The entry [registerNew] makes for a digest. *)
Definition ownInfo (decoded : DecodedPng) (h fp : string) : SharedTextureInfo :=
  {| key := SHARED_TEXTURE_PREFIX +:+ h;
     info_width := width decoded;
     info_height := height decoded;
     fingerprint := fp;
     filePath := path_join sharedDir ((SHARED_TEXTURE_PREFIX +:+ h) +:+ "@2x.png");
     texturePath := texturePathForKey (SHARED_TEXTURE_PREFIX +:+ h) |}.

(** The three ways [register] ends. *)
Inductive RegisterPath (st : Store) (fs : FileSystem) (buffer : list Z)
    (decoded : DecodedPng) (out : TextureRef * Store * FileSystem) : Prop :=
| path_exact info :
    infoOfKey st (exactHashToKey st !! hashPngPixels sha256 decoded) = Some info ->
    out = (refOf info, st, fs) ->
    RegisterPath st fs buffer decoded out
| path_alias bestKey info :
    infoOfKey st (exactHashToKey st !! hashPngPixels sha256 decoded) = None ->
    infoOfKey st (Some bestKey) = Some info ->
    out = (refOf info, addAlias st (hashPngPixels sha256 decoded) bestKey, fs) ->
    RegisterPath st fs buffer decoded out
| path_new fs' :
    infoOfKey st (exactHashToKey st !! hashPngPixels sha256 decoded) = None ->
    (if exists_ fs (filePath (ownInfo decoded (hashPngPixels sha256 decoded)
                                (computeFingerprint sha256 decoded)))
     then Ok fs
     else writeFileSafe fs (filePath (ownInfo decoded (hashPngPixels sha256 decoded)
                                        (computeFingerprint sha256 decoded))) buffer)
    = Ok fs' ->
    out = (refOf (ownInfo decoded (hashPngPixels sha256 decoded) (computeFingerprint sha256 decoded)),
           insertEntry st
             (ownInfo decoded (hashPngPixels sha256 decoded) (computeFingerprint sha256 decoded))
             (hashPngPixels sha256 decoded)
             (bucketKey (width decoded) (height decoded) (computeFingerprint sha256 decoded)),
           fs') ->
    RegisterPath st fs buffer decoded out.

(** A digest is 64 lower-case hexadecimal digits. *)
Definition isHex64 (h : string) : Prop :=
  String.length h = 64%nat /\ forallb isLowerHex (list_ascii_of_string h) = true.

(** Every bucket list is sorted by key, and every key met in the digest
    map or in a bucket has its entry, one and no other, in [keyToInfo]. *)
Definition hasOneEntry (st : Store) (k : string) : Prop :=
  exists info, keyToInfo st !! k = Some info
               /\ forall info', keyToInfo st !! k = Some info' -> info' = info.

Definition indexConsistent (st : Store) : Prop :=
  (forall bk l, bucketToKeys st !! bk = Some l ->
                Sorted String.le l /\ forall k, k ∈ l -> hasOneEntry st k)
  /\ (forall h k, exactHashToKey st !! h = Some k -> hasOneEntry st k).

(** cli.ts: [main] awaits [textureStore.init()] on a new store before
    any page is processed; [main().catch] prints the error and exits
    with status 1. *)
Definition startStore (fs : FileSystem) : result (Store * FileSystem) := init newStore fs.

Definition exitStatus {A} (r : result A) : Z :=
  match r with Ok _ => 0 | Err _ => 1 end.

(** The key of an entry [init] takes: a regular file named by the convention. *)
Definition storeFileKey (entry : string * FsNode) : option string :=
  match entry.2 with
  | FsFile _ => matchSharedFileName entry.1
  | FsDir => None
  end.

Definition isStoreFile (entry : string * FsNode) : bool :=
  match storeFileKey entry with Some _ => true | None => false end.

(** The regular files named by the convention all decode. *)
Definition storeFilesDecode (entries : list (string * FsNode)) : Prop :=
  forall name content,
    (name, FsFile content) ∈ entries -> isStoreFile (name, FsFile content) = true ->
    is_Some (pngRead content).

(** What [init] makes of one such file. *)
Definition entryOfFile (name k : string) (decoded : DecodedPng) : SharedTextureInfo :=
  {| key := k;
     info_width := width decoded;
     info_height := height decoded;
     fingerprint := computeFingerprint sha256 decoded;
     filePath := path_join sharedDir name;
     texturePath := texturePathForKey k |}.

(** The files of the convention among [entries], as [init] reads them. *)
Definition storedFile (entries : list (string * FsNode)) (name k : string)
    (decoded : DecodedPng) : Prop :=
  exists content, (name, FsFile content) ∈ entries
                  /\ matchSharedFileName name = Some k
                  /\ pngRead content = Some decoded.

(** What one candidate is worth: its mismatch count when it is
    comparable and within the budget. *)
Definition candidateScore (st : Store) (fs : FileSystem) (decoded : DecodedPng)
    (allowed : Z) (k : string) : result (option Z) :=
  match keyToInfo st !! k with
  | None => Ok None
  | Some info =>
      if negb (info_width info =? width decoded) || negb (info_height info =? height decoded)
      then Ok None
      else
        candidateBuffer ← readFile fs (filePath info);
        candidateDecoded ← decodePng candidateBuffer;
        if negb (width candidateDecoded =? width decoded)
           || negb (height candidateDecoded =? height decoded)
        then Ok None
        else
          let mismatches :=
            countMismatchedPixels (data decoded) (data candidateDecoded) allowed in
          if mismatches <=? allowed then Ok (Some mismatches) else Ok None
  end.

Definition pickBest (best : option string * Mismatches) (k : string) (score : option Z)
  : option string * Mismatches :=
  match score with
  | Some m =>
      if mm_ltb m best.2 || mm_eqb m best.2 && String.ltb k (default "~" best.1)
      then (Some k, Finite m) else best
  | None => best
  end.

(** [(m, k)] before [(m', k')]: fewer mismatches, or as many and a key
    that is not greater. *)
Definition candLe (m : Z) (k : string) (m' : Z) (k' : string) : Prop :=
  m < m' \/ (m = m' /\ String.le k k').

(** [best] is the least of the candidates of [l] that have a score. *)
Definition BestOf (score : string -> option Z) (l : list string)
    (best : option string * Mismatches) : Prop :=
  match best with
  | (None, PosInfinity) => forall k, k ∈ l -> score k = None
  | (Some k, Finite m) =>
      k ∈ l /\ score k = Some m
      /\ forall k' m', k' ∈ l -> score k' = Some m' -> candLe m k m' k'
  | _ => False
  end.

(** The pixels of two buffers that mismatch, all counted: the [n]
    pixels from byte offset [i]. *)
Fixpoint mismatchesFrom (a b : list Z) (n : nat) (i : Z) : Z :=
  match n with
  | O => 0
  | S n' => (if pixelMismatch a b i then 1 else 0) + mismatchesFrom a b n' (i + 4)
  end.

Definition totalMismatches (a b : list Z) : Z :=
  mismatchesFrom a b ((length a + 3) / 4)%nat 0.

(** The index with the list of one bucket replaced. *)
Definition setBucket (st : Store) (bk : string) (l : list string) : Store :=
  {| exactHashToKey := exactHashToKey st;
     bucketToKeys := <[bk := l]> (bucketToKeys st);
     keyToInfo := keyToInfo st |}.

(** The directory after the first write of a file named [name]. *)
Definition withNewFile (fs : FileSystem) (name : string) (buffer : list Z) : FileSystem :=
  Dir (dirReadable (mkdir fs)) (dirEntries fs ++ [(name, FsFile buffer)]).

(** The file name of a digest. *)
Definition ownFileName (h : string) : string := (SHARED_TEXTURE_PREFIX +:+ h) +:+ "@2x.png".

(** The directory is content-addressed: the key in the name of each
    file of the convention is the prefix and the digest of its bitmap. *)
Definition contentAddressed (entries : list (string * FsNode)) : Prop :=
  forall name k decoded,
    storedFile entries name k decoded ->
    k = SHARED_TEXTURE_PREFIX +:+ hashPngPixels sha256 decoded.

(** An entry [prune] deletes: a file of the convention whose key is not used. *)
Definition unused (usedKeys : gset string) (entry : string * FsNode) : bool :=
  match storeFileKey entry with
  | Some k => negb (bool_decide (k ∈ usedKeys))
  | None => false
  end.

(** The reference path of the key [k] is written in [text] from the
    position [p] on. *)
Definition referenceAt (text : string) (p : nat) (k : string) : Prop :=
  exists before rest h,
    text = before +:+ texturePathForKey k +:+ rest /\ String.length before = p
    /\ k = SHARED_TEXTURE_PREFIX +:+ h /\ isHex64 h.

(** Every entry is filed under its key, a key starts with the prefix,
    and the paths of an entry are those of its key. *)
Definition entriesCanonical (st : Store) : Prop :=
  forall k info, keyToInfo st !! k = Some info ->
    key info = k /\ (exists s, k = SHARED_TEXTURE_PREFIX +:+ s)
    /\ filePath info = path_join sharedDir (k +:+ "@2x.png")
    /\ texturePath info = texturePathForKey k.

(** The file of every entry is in the directory. *)
Definition filesPresent (st : Store) (fs : FileSystem) : Prop :=
  forall k info, keyToInfo st !! k = Some info -> exists_ fs (filePath info) = true.

(** page-processor.ts, [processElementChunk]: the captures of an element
    are registered one after the other,
    [for (const state of stateList) { .. await textureStore.register(buffer) .. }]. *)
Fixpoint registerAll (st : Store) (fs : FileSystem) (buffers : list (list Z))
  : result (list TextureRef * Store * FileSystem) :=
  match buffers with
  | [] => Ok ([], st, fs)
  | buffer :: rest =>
      out ← register st fs buffer;
      out' ← registerAll out.1.2 out.2 rest;
      Ok (out.1.1 :: out'.1.1, out'.1.2, out'.2)
  end.

(** What the body of [init]'s loop makes of an entry whose file is read
    and decoded. *)
Definition initStep (st : Store) (entry : string * FsNode) : Store :=
  match entry.2 with
  | FsFile content =>
      match matchSharedFileName entry.1, pngRead content with
      | Some k, Some decoded =>
          insertEntry st (entryOfFile entry.1 k decoded) (hashPngPixels sha256 decoded)
            (bucketKey (width decoded) (height decoded) (computeFingerprint sha256 decoded))
      | _, _ => st
      end
  | FsDir => st
  end.

(** A directory as the store keeps it: the names are distinct, the files
    of the convention decode and carry the digest of their bitmap, and
    no sub-directory is named by the convention. *)
Definition storeDirectory (entries : list (string * FsNode)) : Prop :=
  NoDup (map fst entries) /\ storeFilesDecode entries /\ contentAddressed entries
  /\ forall name, (name, FsDir) ∈ entries -> matchSharedFileName name = None.

(** The index is the one rehydration builds from [entries], but for the
    digests that a collapse has bound to the key of another bitmap. *)
Definition mirrors (st : Store) (entries : list (string * FsNode)) : Prop :=
  keyToInfo st = keyToInfo (foldl initStep newStore entries)
  /\ bucketToKeys st = bucketToKeys (foldl initStep newStore entries)
  /\ exactHashToKey (foldl initStep newStore entries) ⊆ exactHashToKey st.

End Store.

(** ** The mutex of the store: [synchronized]

    [synchronized(fn)] chains [fn] on the promise held in [this.mutex]
    ([run = this.mutex.then(fn, fn)]) and stores in [this.mutex] a
    promise that settles once [run] has
    ([run.then(() => undefined, () => undefined)]). Promises are numbered
    in the order they are made. The reaction of a [then] runs only once
    its promise is settled, as a job of its own; the body of [fn] runs
    from one [await] to the next, and [run] settles when it ends,
    returning or throwing. *)
Module Mutex.

Inductive phase := Waiting | Running (awaits : nat) | Finished.

(** A call of [register]: the promise [fn] is chained on, the promise
    [run], the promise stored in [this.mutex], the number of [await]s
    the body will meet, and how far the body is. *)
Record call := {
  waitsFor : nat;
  run : nat;
  released : nat;
  awaits : nat;
  progress : phase
}.

Record state := {
  settled : list bool;
  mutex : nat;
  calls : list call
}.

(** [mutex = Promise.resolve()] and no call yet. *)
Definition initial : state := {| settled := [true]; mutex := 0%nat; calls := [] |}.

Definition setProgress (c : call) (p : phase) : call :=
  {| waitsFor := waitsFor c; run := run c; released := released c;
     awaits := awaits c; progress := p |}.

Definition isSettled (s : state) (p : nat) : bool := default false (settled s !! p).

(** [synchronized(fn)], [fn] having [n] awaits: [run] and the promise
    for [this.mutex] are made, pending, and [this.mutex] is set. *)
Definition synchronized (s : state) (n : nat) : state :=
  {| settled := settled s ++ [false; false];
     mutex := S (length (settled s));
     calls := calls s ++ [ {| waitsFor := mutex s;
                              run := length (settled s);
                              released := S (length (settled s));
                              awaits := n;
                              progress := Waiting |} ] |}.

(** The body of call [i] moves on. *)
Definition advance (s : state) (i : nat) (c : call) (p : phase) : state :=
  {| settled := settled s; mutex := mutex s;
     calls := <[i := setProgress c p]> (calls s) |}.

(** The promise [p] settles. *)
Definition settle (s : state) (p : nat) : state :=
  {| settled := <[p := true]> (settled s); mutex := mutex s; calls := calls s |}.

Inductive step : state -> state -> Prop :=
| step_synchronized s n :
    (* register is called *)
    step s (synchronized s n)
| step_start s i c :
    (* the reaction of mutex.then(fn, fn): fn starts *)
    calls s !! i = Some c -> progress c = Waiting -> isSettled s (waitsFor c) = true ->
    step s (advance s i c (Running (awaits c)))
| step_resume s i c n :
    (* an awaited operation is over: the body goes on to the next await *)
    calls s !! i = Some c -> progress c = Running (S n) ->
    step s (advance s i c (Running n))
| step_finish s i c :
    (* the body ends, returning or throwing: run settles *)
    calls s !! i = Some c -> progress c = Running 0 ->
    step s (settle (advance s i c Finished) (run c))
| step_release s i c :
    (* the reaction of run.then(..): the promise stored in mutex settles *)
    calls s !! i = Some c -> isSettled s (run c) = true ->
    step s (settle s (released c)).

Definition reachable (s : state) : Prop := rtc step initial s.

Definition isRunning (c : call) : Prop := exists n, progress c = Running n.

(** The shape of the chain and what a settled promise tells. *)
Record invariant (s : state) : Prop := {
  inv_length : length (settled s) = S (2 * length (calls s));
  inv_mutex : mutex s = (2 * length (calls s))%nat;
  inv_first : isSettled s 0 = true;
  inv_ids : forall i c, calls s !! i = Some c ->
      waitsFor c = (2 * i)%nat /\ run c = S (2 * i) /\ released c = S (S (2 * i));
  inv_run : forall i c, calls s !! i = Some c ->
      isSettled s (S (2 * i)) = true -> progress c = Finished;
  inv_released : forall i, isSettled s (S (S (2 * i))) = true -> isSettled s (S (2 * i)) = true;
  inv_started : forall i c, calls s !! i = Some c ->
      progress c <> Waiting -> isSettled s (2 * i) = true
}.

End Mutex.

(** ** Binary64 arithmetic of the kernel

    The kernel's primitive floats are IEEE 754 binary64, as JavaScript's
    numbers are. The functions below compute the budget and
    [Math.round] of a quotient with them, to compare [Double] and
    [roundDiv] against. *)
Module Binary64.
Import PrimFloat.

Definition floorOf (x : SpecFloat.spec_float) : option Z :=
  match x with
  | SpecFloat.S754_zero _ => Some 0
  | SpecFloat.S754_finite false m e =>
      Some (if 0 <=? e then Z.pos m * 2 ^ e else Z.pos m / 2 ^ (- e))
  | _ => None
  end.

Definition ofZ (n : Z) : float := of_uint63 (Uint63.of_Z n).

(** The literal [0.999]. *)
Definition threshold : float := 0x1.ff7ced916872bp-1%float.

(** [Math.floor(w * h * (1 - 0.999))]. *)
Definition budgetByRatio (w h : Z) : option Z :=
  floorOf (FloatOps.Prim2SF (mul (mul (ofZ w) (ofZ h)) (sub 1%float threshold))).

(** [Math.round(p / q)], as [floor(p / q + 0.5)]. *)
Definition roundQuotient (p q : Z) : option Z :=
  floorOf (FloatOps.Prim2SF (add (div (ofZ p) (ofZ q)) 0.5%float)).

(** [f] on the [2^k] integers from [a]. *)
Fixpoint allFrom (k : nat) (a : Z) (f : Z -> bool) : bool :=
  match k with
  | O => f a
  | S k' => allFrom k' a f && allFrom k' (a + 2 ^ Z.of_nat k') f
  end.

Definition sameOption (x : option Z) (y : Z) : bool :=
  match x with Some x' => x' =? y | None => false end.

End Binary64.

(** The budget by the ratio alone, in the model of doubles. *)
Definition budgetByRatio (w h : Z) : Z :=
  Double.floor (Double.mul (Double.mul (Double.of_Z w) (Double.of_Z h))
                  (Double.sub (Double.of_Z 1) DEDUPE_SIMILARITY_THRESHOLD)).


(** ** A store to run

    The decoder is a stand-in for pngjs: two bytes of width, two of
    height, then the RGBA bytes; what follows them is not pixel data and
    is ignored, so that one bitmap has several encodings. The digest is
    SHA-256. *)
Definition rawRead (buffer : list Z) : option DecodedPng :=
  match buffer with
  | w1 :: w0 :: h1 :: h0 :: rest =>
      let w := 256 * w1 + w0 in
      let h := 256 * h1 + h0 in
      if (0 <? w) && (0 <? h) && (Z.to_nat (w * h * 4) <=? length rest)%nat
      then Some {| width := w; height := h; data := take (Z.to_nat (w * h * 4)) rest |}
      else None
  | _ => None
  end.

Definition demoDir : string := "/res/Common/UI/Custom/HTML/Shared".
Definition demoNamespace : string := "HTML".

Definition demoRegister := register rawRead SHA256.hexdigest demoDir demoNamespace.
Definition demoInit := init rawRead SHA256.hexdigest demoDir demoNamespace.

(** What a call returned, and the store and directory it left. *)
Definition returned (r : result (TextureRef * Store * FileSystem)) : option TextureRef :=
  match r with Ok (ref, _, _) => Some ref | Err _ => None end.

Definition stateOf (r : result (TextureRef * Store * FileSystem)) : Store * FileSystem :=
  match r with Ok (_, st, fs) => (st, fs) | Err _ => (newStore, NoDir) end.

(** The store [init] made, and the directory it left. *)
Definition storeOfInit (r : result (Store * FileSystem)) : Store :=
  match r with Ok p => p.1 | Err _ => newStore end.

Definition dirOfInit (r : result (Store * FileSystem)) : option FileSystem :=
  match r with Ok p => Some p.2 | Err _ => None end.

Definition refOfKey (k : string) : TextureRef :=
  {| ref_texturePath := texturePathForKey demoNamespace k;
     ref_filePath := path_join demoDir (k +:+ "@2x.png") |}.

Definition fileNames (fs : FileSystem) : list string := map fst (dirEntries fs).

(** Four bitmaps of one opaque pixel, of red 0, 4, 8 and 9. The first
    three fall in one bucket; 0 and 4, and 4 and 8, are within the
    tolerance of each other, 0 and 8 are not. *)
Definition pixA : DecodedPng := {| width := 1; height := 1; data := [0; 0; 0; 255] |}.
Definition pixB : DecodedPng := {| width := 1; height := 1; data := [4; 0; 0; 255] |}.
Definition bufA : list Z := [0; 1; 0; 1; 0; 0; 0; 255].
Definition bufB : list Z := [0; 1; 0; 1; 4; 0; 0; 255].
Definition bufC : list Z := [0; 1; 0; 1; 8; 0; 0; 255].
Definition bufD : list Z := [0; 1; 0; 1; 9; 0; 0; 255].
(** Other encodings of the first and of the second bitmap. *)
Definition bufA' : list Z := bufA ++ [0].
Definition bufB' : list Z := bufB ++ [0].

Definition keyA : string := "tc4b063e48c3ba7e26fcce6e3953c10e6ee56639c95066b402905a0691cbedad1".
Definition keyB : string := "t6f97ac22066054504b1e35f4203c99a384daa6cc54dd7dd3f4303f6f86bfc65c".
Definition keyC : string := "ta55b9414a8ca3fd8506d34ff1e8858085e5f47ba9008ae06eae9e113437598e3".
Definition keyD : string := "tf686240182308979d6c2082646a50467ecd79f9274ef572e8cad2c9d9be8d1ce".

(** The store after [A]; after [A] and [B]; after [A], [B] and [C];
    and after [A] and [C]. *)
Definition stA : Store * FileSystem := stateOf (demoRegister newStore NoDir bufA).
Definition stAB : Store * FileSystem := stateOf (demoRegister stA.1 stA.2 bufB).
Definition stABC : Store * FileSystem := stateOf (demoRegister stAB.1 stAB.2 bufC).
Definition stAC : Store * FileSystem := stateOf (demoRegister stA.1 stA.2 bufC).

(** The store rehydrated from the directory left by [A], [B] and [C]. *)
Definition stRehydrated : Store := storeOfInit (demoInit newStore stABC.2).

Definition fpOpaqueZero : string :=
  "263fb75d15a5ba7ce93ce210472931f3493d317958729be976ecd10277be50c6".

(** The entry of a one-pixel bitmap of the first bucket. *)
Definition demoInfo (k : string) : SharedTextureInfo :=
  {| key := k; info_width := 1; info_height := 1; fingerprint := fpOpaqueZero;
     filePath := path_join demoDir (k +:+ "@2x.png");
     texturePath := texturePathForKey demoNamespace k |}.

(** A directory with one stored bitmap, a file of another name and a
    sub-directory named by the convention. *)
Definition demoEntries : list (string * FsNode) :=
  [ (keyA +:+ "@2x.png", FsFile bufA);
    ("notes.txt", FsFile [110; 111; 116; 101]);
    (keyC +:+ "@2x.png", FsDir) ].

(** Two documents, one of them a [.ui] file that refers to [A] and [C],
    and a directory that holds [A], [B] and [C]. *)
Definition demoDocuments : list (string * string) :=
  [ ("/out/ui/Menu.ui",
     "Group { Background: HTML/Shared/" +:+ keyA +:+ ".png; Mask: HTML/Shared/"
     +:+ keyC +:+ ".png; }");
    ("/out/ui/.hash-Menu", "HTML/Shared/" +:+ keyB +:+ ".png") ].

Definition demoShared : list (string * FsNode) :=
  [ (keyA +:+ "@2x.png", FsFile bufA);
    (keyB +:+ "@2x.png", FsFile bufB);
    (keyC +:+ "@2x.png", FsFile bufC) ].

(** Two calls are made, the first starts and passes one [await]. *)
Definition demoCalls : Mutex.state :=
  let s2 := Mutex.synchronized (Mutex.synchronized Mutex.initial 2) 1 in
  let c0 := {| Mutex.waitsFor := 0; Mutex.run := 1; Mutex.released := 2;
               Mutex.awaits := 2; Mutex.progress := Mutex.Waiting |} in
  let s3 := Mutex.advance s2 0 c0 (Mutex.Running 2) in
  Mutex.advance s3 0 (Mutex.setProgress c0 (Mutex.Running 2)) (Mutex.Running 1).

(** The store and the directory after the bitmap [A] is registered in a
    new store, on a missing directory, and the reference returned. *)
Definition infoFreshA : SharedTextureInfo :=
  ownInfo demoDir demoNamespace pixA (hashPngPixels SHA256.hexdigest pixA)
    (computeFingerprint SHA256.hexdigest pixA).

Definition stFreshA : Store :=
  insertEntry newStore infoFreshA (hashPngPixels SHA256.hexdigest pixA)
    (bucketKey (width pixA) (height pixA) (computeFingerprint SHA256.hexdigest pixA)).

Definition fsFreshA : FileSystem :=
  withNewFile NoDir (ownFileName (hashPngPixels SHA256.hexdigest pixA)) bufA.

(** ** The work left to the calls of the mutex

    What the calls made still have to do: the turns of a body (its
    start, one turn for each [await] left, its end) and, for each call,
    the promise stored in [this.mutex], which is still to settle. *)
Module MutexWork.
Import Mutex.

Definition callWork (c : call) : nat :=
  match progress c with
  | Waiting => S (S (awaits c))
  | Running n => S n
  | Finished => 0
  end.

Definition workOf (s : state) (c : call) : nat :=
  callWork c + (if isSettled s (released c) then 0 else 1).

Definition work (s : state) : nat := sum_list_with (workOf s) (calls s).

(** A body that has ended has settled its promise. *)
Definition endedSettled (s : state) : Prop :=
  forall i c, calls s !! i = Some c -> progress c = Finished -> isSettled s (run c) = true.

End MutexWork.

(** ** utils.ts: escapes and sanitisers

    A string is the sequence of its code units. The patterns of these
    functions are classes of ASCII characters, met one unit at a time,
    and the replacements hold no [$]. *)

Definition backslash : ascii := Eval vm_compute in ascii_of_nat 92.
Definition doubleQuote : ascii := Eval vm_compute in ascii_of_nat 34.
Definition singleQuote : ascii := Eval vm_compute in ascii_of_nat 39.
Definition lineFeed : ascii := Eval vm_compute in ascii_of_nat 10.
Definition carriageReturn : ascii := Eval vm_compute in ascii_of_nat 13.

Definition isDigit (c : ascii) : bool :=
  let n := N_of_ascii c in ((48 <=? n) && (n <=? 57))%N.
Definition isUpper (c : ascii) : bool :=
  let n := N_of_ascii c in ((65 <=? n) && (n <=? 90))%N.
Definition isLower (c : ascii) : bool :=
  let n := N_of_ascii c in ((97 <=? n) && (n <=? 122))%N.
(** The classes [[A-Za-z]] and [[A-Za-z0-9]]. *)
Definition isAlpha (c : ascii) : bool := isUpper c || isLower c.
Definition isAlnum (c : ascii) : bool := isAlpha c || isDigit c.

(** [toUpperCase] and [toLowerCase] on a unit of the class [[A-Za-z0-9]]
    or, for the second, on any ASCII unit. *)
Definition toUpper (c : ascii) : ascii :=
  if isLower c then ascii_of_N (N_of_ascii c - 32) else c.
Definition toLower (c : ascii) : ascii :=
  if isUpper c then ascii_of_N (N_of_ascii c + 32) else c.

Fixpoint filterString (f : ascii -> bool) (s : string) : string :=
  match s with
  | EmptyString => EmptyString
  | String c s' => if f c then String c (filterString f s') else filterString f s'
  end.

Fixpoint mapString (f : ascii -> ascii) (s : string) : string :=
  match s with
  | EmptyString => EmptyString
  | String c s' => String (f c) (mapString f s')
  end.

(** [s.replace(/<class>/g, ..)]: each unit of the class gives way to
    what [f] makes of it. *)
Fixpoint replaceEach (f : ascii -> string) (s : string) : string :=
  match s with
  | EmptyString => EmptyString
  | String c s' => f c +:+ replaceEach f s'
  end.

(** [s.replace(/c/g, r)]. *)
Definition replaceChar (c : ascii) (r : string) (s : string) : string :=
  replaceEach (fun d => if Ascii.eqb d c then r else String d EmptyString) s.

Definition allChars (f : ascii -> bool) (s : string) : bool :=
  forallb f (list_ascii_of_string s).

(** [sanitizeId]. *)
Definition sanitizeId (value : string) : string :=
  let cleaned := filterString isAlnum value in
  match cleaned with
  | EmptyString => "Element"
  | String c _ => if isAlpha c then cleaned else "E" +:+ cleaned
  end.

(** [sanitizePathSegment]. *)
Definition isPathSafe (c : ascii) : bool :=
  isAlnum c || Ascii.eqb c "_" || Ascii.eqb c "-".

Definition sanitizePathSegment (value : string) : string :=
  let cleaned := mapString (fun c => if isPathSafe c then c else "_"%char) value in
  if (0 <? String.length cleaned)%nat then cleaned else "page".

(** The characters of the class [[.*+?^${}()|[\]\\]], which are the
    syntax characters of a pattern. *)
Definition isSyntaxCharacter (c : ascii) : bool :=
  existsb (Ascii.eqb c) (backslash :: list_ascii_of_string ".*+?^${}()|[]").

(** [escapeRegExp]: the replacement is a backslash and the match. *)
Definition escapeRegExp (value : string) : string :=
  replaceEach (fun c => if isSyntaxCharacter c then String backslash (String c EmptyString)
                        else String c EmptyString) value.

(** [escapeUiString]: three replacements, one after the other. *)
Definition escapeUiString (value : string) : string :=
  replaceChar lineFeed (String backslash "n")
    (replaceChar doubleQuote (String backslash (String doubleQuote EmptyString))
       (replaceChar backslash (String backslash (String backslash EmptyString)) value)).

(** [escapeHtml]: five replacements, one after the other. *)
Definition escapeHtml (value : string) : string :=
  replaceChar singleQuote "&#39;"
    (replaceChar doubleQuote "&quot;"
       (replaceChar ">" "&gt;"
          (replaceChar "<" "&lt;"
             (replaceChar "&" "&amp;" value)))).

(** [s.split(/<class>+/)]: the pieces between the runs of units of the
    class, empty pieces at the ends included. [piece] is the piece under
    way, and [inRun] tells that the unit before was of the class. *)
Fixpoint splitOn (isSep : ascii -> bool) (s : string) (piece : string) (inRun : bool)
  : list string :=
  match s with
  | EmptyString => [piece]
  | String c s' =>
      if isSep c then
        if inRun then splitOn isSep s' piece true
        else piece :: splitOn isSep s' EmptyString true
      else splitOn isSep s' (piece +:+ String c EmptyString) false
  end.

Definition nonEmpty (s : string) : bool := negb (String.eqb s "").

(** [part[0]!.toUpperCase() + part.slice(1)], on a part that is not empty. *)
Definition capitalize (part : string) : string :=
  match part with
  | EmptyString => EmptyString
  | String c rest => String (toUpper c) rest
  end.

(** [toPascalCase]. *)
Definition toPascalCase (value : string) : string :=
  let parts := List.filter nonEmpty (splitOn (fun c => negb (isAlnum c)) value EmptyString false) in
  match parts with
  | [] => "Page"
  | _ => String.concat EmptyString (map capitalize parts)
  end.

(** ui-generator.ts, [normalizeLayoutMode]; [None] is [null]. *)
Definition normalizeLayoutMode (value : option string) : option string :=
  match value with
  | None => None
  | Some v =>
      if String.eqb v "" then None
      else
        let normalized := mapString toLower (filterString isAlpha v) in
        if String.eqb normalized "none" then Some "none"
        else if String.eqb normalized "top" then Some "Top"
        else if String.eqb normalized "left" then Some "Left"
        else if String.eqb normalized "right" then Some "Right"
        else if String.eqb normalized "bottom" then Some "Bottom"
        else if String.eqb normalized "center" then Some "Center"
        else if String.eqb normalized "middle" then Some "Middle"
        else if String.eqb normalized "full" then Some "Full"
        else if String.eqb normalized "topscrolling" then Some "TopScrolling"
        else if String.eqb normalized "leftcenterwrap" then Some "LeftCenterWrap"
        else if String.eqb normalized "centermiddle" then Some "CenterMiddle"
        else if String.eqb normalized "middlecenter" then Some "MiddleCenter"
        else None
  end.

(** validator.ts: [IDENTIFIER_PATTERN], [/^[A-Za-z][A-Za-z0-9]*$/]. *)
Definition matchesIdentifier (s : string) : bool :=
  match s with
  | EmptyString => false
  | String c rest => isAlpha c && allChars isAlnum rest
  end.

(** validator.ts: [STRING_LITERAL_PATTERN], a quote, then escapes (a
    backslash and a unit that ends no line) and units other than the
    quote and the backslash, then a quote that ends the text.
    [literalBody] is the pattern after the first quote. *)
Definition endsLine (c : ascii) : bool := Ascii.eqb c lineFeed || Ascii.eqb c carriageReturn.

Fixpoint literalBody (s : string) : bool :=
  match s with
  | EmptyString => false
  | String c s' =>
      if Ascii.eqb c doubleQuote then String.eqb s' ""
      else if Ascii.eqb c backslash then
        match s' with
        | String d s'' => negb (endsLine d) && literalBody s''
        | EmptyString => false
        end
      else literalBody s'
  end.

Definition matchesStringLiteral (s : string) : bool :=
  match s with
  | String c s' => Ascii.eqb c doubleQuote && literalBody s'
  | EmptyString => false
  end.

(** A pattern made of characters that stand for themselves and of
    syntax characters behind a backslash matches one text and no other:
    that text, or [None] for a pattern that is not of this kind. *)
Fixpoint literalOfPattern (p : string) : option string :=
  match p with
  | EmptyString => Some EmptyString
  | String c p' =>
      if Ascii.eqb c backslash then
        match p' with
        | String d p'' =>
            if isSyntaxCharacter d then String d <$> literalOfPattern p'' else None
        | EmptyString => None
        end
      else if isSyntaxCharacter c then None
      else String c <$> literalOfPattern p'
  end.

(** The text of a string literal without its quotes: a backslash and
    [n] is a line feed, a backslash and another unit is that unit. *)
Fixpoint unescapeUiString (s : string) : string :=
  match s with
  | EmptyString => EmptyString
  | String c s' =>
      if Ascii.eqb c backslash then
        match s' with
        | String d s'' => String (if Ascii.eqb d "n" then lineFeed else d) (unescapeUiString s'')
        | EmptyString => EmptyString
        end
      else String c (unescapeUiString s')
  end.

(** What [escapeUiString] makes of one unit. *)
Definition uiEscapeOf (c : ascii) : string :=
  if Ascii.eqb c backslash then String backslash (String backslash EmptyString)
  else if Ascii.eqb c doubleQuote then String backslash (String doubleQuote EmptyString)
  else if Ascii.eqb c lineFeed then String backslash "n"
  else String c EmptyString.

(** A unit that [escapeUiString] leaves alone. *)
Definition uiPlain (c : ascii) : bool :=
  negb (Ascii.eqb c backslash || Ascii.eqb c doubleQuote || Ascii.eqb c lineFeed).

(** What [escapeHtml] makes of one unit. *)
Definition htmlEscapeOf (c : ascii) : string :=
  if Ascii.eqb c "&" then "&amp;"
  else if Ascii.eqb c "<" then "&lt;"
  else if Ascii.eqb c ">" then "&gt;"
  else if Ascii.eqb c doubleQuote then "&quot;"
  else if Ascii.eqb c singleQuote then "&#39;"
  else String c EmptyString.

(** A unit that opens or closes a tag or an attribute value. *)
Definition isMarkup (c : ascii) : bool :=
  Ascii.eqb c "<" || Ascii.eqb c ">" || Ascii.eqb c doubleQuote || Ascii.eqb c singleQuote.

(** ** utils.ts: listFilesRecursive *)

(** What is found at a path: a regular file with its text, a directory
    with its entries in the order [readdir] gives them, or something
    else (a link, a socket). A path under the directory walked is the
    list of the names joined by [path.join]. *)
#[warnings="-register-all"]
Inductive Tree :=
  | File (text : string)
  | Folder (entries : list (string * Tree))
  | Special.

Definition isNamed (name : string) (entry : string * Tree) : bool :=
  String.eqb entry.1 name.

Fixpoint lookupTree (t : Tree) (p : list string) : option Tree :=
  match p with
  | [] => Some t
  | name :: p' =>
      match t with
      | Folder entries =>
          match List.find (isNamed name) entries with
          | Some entry => lookupTree entry.2 p'
          | None => None
          end
      | _ => None
      end
  end.

(** The outcome of the walk: the list, or the error of [readdir] on what
    is no directory. *)
Inductive walked := Walked (results : list (list string)) | ENOTDIR.

(** The body of the [for] loop: [acc] is the stack, its top first, and
    the results. *)
Definition scanEntry (current : list string)
    (acc : list (list string) * list (list string)) (entry : string * Tree)
  : list (list string) * list (list string) :=
  let full := current ++ [entry.1] in
  match entry.2 with
  | Folder _ => (full :: acc.1, acc.2)
  | File _ => (acc.1, acc.2 ++ [full])
  | Special => acc
  end.

(** The [while] loop, [fuel] bounding its passes; [root] is what is at
    [dir], if anything. *)
Fixpoint walk (root : option Tree) (fuel : nat) (stack results : list (list string))
  : option walked :=
  match stack with
  | [] => Some (Walked results)
  | current :: stack' =>
      match fuel with
      | O => None
      | S fuel' =>
          match root ≫= (fun t => lookupTree t current) with
          | None => walk root fuel' stack' results
          | Some (Folder entries) =>
              let out := foldl (scanEntry current) (stack', results) entries in
              walk root fuel' out.1 out.2
          | Some _ => Some ENOTDIR
          end
      end
  end.

(** The directories of a tree: the passes of the loop that read one. *)
Fixpoint folders (t : Tree) : nat :=
  match t with
  | Folder entries => S (list_sum (map (fun entry => folders entry.2) entries))
  | _ => O
  end.

Definition listFilesRecursive (root : option Tree) : option walked :=
  walk root (S (from_option folders O root)) [[]] [].

(** No directory of the tree holds a name twice. *)
Fixpoint distinctNames (t : Tree) : bool :=
  match t with
  | Folder entries =>
      bool_decide (NoDup (map fst entries))
      && forallb (fun entry => distinctNames entry.2) entries
  | _ => true
  end.

(** The path pushed on the results, or on the stack, for an entry. *)
Definition filePathOf (p : list string) (entry : string * Tree) : option (list string) :=
  match entry.2 with File _ => Some (p ++ [entry.1]) | _ => None end.

Definition folderPathOf (p : list string) (entry : string * Tree) : option (list string) :=
  match entry.2 with Folder _ => Some (p ++ [entry.1]) | _ => None end.

(** The regular files under [t], which is at the path [p], in the order
    of the walk: those of the directory, then those under its
    sub-directories, the last one first. *)
Fixpoint filesUnder (t : Tree) (p : list string) : list (list string) :=
  match t with
  | Folder entries =>
      omap (filePathOf p) entries
      ++ concat (rev (map (fun entry => filesUnder entry.2 (p ++ [entry.1])) entries))
  | _ => []
  end.

(** What the walk has still to give for a path of its stack, and the
    passes that takes. *)
Definition filesAt (t : Tree) (p : list string) : list (list string) :=
  match lookupTree t p with Some t' => filesUnder t' p | None => [] end.

Definition foldersAt (t : Tree) (p : list string) : nat :=
  match lookupTree t p with Some t' => folders t' | None => O end.

Definition demoTree : Tree :=
  Folder [ ("Menu.ui", File "Group { }");
           ("pages", Folder [ ("Shop.ui", File "Label { }"); ("old", Folder []) ]);
           ("link", Special);
           (".hash-Menu", File "0f") ].

(** A [.ui] file as [buildUiFile] writes it: the texture path of [A]
    between quotes. *)
Definition digestA : string :=
  "c4b063e48c3ba7e26fcce6e3953c10e6ee56639c95066b402905a0691cbedad1".

Definition quotedDocuments : list (string * string) :=
  [ ("/out/ui/Menu.ui",
     "Group { Background: "
     +:+ String doubleQuote
           (escapeUiString (texturePathForKey demoNamespace (SHARED_TEXTURE_PREFIX +:+ digestA))
            +:+ String doubleQuote "; }")) ].

(** ** cli.ts: parseArgs *)

(** A function returns or throws an [Error] with a message. *)
Inductive outcome (A : Type) := Returns (a : A) | Throws (message : string).
Arguments Returns {A} a.
Arguments Throws {A} message.

Definition booleanFlags : list string := ["check"; "force"; "strict-validate"].

(** The [for] loop of [parseArgs] from the argument at hand on: [raw]
    and [flags] at its end. The value of an option is passed over with
    the option, [i += 1]. *)
Fixpoint parseLoop (argv : list string) (raw : gmap string string) (flags : gset string)
  : outcome (gmap string string * gset string) :=
  match argv with
  | [] => Returns (raw, flags)
  | arg :: rest =>
      match stripPrefix "--" arg with
      | None => parseLoop rest raw flags
      | Some key =>
          if bool_decide (key ∈ booleanFlags) then parseLoop rest raw ({[key]} ∪ flags)
          else
            match rest with
            | [] => Throws ("Missing value for --" +:+ key)
            | value :: rest' =>
                if negb (truthy value) || bool_decide (is_Some (stripPrefix "--" value))
                then Throws ("Missing value for --" +:+ key)
                else parseLoop rest' (<[key := value]> raw) flags
            end
      end
  end.

(** [raw.key] read as a condition: set, and not the empty string. *)
Definition given (raw : gmap string string) (key : string) : option string :=
  match raw !! key with
  | Some value => if truthy value then Some value else None
  | None => None
  end.

Section Cli.

(** Numbers, [Number] on a run of digits, [path.resolve] on one path and
    on [(outResources, "..", "html")]. *)
Variable number : Type.
Variable toNumber : string -> number.
Variable resolve : string -> string.
Variable resolveHtmlBeside : string -> string.

Record Viewport := { vp_width : number; vp_height : number }.

Variable DEFAULT_VIEWPORT : Viewport.

Record Args := {
  input : string;
  outResources : string;
  outUi : string;
  outHtml : string;
  viewport : Viewport;
  args_namespace : string;
  check : bool;
  strictValidate : bool;
  force : bool
}.

(** [\d+] at the head of [s]: the digits and what follows. *)
Fixpoint digitRun (s : string) : string * string :=
  match s with
  | String c s' =>
      if isDigit c then let (digits, rest) := digitRun s' in (String c digits, rest)
      else (EmptyString, s)
  | EmptyString => (EmptyString, EmptyString)
  end.

(** [parseViewport]: [/^(\d+)x(\d+)$/] on the value in lower case. *)
Definition parseViewport (value : string) : outcome Viewport :=
  let invalid := Throws ("Invalid viewport " +:+ String doubleQuote value
                         +:+ String doubleQuote ". Expected 1920x1080.") in
  let (w, rest) := digitRun (mapString toLower value) in
  match rest with
  | String c rest' =>
      let (h, rest'') := digitRun rest' in
      if truthy w && Ascii.eqb c "x" && truthy h && negb (truthy rest'')
      then Returns {| vp_width := toNumber w; vp_height := toNumber h |}
      else invalid
  | EmptyString => invalid
  end.

Definition parseArgs (argv : list string) : outcome Args :=
  match parseLoop argv ∅ ∅ with
  | Throws message => Throws message
  | Returns (raw, flags) =>
      match given raw "input", given raw "out-resources", given raw "out-ui" with
      | None, _, _ => Throws "--input is required"
      | Some _, None, _ => Throws "--out-resources is required"
      | Some _, Some _, None => Throws "--out-ui is required"
      | Some rawInput, Some rawOutResources, Some rawOutUi =>
          let outResources := resolve rawOutResources in
          let outUi := resolve rawOutUi in
          let outHtml := match given raw "out-html" with
                         | Some value => resolve value
                         | None => resolveHtmlBeside outResources
                         end in
          let input := resolve rawInput in
          match (match given raw "viewport" with
                 | Some value => parseViewport value
                 | None => Returns DEFAULT_VIEWPORT
                 end) with
          | Throws message => Throws message
          | Returns viewport =>
              Returns {| input := input;
                         outResources := outResources;
                         outUi := outUi;
                         outHtml := outHtml;
                         viewport := viewport;
                         args_namespace := default "HTML" (raw !! "namespace");
                         check := bool_decide ("check" ∈ flags) || negb (bool_decide ("force" ∈ flags));
                         strictValidate := bool_decide ("strict-validate" ∈ flags);
                         force := bool_decide ("force" ∈ flags) |}
          end
      end
  end.

(** index.ts, [main]: a page whose stored hash is the hash at hand is
    passed over [if (args.check && !args.force)]. *)
Definition passesUnchangedPages (args : Args) : bool := check args && negb (force args).

End Cli.

Arguments vp_width {number} _.
Arguments vp_height {number} _.

Definition demoArgv : list string :=
  [ "--input"; "in"; "--out-resources"; "res"; "--out-ui"; "ui";
    "--force"; "--check"; "--viewport"; "800X600" ].

(** The bytes that [hashPngPixels] gives to the digest: the chunks of
    [sha256Hex] one after the other. *)
Definition hashedBytes (decoded : DecodedPng) : list Z :=
  bytes_of_string (pretty (width decoded) +:+ "x" +:+ pretty (height decoded)
                   +:+ String (ascii_of_nat 0) "")
  ++ data decoded.

(** The units of a number in decimal. *)
Definition isNumberChar (c : ascii) : bool := isDigit c || Ascii.eqb c "-".

(** ** page-processor.ts: the ids of the elements of a page *)

(** [count === 0 ? sanitized : `${sanitized}${count + 1}`]. *)
Definition elementId (sanitized : string) (count : N) : string :=
  if (count =? 0)%N then sanitized else sanitized +:+ pretty (count + 1)%N.

(** The loop over the elements that are rendered, [baseIds] being their
    [raw.rawId ?? `${raw.tag}${raw.order}`] in order: the ids given. *)
Fixpoint assignIds (usedIds : gmap string N) (baseIds : list string) : list string :=
  match baseIds with
  | [] => []
  | baseId :: rest =>
      let sanitized := sanitizeId baseId in
      let count := default 0%N (usedIds !! sanitized) in
      elementId sanitized count :: assignIds (<[sanitized := (count + 1)%N]> usedIds) rest
  end.

(** The elements before the place [i] whose id has the same base. *)
Definition sameBaseBefore (baseIds : list string) (i : nat) (sanitized : string) : nat :=
  length (List.filter (fun baseId => String.eqb (sanitizeId baseId) sanitized) (take i baseIds)).

(** A namespace that is the last letter of a reference path, and a
    [.ui] file in which the reference path of [B] starts on the last
    letter of the reference path of [A]; the directory holds both. *)
Definition overlapNamespace : string := "g".
Definition overlapDir : string := "/res/Common/UI/Custom/g/Shared".

Definition digestB : string :=
  "6f97ac22066054504b1e35f4203c99a384daa6cc54dd7dd3f4303f6f86bfc65c".

Definition overlapText : string :=
  "g/Shared/" +:+ keyA +:+ ".png/Shared/" +:+ keyB +:+ ".png".

Definition overlapDocuments : list (string * string) := [ ("/out/ui/Menu.ui", overlapText) ].

Definition storedAB : list (string * FsNode) :=
  [ (keyA +:+ "@2x.png", FsFile bufA); (keyB +:+ "@2x.png", FsFile bufB) ].

(** * Properties *)

(** ** SHA-256 on the test vectors of FIPS 180-4 *)

Example sha256_empty :
  SHA256.hexdigest [] = "e3b0c44298fc1c149afbf4c8996fb92427ae41e4649b934ca495991b7852b855".
Proof. vm_compute. reflexivity. Qed.

Example sha256_abc :
  SHA256.hexdigest (bytes_of_string "abc")
  = "ba7816bf8f01cfea414140de5dae2223b00361a396177a9cb410ff61f20015ad".
Proof. vm_compute. reflexivity. Qed.

Example sha256_two_blocks :
  SHA256.hexdigest (bytes_of_string "abcdbcdecdefdefgefghfghighijhijkijkljklmklmnlmnomnopnopq")
  = "248d6a61d20638b8e5c026930c3e6039a33ce45964ff2167f6ecedd419db06c1".
Proof. vm_compute. reflexivity. Qed.

(** ** The store *)

Section StoreFacts.

Variable pngRead : list Z -> option DecodedPng.
Variable sha256 : list Z -> string.
Variables sharedDir namespace : string.

(** The functions of the store at these parameters. *)
Local Abbreviation decodePng := (decodePng pngRead).
Local Abbreviation atPath := (atPath sharedDir).
Local Abbreviation lookupPath := (lookupPath sharedDir).
Local Abbreviation readFile := (readFile sharedDir).
Local Abbreviation exists_ := (exists_ sharedDir).
Local Abbreviation writeFileSafe := (writeFileSafe sharedDir).
Local Abbreviation rm := (rm sharedDir).
Local Abbreviation texturePathForKey := (texturePathForKey namespace).
Local Abbreviation initEntry := (initEntry pngRead sha256 sharedDir namespace).
Local Abbreviation initLoop := (initLoop pngRead sha256 sharedDir namespace).
Local Abbreviation init := (init pngRead sha256 sharedDir namespace).
Local Abbreviation scanStep := (scanStep pngRead sharedDir).
Local Abbreviation scanCandidates := (scanCandidates pngRead sharedDir).
Local Abbreviation registerNew := (registerNew sharedDir namespace).
Local Abbreviation register := (register pngRead sha256 sharedDir namespace).
Local Abbreviation matchReference := (matchReference namespace).
Local Abbreviation referenceLength := (referenceLength namespace).
Local Abbreviation matchAll := (matchAll namespace).
Local Abbreviation collectUsedKeys := (collectUsedKeys namespace).
Local Abbreviation pruneEntry := (pruneEntry sharedDir).
Local Abbreviation pruneUnusedSharedTextures := (pruneUnusedSharedTextures sharedDir namespace).
Local Abbreviation ownInfo := (ownInfo sharedDir namespace).
Local Abbreviation RegisterPath := (RegisterPath sha256 sharedDir namespace).
Local Abbreviation startStore := (startStore pngRead sha256 sharedDir namespace).
Local Abbreviation storeFilesDecode := (storeFilesDecode pngRead).
Local Abbreviation entryOfFile := (entryOfFile sha256 sharedDir namespace).
Local Abbreviation storedFile := (storedFile pngRead).
Local Abbreviation candidateScore := (candidateScore pngRead sharedDir).
Local Abbreviation contentAddressed := (contentAddressed pngRead sha256).
Local Abbreviation referenceAt := (referenceAt namespace).
Local Abbreviation entriesCanonical := (entriesCanonical sharedDir namespace).
Local Abbreviation filesPresent := (filesPresent sharedDir).
Local Abbreviation registerAll := (registerAll pngRead sha256 sharedDir namespace).
Local Abbreviation initStep := (initStep pngRead sha256 sharedDir namespace).
Local Abbreviation storeDirectory := (storeDirectory pngRead sha256).
Local Abbreviation mirrors := (mirrors pngRead sha256 sharedDir namespace).
Local Abbreviation path_exact := (path_exact sha256 sharedDir namespace).
Local Abbreviation path_alias := (path_alias sha256 sharedDir namespace).
Local Abbreviation path_new := (path_new sha256 sharedDir namespace).

Lemma bind_Ok {A B} (r : result A) (f : A -> result B) (b : B) :
  r ≫= f = Ok b -> exists a, r = Ok a /\ f a = Ok b.
Proof. destruct r as [a|e]; simpl; [eauto | discriminate]. Qed.

Lemma decodePng_Ok buffer decoded :
  decodePng buffer = Ok decoded <-> pngRead buffer = Some decoded.
Proof. unfold decodePng. destruct (pngRead buffer); split; congruence. Qed.

Lemma registerNew_Ok st fs buffer decoded h fp bk out :
  registerNew st fs buffer decoded h fp bk = Ok out ->
  exists fs',
    (if exists_ fs (filePath (ownInfo decoded h fp)) then Ok fs
     else writeFileSafe fs (filePath (ownInfo decoded h fp)) buffer) = Ok fs'
    /\ out = (refOf (ownInfo decoded h fp), insertEntry st (ownInfo decoded h fp) h bk, fs').
Proof.
  unfold registerNew. intros H. apply bind_Ok in H as (fs' & Hw & H).
  exists fs'. split; [exact Hw|]. by inversion H.
Qed.

Lemma register_paths st fs buffer out :
  register st fs buffer = Ok out ->
  exists decoded, pngRead buffer = Some decoded /\ RegisterPath st fs buffer decoded out.
Proof.
  unfold register. intros H.
  apply bind_Ok in H as (decoded & Hd & H). apply decodePng_Ok in Hd.
  exists decoded. split; [done|].
  destruct (infoOfKey st (exactHashToKey st !! hashPngPixels sha256 decoded)) as [info|] eqn:Hex.
  - inversion H. by eapply path_exact.
  - apply bind_Ok in H as ([bestKey bestM] & Hscan & H). cbn [fst] in H.
    destruct bestKey as [bestKey|].
    + destruct (infoOfKey st (Some bestKey)) as [info|] eqn:Hinfo.
      * inversion H. by eapply path_alias.
      * apply registerNew_Ok in H as (fs' & Hw & ->). by eapply path_new.
    + apply registerNew_Ok in H as (fs' & Hw & ->). by eapply path_new.
Qed.

Lemma register_exact st fs buffer decoded info :
  pngRead buffer = Some decoded ->
  infoOfKey st (exactHashToKey st !! hashPngPixels sha256 decoded) = Some info ->
  register st fs buffer = Ok (refOf info, st, fs).
Proof.
  intros Hd Hi. unfold register, decodePng. rewrite Hd. simpl. by rewrite Hi.
Qed.

(** Once a bitmap went through [register], its digest resolves at the
    first test: the call again gives the same reference and changes nothing. *)
Lemma register_again st fs b1 b2 decoded r st1 fs1 :
  pngRead b1 = Some decoded -> pngRead b2 = Some decoded ->
  register st fs b1 = Ok (r, st1, fs1) ->
  register st1 fs1 b2 = Ok (r, st1, fs1).
Proof.
  intros Hd1 Hd2 H. apply register_paths in H as (d & Hd & Hp).
  assert (d = decoded) as -> by congruence.
  destruct Hp as [info Hi Ho | bestKey info Hmiss Hi Ho | fs' Hmiss Hw Ho]; inversion Ho; subst.
  - by apply (register_exact _ _ _ decoded).
  - apply (register_exact _ _ _ decoded); [done|]. simpl. by rewrite lookup_insert_eq.
  - apply (register_exact _ _ _ decoded); [done|]. simpl. rewrite lookup_insert_eq. simpl.
    by rewrite lookup_insert_eq.
Qed.

(** *** Strings and names *)

Lemma path_join_inj dir n1 n2 : path_join dir n1 = path_join dir n2 -> n1 = n2.
Proof.
  unfold path_join. intros H. apply (inj (String.app dir)) in H.
  by apply (inj (String.app "/")) in H.
Qed.

Lemma stripPrefix_Some p s s' : stripPrefix p s = Some s' -> s = p +:+ s'.
Proof.
  revert s. induction p as [|c p IH]; intros s H; simpl in *.
  - by inversion H.
  - destruct s as [|d s]; [done|]. destruct (Ascii.eqb_spec c d) as [->|]; [|done].
    apply IH in H. by rewrite H.
Qed.

Lemma stripPrefix_app p s : stripPrefix p (p +:+ s) = Some s.
Proof.
  induction p as [|c p IH]; simpl; [done|]. by rewrite Ascii.eqb_refl.
Qed.

Lemma hexRun_Some n s h rest :
  hexRun n s = Some (h, rest) ->
  s = h +:+ rest /\ String.length h = n
  /\ forallb isLowerHex (list_ascii_of_string h) = true.
Proof.
  revert s h. induction n as [|n IH]; intros s h H; simpl in *.
  - by inversion H.
  - destruct s as [|c s]; [done|]. destruct (isLowerHex c) eqn:Hc; [|done].
    destruct (hexRun n s) as [[h' rest']|] eqn:Hr; [|done].
    inversion H; subst. apply IH in Hr as (-> & <- & Hall).
    simpl. by rewrite Hc, Hall.
Qed.

Lemma hexRun_app h rest :
  forallb isLowerHex (list_ascii_of_string h) = true ->
  hexRun (String.length h) (h +:+ rest) = Some (h, rest).
Proof.
  induction h as [|c h IH]; simpl; [done|].
  intros [Hc Hall]%andb_prop. by rewrite Hc, IH.
Qed.

Lemma matchKey_Some s k rest :
  matchKey s = Some (k, rest) ->
  s = k +:+ rest /\ exists h, k = SHARED_TEXTURE_PREFIX +:+ h /\ isHex64 h.
Proof.
  unfold matchKey. intros H.
  destruct (stripPrefix SHARED_TEXTURE_PREFIX s) as [s'|] eqn:Hp; [|done].
  destruct (hexRun 64 s') as [[h rest']|] eqn:Hr; [|done].
  inversion H; subst. apply stripPrefix_Some in Hp as ->.
  apply hexRun_Some in Hr as (-> & Hlen & Hall).
  split; [done|]. by exists h.
Qed.

Lemma matchKey_own h rest :
  isHex64 h -> matchKey ((SHARED_TEXTURE_PREFIX +:+ h) +:+ rest) = Some (SHARED_TEXTURE_PREFIX +:+ h, rest).
Proof.
  intros [Hlen Hall]. unfold matchKey.
  change ((SHARED_TEXTURE_PREFIX +:+ h) +:+ rest) with (SHARED_TEXTURE_PREFIX +:+ (h +:+ rest)).
  rewrite stripPrefix_app, <- Hlen. by rewrite hexRun_app.
Qed.

Lemma matchSharedFileName_Some name k :
  matchSharedFileName name = Some k ->
  name = k +:+ "@2x.png" /\ exists h, k = SHARED_TEXTURE_PREFIX +:+ h /\ isHex64 h.
Proof.
  unfold matchSharedFileName. intros H.
  destruct (matchKey name) as [[k' rest]|] eqn:Hk; [|done].
  destruct (String.eqb_spec rest "@2x.png") as [->|]; [|done].
  inversion H; subst. by apply matchKey_Some in Hk.
Qed.

Lemma matchSharedFileName_own h :
  isHex64 h ->
  matchSharedFileName ((SHARED_TEXTURE_PREFIX +:+ h) +:+ "@2x.png")
  = Some (SHARED_TEXTURE_PREFIX +:+ h).
Proof. intros Hh. unfold matchSharedFileName. by rewrite matchKey_own. Qed.

Lemma truthy_key k s : k = SHARED_TEXTURE_PREFIX +:+ s -> truthy k = true.
Proof. by intros ->. Qed.

(** *** The file system *)

Lemma atPath_true p entry : atPath p entry = true <-> path_join sharedDir entry.1 = p.
Proof. unfold atPath. apply String.eqb_eq. Qed.

Lemma lookupPath_entry fs name node :
  NoDup (map fst (dirEntries fs)) -> (name, node) ∈ dirEntries fs ->
  lookupPath fs (path_join sharedDir name) = Some node.
Proof.
  unfold lookupPath. induction (dirEntries fs) as [|[n' node'] l IH]; intros Hnd Hin.
  - by apply elem_of_nil in Hin.
  - simpl in *. apply NoDup_cons in Hnd as [Hn' Hnd].
    destruct (atPath (path_join sharedDir name) (n', node')) eqn:Hat.
    + apply atPath_true, path_join_inj in Hat. simpl in Hat. subst n'.
      apply elem_of_cons in Hin as [Heq|Hin]; [by inversion Heq|].
      exfalso. apply Hn'. apply list_elem_of_fmap. by exists (name, node).
    + apply elem_of_cons in Hin as [Heq|Hin]; [|by apply IH].
      inversion Heq; subst. unfold atPath in Hat. simpl in Hat.
      by rewrite String.eqb_refl in Hat.
Qed.

Lemma lookupPath_Some fs p node :
  lookupPath fs p = Some node ->
  exists name, (name, node) ∈ dirEntries fs /\ p = path_join sharedDir name.
Proof.
  unfold lookupPath. intros H.
  destruct (List.find (atPath p) (dirEntries fs)) as [[n nd]|] eqn:Hf; [|done].
  inversion H; subst. apply find_some in Hf as [Hin Hat].
  apply atPath_true in Hat. exists n. split; [by apply list_elem_of_In|done].
Qed.

Lemma lookupPath_None fs name :
  lookupPath fs (path_join sharedDir name) = None -> name ∉ map fst (dirEntries fs).
Proof.
  unfold lookupPath. intros H Hin.
  destruct (List.find (atPath (path_join sharedDir name)) (dirEntries fs)) eqn:Hf; [done|].
  apply list_elem_of_fmap in Hin as ([n nd] & -> & Hin).
  apply list_elem_of_In in Hin. eapply find_none in Hf; [|exact Hin].
  unfold atPath in Hf. simpl in Hf. by rewrite String.eqb_refl in Hf.
Qed.

(** *** The index invariant *)

Lemma hasOneEntry_lookup st k : hasOneEntry st k <-> is_Some (keyToInfo st !! k).
Proof.
  split.
  - intros (info & H & _). by exists info.
  - intros [info H]. exists info. split; [done|]. congruence.
Qed.

Lemma sortKeys_sorted l : Sorted String.le (sortKeys l).
Proof. apply (Sorted_merge_sort String.le). Qed.

Lemma sortKeys_elem_of k l : k ∈ sortKeys l <-> k ∈ l.
Proof. unfold sortKeys. by rewrite merge_sort_Permutation. Qed.

Lemma newStore_consistent : indexConsistent newStore.
Proof. split; intros ? ? H; simpl in H; by rewrite lookup_empty in H. Qed.

Lemma insertEntry_consistent st info h bk :
  indexConsistent st -> indexConsistent (insertEntry st info h bk).
Proof.
  intros [Hb Hh].
  assert (forall k, hasOneEntry st k -> hasOneEntry (insertEntry st info h bk) k) as Hmono.
  { intros k. rewrite !hasOneEntry_lookup. simpl. rewrite lookup_insert_is_Some. 
    destruct (decide (key info = k)); auto. }
  assert (hasOneEntry (insertEntry st info h bk) (key info)) as Hnew.
  { apply hasOneEntry_lookup. simpl. rewrite lookup_insert_eq. by eexists. }
  split.
  - intros bk' l. simpl. rewrite lookup_insert. case_decide as Hbk.
    + intros [= <-]. split; [apply sortKeys_sorted|].
      intros k [Hk| ->%list_elem_of_singleton]%sortKeys_elem_of%elem_of_app; [|done].
      destruct (bucketToKeys st !! bk) as [l0|] eqn:Hl0; simpl in Hk.
      * apply Hmono. by apply (Hb bk l0).
      * by apply elem_of_nil in Hk.
    + intros Hl. destruct (Hb bk' l Hl) as [Hs Hm]. split; [done|]. auto.
  - intros h' k. simpl. rewrite lookup_insert. case_decide.
    + by intros [= <-].
    + intros Hk. apply Hmono. by apply (Hh h').
Qed.

Lemma initLoop_consistent fs entries st st' :
  indexConsistent st -> initLoop fs st entries = Ok st' -> indexConsistent st'.
Proof.
  revert st. induction entries as [|entry rest IH]; intros st Hc H; simpl in H.
  - by inversion H; subst.
  - apply bind_Ok in H as (st1 & He & H). apply (IH st1); [|done].
    unfold initEntry in He. destruct (entry.2); [|by inversion He; subst].
    destruct (matchSharedFileName entry.1); [|by inversion He; subst].
    apply bind_Ok in He as (buffer & _ & He). apply bind_Ok in He as (decoded & _ & He).
    inversion He; subst. by apply insertEntry_consistent.
Qed.

Lemma init_consistent st fs st' fs' :
  indexConsistent st -> init st fs = Ok (st', fs') -> indexConsistent st'.
Proof.
  intros Hc H. unfold init in H. apply bind_Ok in H as (entries & _ & H).
  apply bind_Ok in H as (st1 & Hl & H). inversion H; subst.
  by eapply initLoop_consistent.
Qed.

Lemma infoOfKey_Some st k info :
  infoOfKey st k = Some info ->
  exists k', k = Some k' /\ truthy k' = true /\ keyToInfo st !! k' = Some info.
Proof.
  destruct k as [k'|]; simpl; [|done].
  destruct (truthy k') eqn:Ht; [|done]. eauto.
Qed.

Lemma register_consistent st fs buffer r st' fs' :
  indexConsistent st -> register st fs buffer = Ok (r, st', fs') -> indexConsistent st'.
Proof.
  intros Hc H. apply register_paths in H as (decoded & Hd & Hp).
  destruct Hp as [info Hi Ho | bestKey info Hmiss Hi Ho | fs1 Hmiss Hw Ho]; inversion Ho; subst.
  - done.
  - destruct Hc as [Hb Hh]. split; [exact Hb|].
    intros h k. simpl. rewrite lookup_insert. case_decide.
    + intros [= <-]. apply infoOfKey_Some in Hi as (k' & [= <-] & _ & Hk).
      apply hasOneEntry_lookup. by eexists.
    + apply Hh.
  - by apply insertEntry_consistent.
Qed.

(** C9. The consistency of the index is an invariant: it holds of the
    empty index a store is made with, and [init] and every [register]
    that return keep it. Each bucket list is sorted by key (the order of
    [String.le], by code units), and each key in the digest map or in a
    bucket has exactly one entry in [keyToInfo]. *)
Theorem index_consistency_invariant st fs :
  indexConsistent st ->
  (forall st' fs', init st fs = Ok (st', fs') -> indexConsistent st')
  /\ (forall buffer r st' fs',
        register st fs buffer = Ok (r, st', fs') -> indexConsistent st').
Proof.
  intros Hc. split.
  - intros st' fs'. by apply init_consistent.
  - intros buffer r st' fs'. by apply register_consistent.
Qed.

(** *** Rehydration *)

Lemma initEntry_skip fs st entry :
  storeFileKey entry = None -> initEntry fs st entry = Ok st.
Proof.
  unfold storeFileKey, initEntry. destruct (entry.2); [|done]. by intros ->.
Qed.

Lemma initEntry_take fs st name content k decoded :
  NoDup (map fst (dirEntries fs)) -> (name, FsFile content) ∈ dirEntries fs ->
  matchSharedFileName name = Some k -> pngRead content = Some decoded ->
  initEntry fs st (name, FsFile content)
  = Ok (insertEntry st (entryOfFile name k decoded) (hashPngPixels sha256 decoded)
          (bucketKey (width decoded) (height decoded) (computeFingerprint sha256 decoded))).
Proof.
  intros Hnd Hin Hm Hd. unfold initEntry. simpl. rewrite Hm.
  unfold readFile. rewrite (lookupPath_entry fs name (FsFile content)) by done.
  simpl. unfold decodePng. by rewrite Hd.
Qed.

Lemma storeFileKey_inj e1 e2 k :
  storeFileKey e1 = Some k -> storeFileKey e2 = Some k -> e1.1 = e2.1.
Proof.
  unfold storeFileKey. destruct (e1.2), (e2.2); try done.
  intros [-> _]%matchSharedFileName_Some [-> _]%matchSharedFileName_Some. done.
Qed.

Lemma NoDup_storeFileKeys entries :
  NoDup (map fst entries) -> NoDup (omap storeFileKey entries).
Proof.
  induction entries as [|e l IH]; simpl; [constructor|].
  intros [Hn Hnd]%NoDup_cons. destruct (storeFileKey e) as [k|] eqn:Hk; [|by apply IH].
  apply NoDup_cons. split; [|by apply IH].
  intros (e' & Hin & Hk')%list_elem_of_omap. apply Hn.
  rewrite (storeFileKey_inj e e' k) by done. apply list_elem_of_fmap. by exists e'.
Qed.

Lemma length_storeFileKeys entries :
  length (omap storeFileKey entries) = length (List.filter isStoreFile entries).
Proof.
  induction entries as [|e l IH]; simpl; [done|].
  assert (isStoreFile e = match storeFileKey e with Some _ => true | None => false end) as ->
    by done.
  destruct (storeFileKey e); simpl; [f_equal|]; exact IH.
Qed.

(** [initLoop] returns when the files it takes can be read and decoded.
    The keys of the index are then those it had and those of the files,
    and what the index holds comes from where it started or from a file. *)
Lemma initLoop_Ok fs entries :
  NoDup (map fst (dirEntries fs)) -> entries ⊆ dirEntries fs -> storeFilesDecode entries ->
  forall st, exists st',
    initLoop fs st entries = Ok st'
    /\ dom (keyToInfo st') = dom (keyToInfo st) ∪ list_to_set (omap storeFileKey entries)
    /\ (forall k info, keyToInfo st' !! k = Some info ->
          keyToInfo st !! k = Some info
          \/ exists name decoded, storedFile entries name k decoded
                                  /\ info = entryOfFile name k decoded)
    /\ (forall h k, exactHashToKey st' !! h = Some k ->
          exactHashToKey st !! h = Some k
          \/ exists name decoded, storedFile entries name k decoded
                                  /\ h = hashPngPixels sha256 decoded)
    /\ (forall h, is_Some (exactHashToKey st !! h) -> is_Some (exactHashToKey st' !! h))
    /\ (forall name k decoded, storedFile entries name k decoded ->
          is_Some (exactHashToKey st' !! hashPngPixels sha256 decoded)).
Proof.
  intros Hnd. induction entries as [|[name node] rest IH]; intros Hsub Hdec st.
  - exists st. split; [done|]. split; [simpl; by rewrite (right_id_L ∅ (∪))|].
    split; [auto|]. split; [auto|]. split; [auto|].
    intros n k d (c & Hin & _). by apply elem_of_nil in Hin.
  - assert (rest ⊆ dirEntries fs) as Hsub'.
    { intros x Hx. apply Hsub. by right. }
    assert (storeFilesDecode rest) as Hdec'.
    { intros n c Hin. apply Hdec. by right. }
    assert (forall n k d, storedFile rest n k d -> storedFile ((name, node) :: rest) n k d) as Hmono.
    { intros n k d (c & Hin & Hm). exists c. split; [by right|done]. }
    simpl. destruct (storeFileKey (name, node)) as [k|] eqn:Hk.
    + unfold storeFileKey in Hk. simpl in Hk. destruct node as [content|]; [|done].
      destruct (Hdec name content) as [decoded Hd]; [by left| |].
      { unfold isStoreFile, storeFileKey. simpl. by rewrite Hk. }
      rewrite (initEntry_take fs st name content k decoded);
        [|done|apply Hsub; by left|done|done].
      simpl. 
      assert (storedFile ((name, FsFile content) :: rest) name k decoded) as Hhere.
      { exists content. split; [by left|done]. }
      edestruct IH as (st' & Hl & Hdom & Hinfo & Hhash & Hkeep & Hhas); [done|done|].
      exists st'. split; [exact Hl|]. split; [|split; [|split; [|split]]].
      * rewrite Hdom. simpl. rewrite dom_insert_L.
        by rewrite (comm_L (∪) {[k]}), (assoc_L (∪)).
      * intros k' info [Hold|(n & d & Hf & ->)]%Hinfo; [|right; eauto].
        simpl in Hold. rewrite lookup_insert in Hold. case_decide as Hkk.
        -- simpl in Hkk. subst k'. inversion Hold; subst. right. eauto.
        -- by left.
      * intros h k' [Hold|(n & d & Hf & ->)]%Hhash; [|right; eauto].
        simpl in Hold. rewrite lookup_insert in Hold. case_decide as Hhh.
        -- subst h. inversion Hold; subst. right. eauto.
        -- by left.
      * intros h Hs. apply Hkeep. simpl. rewrite lookup_insert_is_Some.
        destruct (decide (hashPngPixels sha256 decoded = h)); auto.
      * intros n k' d (c & [Heq|Hin]%elem_of_cons & Hm & Hd').
        -- inversion Heq; subst. assert (d = decoded) as -> by congruence.
           apply Hkeep. simpl. rewrite lookup_insert_eq. by eexists.
        -- apply (Hhas n k' d). by exists c.
    + rewrite initEntry_skip by done. simpl.
      destruct (IH Hsub' Hdec' st) as (st' & Hl & Hdom & Hinfo & Hhash & Hkeep & Hhas).
      exists st'. split; [exact Hl|]. split; [exact Hdom|]. split; [|split; [|split]].
      * intros k info [Hold|(n & d & Hf & ->)]%Hinfo; [by left|right; eauto].
      * intros h k [Hold|(n & d & Hf & ->)]%Hhash; [by left|right; eauto].
      * done.
      * intros n k d (c & [Heq|Hin]%elem_of_cons & Hm & Hd').
        -- inversion Heq; subst. unfold storeFileKey in Hk. simpl in Hk. congruence.
        -- apply (Hhas n k d). by exists c.
Qed.

Lemma init_Ok entries st st' :
  initLoop (Dir true entries) st entries = Ok st' ->
  init st (Dir true entries) = Ok (st', Dir true entries).
Proof. intros Hl. unfold init. simpl. by rewrite Hl. Qed.

Lemma entry_node_unique fs name node1 node2 :
  NoDup (map fst (dirEntries fs)) ->
  (name, node1) ∈ dirEntries fs -> (name, node2) ∈ dirEntries fs -> node1 = node2.
Proof.
  intros Hnd H1 H2. apply (lookupPath_entry fs) in H1, H2; [|done..]. congruence.
Qed.

(** C6. Rehydration of a readable directory whose entries have distinct
    names. When the [N] regular files named by the convention decode,
    [init] returns, whatever the other [M] entries are. The index built
    from an empty one then has exactly [N] entries, each entry is that
    of one of the [N] files, and no entry is for one of the [M] others. *)
Theorem init_rehydrates_matching_files entries :
  let fs := Dir true entries in
  NoDup (map fst (dirEntries fs)) ->
  storeFilesDecode (dirEntries fs) ->
  exists st,
    init newStore fs = Ok (st, fs)
    /\ size (keyToInfo st) = length (List.filter isStoreFile (dirEntries fs))
    /\ (forall k info, keyToInfo st !! k = Some info ->
          exists name decoded,
            storedFile (dirEntries fs) name k decoded /\ info = entryOfFile name k decoded)
    /\ (forall entry k info,
          entry ∈ dirEntries fs -> isStoreFile entry = false ->
          keyToInfo st !! k = Some info -> filePath info <> path_join sharedDir entry.1).
Proof.
  intros fs Hnd Hdec.
  destruct (initLoop_Ok fs (dirEntries fs) Hnd) with (st := newStore)
    as (st & Hl & Hdom & Hinfo & _); [done|done|].
  assert (forall k info, keyToInfo st !! k = Some info ->
            exists name decoded,
              storedFile (dirEntries fs) name k decoded /\ info = entryOfFile name k decoded)
    as Hinfo'.
  { intros k info [Hold|Hnew]%Hinfo; [|done]. simpl in Hold. by rewrite lookup_empty in Hold. }
  exists st. split; [by apply init_Ok|]. split; [|split; [done|]].
  - rewrite <- size_dom, Hdom. simpl. rewrite dom_empty_L, (left_id_L ∅ (∪)).
    rewrite size_list_to_set by (by apply NoDup_storeFileKeys).
    apply length_storeFileKeys.
  - intros [name node] k info Hin Hno Hk Hpath.
    apply Hinfo' in Hk as (name' & decoded & (content & Hin' & Hm & Hd) & ->).
    simpl in Hpath. apply path_join_inj in Hpath. subst name'.
    assert (node = FsFile content) as -> by (by eapply entry_node_unique).
    unfold isStoreFile, storeFileKey in Hno. simpl in Hno. by rewrite Hm in Hno.
Qed.

(** *** The search for a near-duplicate *)

Lemma ltb_le a b : String.ltb a b = true -> String.le a b.
Proof.
  unfold String.le, String.ltb, String.leb. by destruct (String.compare a b).
Qed.

Lemma ltb_false_le a b : String.ltb a b = false -> String.le b a.
Proof.
  unfold String.le, String.ltb, String.leb. rewrite (String.compare_antisym a b).
  by destruct (String.compare b a).
Qed.

Lemma scanStep_score st fs decoded allowed best k :
  scanStep st fs decoded allowed best k
  = score ← candidateScore st fs decoded allowed k; Ok (pickBest best k score).
Proof.
  unfold scanStep, candidateScore. destruct (keyToInfo st !! k) as [info|]; [|reflexivity].
  destruct (negb (info_width info =? width decoded) || negb (info_height info =? height decoded));
    [reflexivity|].
  destruct (readFile fs (filePath info)) as [buffer|]; [|reflexivity]. simpl.
  destruct (decodePng buffer) as [cd|]; [|reflexivity]. simpl.
  destruct (negb (width cd =? width decoded) || negb (height cd =? height decoded));
    [reflexivity|].
  destruct (countMismatchedPixels (data decoded) (data cd) allowed <=? allowed);
    [|reflexivity].
  simpl. unfold pickBest. by destruct (mm_ltb _ _ || _).
Qed.

Lemma scanCandidates_scores st fs decoded allowed score candidates :
  (forall k, k ∈ candidates -> candidateScore st fs decoded allowed k = Ok (score k)) ->
  forall best,
    scanCandidates st fs decoded allowed candidates best
    = Ok (foldl (fun b k => pickBest b k (score k)) best candidates).
Proof.
  induction candidates as [|k rest IH]; intros Hs best; simpl; [done|].
  rewrite scanStep_score, (Hs k) by (by left). simpl. apply IH.
  intros k' Hk'. apply Hs. by right.
Qed.

Lemma pickBest_BestOf score l best k :
  BestOf score l best -> BestOf score (l ++ [k]) (pickBest best k (score k)).
Proof.
  intros Hb. unfold pickBest. destruct (score k) as [m|] eqn:Hk.
  - destruct best as [[bk|] [bm|]]; simpl in *; try done.
    + destruct Hb as (Hin & Hsc & Hmin).
      destruct (m <? bm) eqn:Hlt; simpl.
      * apply Z.ltb_lt in Hlt. split; [set_solver|]. split; [done|].
        intros k' m' [Hk'| ->%list_elem_of_singleton]%elem_of_app Hs'.
        -- destruct (Hmin k' m' Hk' Hs') as [?|[-> ?]]; left; lia.
        -- assert (m' = m) as -> by congruence. right. done.
      * apply Z.ltb_ge in Hlt. destruct (m =? bm) eqn:Heq; simpl.
        -- apply Z.eqb_eq in Heq. subst bm. destruct (String.ltb k bk) eqn:Hkb.
           ++ apply ltb_le in Hkb. split; [set_solver|]. split; [done|].
              intros k' m' [Hk'| ->%list_elem_of_singleton]%elem_of_app Hs'.
              ** destruct (Hmin k' m' Hk' Hs') as [?|[-> ?]]; [by left|].
                 right. split; [done|]. by etrans.
              ** assert (m' = m) as -> by congruence. by right.
           ++ apply ltb_false_le in Hkb. split; [set_solver|]. split; [done|].
              intros k' m' [Hk'| ->%list_elem_of_singleton]%elem_of_app Hs'.
              ** by apply Hmin.
              ** assert (m' = m) as -> by congruence. by right.
        -- apply Z.eqb_neq in Heq. split; [set_solver|]. split; [done|].
           intros k' m' [Hk'| ->%list_elem_of_singleton]%elem_of_app Hs'.
           ++ by apply Hmin.
           ++ assert (m' = m) as -> by congruence. left. lia.
    + split; [set_solver|]. split; [done|].
      intros k' m' [Hk'| ->%list_elem_of_singleton]%elem_of_app Hs'.
      * rewrite (Hb k' Hk') in Hs'. done.
      * assert (m' = m) as -> by congruence. by right.
  - destruct best as [[bk|] [bm|]]; simpl in *; try done.
    + destruct Hb as (Hin & Hsc & Hmin). split; [set_solver|]. split; [done|].
      intros k' m' [Hk'| ->%list_elem_of_singleton]%elem_of_app Hs'; [by apply Hmin|congruence].
    + intros k' [Hk'| ->%list_elem_of_singleton]%elem_of_app; [by apply Hb|done].
Qed.

Lemma foldl_pickBest_BestOf score l2 : forall l1 best,
  BestOf score l1 best ->
  BestOf score (l1 ++ l2) (foldl (fun b k => pickBest b k (score k)) best l2).
Proof.
  induction l2 as [|k l2 IH]; intros l1 best Hb; simpl.
  - by rewrite app_nil_r.
  - replace (l1 ++ k :: l2) with ((l1 ++ [k]) ++ l2) by (by rewrite <- app_assoc).
    apply IH. by apply pickBest_BestOf.
Qed.

Lemma BestOf_unique score l1 l2 best1 best2 :
  l1 ≡ₚ l2 -> BestOf score l1 best1 -> BestOf score l2 best2 -> best1 = best2.
Proof.
  intros Hp H1 H2.
  destruct best1 as [[k1|] [m1|]], best2 as [[k2|] [m2|]]; simpl in *; try done.
  - destruct H1 as (Hin1 & Hs1 & Hmin1), H2 as (Hin2 & Hs2 & Hmin2).
    rewrite Hp in Hin1. rewrite <- Hp in Hin2.
    destruct (Hmin1 k2 m2 Hin2 Hs2) as [?|[Hm Hle1]], (Hmin2 k1 m1 Hin1 Hs1) as [?|[? Hle2]];
      try lia.
    subst m2. by rewrite (anti_symm String.le k1 k2 Hle1 Hle2).
  - destruct H1 as (Hin1 & Hs1 & _). rewrite Hp in Hin1. by rewrite (H2 k1 Hin1) in Hs1.
  - destruct H2 as (Hin2 & Hs2 & _). rewrite <- Hp in Hin2. by rewrite (H1 k2 Hin2) in Hs2.
Qed.

(** The scan of a bucket whose candidates all load gives the least
    candidate, whatever the order of the bucket. *)
Lemma scanCandidates_best st fs decoded allowed score candidates :
  (forall k, k ∈ candidates -> candidateScore st fs decoded allowed k = Ok (score k)) ->
  exists best,
    scanCandidates st fs decoded allowed candidates (None, PosInfinity) = Ok best
    /\ BestOf score candidates best.
Proof.
  intros Hs. eexists. split; [by apply scanCandidates_scores|].
  apply (foldl_pickBest_BestOf score candidates [] (None, PosInfinity)).
  intros k Hk. by apply elem_of_nil in Hk.
Qed.

(** *** The comparator *)

Lemma mismatchesFrom_nonneg a b n i : 0 <= mismatchesFrom a b n i.
Proof.
  revert i. induction n as [|n IH]; intros i; simpl; [lia|].
  specialize (IH (i + 4)). destruct (pixelMismatch a b i); lia.
Qed.

(** The loop stops early only above the budget: within the budget it
    counts every mismatch, and above it the count it returns is above. *)
Lemma countLoop_spec a b allowed n : forall i m,
  (m + mismatchesFrom a b n i <= allowed ->
   countLoop a b allowed n i m = m + mismatchesFrom a b n i)
  /\ (allowed < m + mismatchesFrom a b n i -> allowed < countLoop a b allowed n i m).
Proof.
  induction n as [|n IH]; intros i m; simpl.
  - split; lia.
  - pose proof (mismatchesFrom_nonneg a b n (i + 4)) as Hpos.
    destruct (pixelMismatch a b i).
    + destruct (allowed <? m + 1) eqn:Hlt.
      * apply Z.ltb_lt in Hlt. split; lia.
      * apply Z.ltb_ge in Hlt. destruct (IH (i + 4) (m + 1)) as [IH1 IH2].
        split; intros H; [rewrite IH1|apply IH2]; lia.
    + destruct (IH (i + 4) m) as [IH1 IH2].
      split; intros H; [rewrite IH1|apply IH2]; lia.
Qed.

Lemma countMismatchedPixels_within a b allowed :
  length a = length b -> totalMismatches a b <= allowed ->
  countMismatchedPixels a b allowed = totalMismatches a b.
Proof.
  intros Hlen Htot. unfold countMismatchedPixels.
  assert ((length a =? length b)%nat = true) as -> by (by apply Nat.eqb_eq). cbn [negb].
  destruct (countLoop_spec a b allowed ((length a + 3) / 4)%nat 0 0) as [H _].
  rewrite H; unfold totalMismatches in *; lia.
Qed.

Lemma countMismatchedPixels_above a b allowed :
  length a = length b -> allowed < totalMismatches a b ->
  allowed < countMismatchedPixels a b allowed.
Proof.
  intros Hlen Htot. unfold countMismatchedPixels.
  assert ((length a =? length b)%nat = true) as -> by (by apply Nat.eqb_eq). cbn [negb].
  destruct (countLoop_spec a b allowed ((length a + 3) / 4)%nat 0 0) as [_ H].
  apply H. unfold totalMismatches in *. lia.
Qed.

(** *** Collapsing onto the best candidate *)

Lemma scanCandidates_keyToInfo st1 st2 fs decoded allowed candidates :
  keyToInfo st1 = keyToInfo st2 ->
  forall best,
    scanCandidates st1 fs decoded allowed candidates best
    = scanCandidates st2 fs decoded allowed candidates best.
Proof.
  intros Heq. induction candidates as [|k rest IH]; intros best; simpl; [done|].
  assert (scanStep st1 fs decoded allowed best k = scanStep st2 fs decoded allowed best k) as ->.
  { unfold scanStep. by rewrite Heq. }
  destruct (scanStep st2 fs decoded allowed best k); simpl; [apply IH|done].
Qed.

(** [register] on a digest the index does not know, with a bucket whose
    candidates all load: it collapses onto the least candidate, if there
    is one, and stores the bitmap as new if there is none. *)
Lemma register_search st fs buffer decoded candidates score best :
  pngRead buffer = Some decoded ->
  infoOfKey st (exactHashToKey st !! hashPngPixels sha256 decoded) = None ->
  default [] (bucketToKeys st !! bucketKey (width decoded) (height decoded)
                                  (computeFingerprint sha256 decoded)) = candidates ->
  (forall k, k ∈ candidates ->
     candidateScore st fs decoded (allowedMismatches (width decoded) (height decoded)) k
     = Ok (score k)) ->
  BestOf score candidates best ->
  register st fs buffer
  = match best.1 with
    | Some bestKey =>
        match infoOfKey st (Some bestKey) with
        | Some info =>
            Ok (refOf info, addAlias st (hashPngPixels sha256 decoded) bestKey, fs)
        | None =>
            registerNew st fs buffer decoded (hashPngPixels sha256 decoded)
              (computeFingerprint sha256 decoded)
              (bucketKey (width decoded) (height decoded) (computeFingerprint sha256 decoded))
        end
    | None =>
        registerNew st fs buffer decoded (hashPngPixels sha256 decoded)
          (computeFingerprint sha256 decoded)
          (bucketKey (width decoded) (height decoded) (computeFingerprint sha256 decoded))
    end.
Proof.
  intros Hd Hmiss Hc Hs Hb. unfold register, decodePng. rewrite Hd. simpl.
  rewrite Hmiss, Hc.
  destruct (scanCandidates_best st fs decoded _ score candidates Hs) as (best' & -> & Hb').
  simpl. by rewrite (BestOf_unique score candidates candidates best' best).
Qed.

(** *** Writing the file of a new bitmap *)

Lemma append_assoc (s1 s2 s3 : string) : (s1 +:+ s2) +:+ s3 = s1 +:+ (s2 +:+ s3).
Proof.
  induction s1 as [|c s1 IH]; [done|].
  change (String c ((s1 +:+ s2) +:+ s3) = String c (s1 +:+ (s2 +:+ s3))). by rewrite IH.
Qed.

Lemma lookupPath_mkdir fs p : lookupPath (mkdir fs) p = lookupPath fs p.
Proof. by destruct fs. Qed.

Lemma writeFileSafe_new fs name buffer :
  exists_ fs (path_join sharedDir name) = false ->
  writeFileSafe fs (path_join sharedDir name) buffer = Ok (withNewFile fs name buffer).
Proof.
  unfold exists_, writeFileSafe, withNewFile. intros Hex.
  unfold path_join at 1. rewrite <- append_assoc, stripPrefix_app.
  fold (path_join sharedDir name). rewrite lookupPath_mkdir.
  destruct (lookupPath fs (path_join sharedDir name)); [done|]. by destruct fs.
Qed.

Lemma registerNew_result st fs buffer decoded h fp bk :
  registerNew st fs buffer decoded h fp bk
  = Ok (refOf (ownInfo decoded h fp), insertEntry st (ownInfo decoded h fp) h bk,
        if exists_ fs (path_join sharedDir (ownFileName h)) then fs
        else withNewFile fs (ownFileName h) buffer).
Proof.
  unfold registerNew. fold (ownFileName h).
  destruct (exists_ fs (path_join sharedDir (ownFileName h))) eqn:Hex; simpl; [done|].
  by rewrite writeFileSafe_new.
Qed.

Lemma setBucket_id st bk l : bucketToKeys st !! bk = Some l -> setBucket st bk l = st.
Proof. intros H. destruct st. unfold setBucket. simpl in *. by rewrite insert_id. Qed.

(** C3. A registration that reaches the search (the digest is not
    known) and whose candidates all load: when [k1] has the least
    mismatch count [m] of the bucket, within the budget, and is the
    smallest key of the candidates that have this count, [register]
    collapses onto [k1], and it does so for every order of the bucket
    list. Candidates that tie on the count are told apart by their keys
    alone. *)
Theorem register_tie_break st fs buffer decoded candidates candidates' score k1 m info :
  let h := hashPngPixels sha256 decoded in
  let bk := bucketKey (width decoded) (height decoded) (computeFingerprint sha256 decoded) in
  let allowed := allowedMismatches (width decoded) (height decoded) in
  pngRead buffer = Some decoded ->
  infoOfKey st (exactHashToKey st !! h) = None ->
  bucketToKeys st !! bk = Some candidates ->
  (forall k, k ∈ candidates -> candidateScore st fs decoded allowed k = Ok (score k)) ->
  k1 ∈ candidates -> score k1 = Some m -> keyToInfo st !! k1 = Some info -> k1 <> "" ->
  (forall k m', k ∈ candidates -> score k = Some m' -> m <= m') ->
  (forall k, k ∈ candidates -> score k = Some m -> String.le k1 k) ->
  candidates' ≡ₚ candidates ->
  register st fs buffer = Ok (refOf info, addAlias st h k1, fs)
  /\ register (setBucket st bk candidates') fs buffer
     = Ok (refOf info, addAlias (setBucket st bk candidates') h k1, fs).
Proof.
  intros h bk allowed. subst h bk allowed.
  intros Hd Hmiss Hbk Hs Hk1 Hm Hinfo Hne Hmin Hle Hperm.
  assert (BestOf score candidates (Some k1, Finite m)) as Hbest.
  { split; [done|]. split; [done|]. intros k' m' Hk' Hs'.
    pose proof (Hmin k' m' Hk' Hs') as Hmm.
    apply Z.le_lteq in Hmm as [Hlt|Heq]; [by left|].
    subst m'. right. split; [done|]. by apply Hle. }
  assert (infoOfKey st (Some k1) = Some info) as Hi.
  { simpl. unfold truthy. by destruct (String.eqb_spec k1 ""). }
  split.
  - rewrite (register_search st fs buffer decoded candidates score (Some k1, Finite m));
      [|done|done|by rewrite Hbk|done|done].
    cbn [fst]. by rewrite Hi.
  - rewrite (register_search _ fs buffer decoded candidates' score (Some k1, Finite m)).
    + cbn [fst]. change (infoOfKey (setBucket st ?b candidates') (Some k1))
        with (infoOfKey st (Some k1)). by rewrite Hi.
    + done.
    + done.
    + simpl. by rewrite lookup_insert_eq.
    + intros k Hk. rewrite Hperm in Hk. by apply Hs.
    + destruct Hbest as (? & ? & Hmin'). split; [by rewrite Hperm|]. split; [done|].
      intros k' m' Hk'. rewrite Hperm in Hk'. by apply Hmin'.
Qed.


(** C2 (amended). Two buffers that decode to the same bitmap, registered
    one after the other: both calls return the same reference, the
    second writes nothing and leaves the index as it is, and the first
    writes at most one file, the one named by the digest with the bytes
    of the first buffer. A store made on an empty directory writes
    exactly this one file. *)
Theorem exact_duplicates_share_reference st fs b1 b2 decoded r st1 fs1 :
  pngRead b1 = Some decoded -> pngRead b2 = Some decoded ->
  register st fs b1 = Ok (r, st1, fs1) ->
  register st1 fs1 b2 = Ok (r, st1, fs1)
  /\ (fs1 = fs
      \/ (exists_ fs (path_join sharedDir (ownFileName (hashPngPixels sha256 decoded))) = false
          /\ fs1 = withNewFile fs (ownFileName (hashPngPixels sha256 decoded)) b1))
  /\ (st = newStore -> dirEntries fs = [] ->
      dirEntries fs1 = [(ownFileName (hashPngPixels sha256 decoded), FsFile b1)]).
Proof.
  intros Hd1 Hd2 H. split; [by apply (register_again st fs b1 b2 decoded)|].
  apply register_paths in H as (d & Hd & Hp). assert (d = decoded) as -> by congruence.
  destruct Hp as [info Hi Ho | bestKey info Hmiss Hi Ho | fs' Hmiss Hw Ho]; inversion Ho; subst.
  - split; [by left|]. intros -> _. simpl in Hi. by rewrite lookup_empty in Hi.
  - split; [by left|]. intros -> _. simpl in Hi.
    destruct (truthy bestKey); [|done]. by rewrite lookup_empty in Hi.
  - change (filePath (ownInfo decoded (hashPngPixels sha256 decoded)
                        (computeFingerprint sha256 decoded)))
      with (path_join sharedDir (ownFileName (hashPngPixels sha256 decoded))) in Hw.
    destruct (exists_ fs (path_join sharedDir (ownFileName (hashPngPixels sha256 decoded))))
      eqn:Hex.
    + inversion Hw; subst. split; [by left|]. intros _ Hempty.
      unfold exists_, lookupPath in Hex. by rewrite Hempty in Hex.
    + rewrite writeFileSafe_new in Hw by done. inversion Hw; subst.
      split; [by right|]. intros _ Hempty. simpl. by rewrite Hempty.
Qed.

(** C4 (amended). [register] called again with the same bytes returns
    the same reference and changes nothing. Across a rehydration the
    reference is the same when the first call returned the reference of
    the bitmap's own entry (its key is the prefix and the digest) and
    the file of this entry is in the directory, in a directory that is
    content-addressed, has distinct names and files that decode; the
    listing may come in any order. *)
Theorem register_idempotent st fs buffer decoded r st1 fs1 :
  pngRead buffer = Some decoded ->
  register st fs buffer = Ok (r, st1, fs1) ->
  register st1 fs1 buffer = Ok (r, st1, fs1)
  /\ (forall entries content,
        entries ≡ₚ dirEntries fs1 ->
        NoDup (map fst entries) -> storeFilesDecode entries -> contentAddressed entries ->
        isHex64 (hashPngPixels sha256 decoded) ->
        r = refOf (ownInfo decoded (hashPngPixels sha256 decoded)
                     (computeFingerprint sha256 decoded)) ->
        (ownFileName (hashPngPixels sha256 decoded), FsFile content) ∈ entries ->
        exists st2,
          init newStore (Dir true entries) = Ok (st2, Dir true entries)
          /\ register st2 (Dir true entries) buffer = Ok (r, st2, Dir true entries)).
Proof.
  intros Hd H. split; [by apply (register_again st fs buffer buffer decoded)|].
  intros entries content _ Hnd Hdec Hca Hhex -> Hfile.
  set (h := hashPngPixels sha256 decoded) in *.
  destruct (initLoop_Ok (Dir true entries) entries Hnd) with (st := newStore)
    as (st2 & Hl & Hdom & Hinfo & Hhash & _ & Hhas); [done|done|].
  exists st2. split; [by apply init_Ok|].
  assert (matchSharedFileName (ownFileName h) = Some (SHARED_TEXTURE_PREFIX +:+ h)) as Hm
    by (by apply matchSharedFileName_own).
  destruct (Hdec (ownFileName h) content Hfile) as [d0 Hd0].
  { unfold isStoreFile, storeFileKey. simpl. by rewrite Hm. }
  assert (storedFile entries (ownFileName h) (SHARED_TEXTURE_PREFIX +:+ h) d0) as Hsf
    by (by exists content).
  assert (hashPngPixels sha256 d0 = h) as Hh0.
  { apply Hca in Hsf. by apply (inj (String.app SHARED_TEXTURE_PREFIX)) in Hsf. }
  destruct (Hhas _ _ _ Hsf) as [k' Hk']. rewrite Hh0 in Hk'.
  assert (k' = SHARED_TEXTURE_PREFIX +:+ h) as ->.
  { destruct (Hhash h k' Hk') as [Hold|(n' & d' & Hsf' & ->)].
    - simpl in Hold. by rewrite lookup_empty in Hold.
    - by apply Hca in Hsf'. }
  assert (is_Some (keyToInfo st2 !! (SHARED_TEXTURE_PREFIX +:+ h))) as [info' Hi'].
  { apply elem_of_dom. rewrite Hdom. apply elem_of_union_r, elem_of_list_to_set.
    apply list_elem_of_omap. exists (ownFileName h, FsFile content). split; [done|].
    unfold storeFileKey. simpl. exact Hm. }
  assert (refOf info' = refOf (ownInfo decoded h (computeFingerprint sha256 decoded))) as <-.
  { destruct (Hinfo _ _ Hi') as [Hold|(n' & d' & (c' & _ & Hm' & _) & ->)].
    - simpl in Hold. by rewrite lookup_empty in Hold.
    - apply matchSharedFileName_Some in Hm' as [-> _]. done. }
  apply (register_exact _ _ _ decoded); [done|]. fold h. by rewrite Hk'.
Qed.

(** *** Pruning *)

Lemma foldl_add_keys (l : list string) : forall (acc : gset string) k,
  k ∈ foldl (fun s k' => {[k']} ∪ s) acc l <-> k ∈ acc \/ k ∈ l.
Proof.
  induction l as [|x l IH]; intros acc k; simpl.
  - rewrite elem_of_nil. tauto.
  - rewrite IH, elem_of_union, elem_of_singleton, elem_of_cons. tauto.
Qed.

Lemma foldl_used_keys (docs : list (string * string)) : forall (acc : gset string) k,
  k ∈ foldl (fun usedKeys uiFile =>
               foldl (fun s k' => {[k']} ∪ s) usedKeys (matchAll 0 uiFile.2)) acc docs
  <-> k ∈ acc \/ exists doc, doc ∈ docs /\ k ∈ matchAll 0 doc.2.
Proof.
  induction docs as [|d docs IH]; intros acc k; simpl.
  - split; [auto|]. intros [?|(doc & Hin & _)]; [done|]. by apply elem_of_nil in Hin.
  - rewrite IH, foldl_add_keys. split.
    + intros [[?|?]|(doc & Hin & Hk)]; [by left| |].
      * right. exists d. split; [by left|done].
      * right. exists doc. split; [by right|done].
    + intros [?|(doc & [->|Hin]%elem_of_cons & Hk)]; [by left; left|by left; right|].
      right. by exists doc.
Qed.

(** The keys [prune] holds as used are those matched in a [.ui] file. *)
Lemma collectUsedKeys_spec files k :
  k ∈ collectUsedKeys files
  <-> exists path text, (path, text) ∈ files /\ endsWith path ".ui" = true
                        /\ k ∈ matchAll 0 text.
Proof.
  unfold collectUsedKeys. rewrite foldl_used_keys. split.
  - intros [Hk|([path text] & Hin & Hk)]; [by apply not_elem_of_empty in Hk|].
    apply list_elem_of_In, filter_In in Hin as [Hin Hui].
    exists path, text. split; [by apply list_elem_of_In|done].
  - intros (path & text & Hin & Hui & Hk). right. exists (path, text). split; [|done].
    apply list_elem_of_In, filter_In. split; [by apply list_elem_of_In|done].
Qed.

Lemma matchReference_Some s k :
  matchReference s = Some k -> exists rest, s = texturePathForKey k +:+ rest.
Proof.
  unfold matchReference, texturePathForKey. intros H.
  destruct (stripPrefix _ s) as [s1|] eqn:H1; [|done].
  destruct (matchKey s1) as [[k' s2]|] eqn:H2; [|done].
  destruct (stripPrefix ".png" s2) as [s3|] eqn:H3; [|done].
  inversion H; subst. apply stripPrefix_Some in H1 as ->, H3 as ->.
  apply matchKey_Some in H2 as [-> _]. exists s3. by rewrite !append_assoc.
Qed.

Lemma texturePathForKey_split k rest :
  texturePathForKey k +:+ rest
  = (namespace +:+ "/" +:+ SHARED_TEXTURES_DIR +:+ "/") +:+ k +:+ ".png" +:+ rest.
Proof. unfold texturePathForKey. by rewrite !append_assoc. Qed.

Lemma matchReference_own h rest :
  isHex64 h ->
  matchReference (texturePathForKey (SHARED_TEXTURE_PREFIX +:+ h) +:+ rest)
  = Some (SHARED_TEXTURE_PREFIX +:+ h).
Proof.
  intros Hh. unfold matchReference.
  rewrite texturePathForKey_split, stripPrefix_app.
  rewrite matchKey_own by done.
  by rewrite stripPrefix_app.
Qed.

Lemma referenceAt_head s k : referenceAt s 0 k <-> matchReference s = Some k.
Proof.
  split.
  - intros (before & rest & h & -> & Hlen & -> & Hh).
    destruct before; [|done]. by apply matchReference_own.
  - unfold matchReference. intros H.
    destruct (stripPrefix _ s) as [s1|] eqn:H1; [|done].
    destruct (matchKey s1) as [[k' s2]|] eqn:H2; [|done].
    destruct (stripPrefix ".png" s2) as [s3|] eqn:H3; [|done].
    inversion H; subst. apply stripPrefix_Some in H1 as ->, H3 as ->.
    apply matchKey_Some in H2 as [-> (h & -> & Hh)].
    exists "", s3, h. split; [|done].
    change ("" +:+ ?x) with x. by rewrite texturePathForKey_split, append_assoc.
Qed.

Lemma referenceAt_tail c s p k : referenceAt (String c s) (S p) k <-> referenceAt s p k.
Proof.
  split.
  - intros (before & rest & h & Heq & Hlen & Hk & Hh).
    destruct before as [|c' before]; [done|].
    inversion Heq; subst c'. exists before, rest, h. split; [done|].
    split; [by inversion Hlen|done].
  - intros (before & rest & h & -> & <- & Hk & Hh).
    by exists (String c before), rest, h.
Qed.

Lemma referenceAt_empty p k : ~ referenceAt "" p k.
Proof.
  intros (before & rest & h & Heq & _ & -> & _).
  rewrite texturePathForKey_split in Heq.
  destruct before; [|done]. destruct namespace; done.
Qed.

(** A reference written in the text is matched, unless a reference
    written before it runs over its first character. *)
Lemma matchAll_finds text : forall skip p k,
  referenceAt text p k -> (skip <= p)%nat ->
  (forall i k', referenceAt text i k' -> (skip <= i < p)%nat -> (i + referenceLength <= p)%nat) ->
  k ∈ matchAll skip text.
Proof.
  induction text as [|c text IH]; intros skip p k Hat Hskip Hfree.
  - by apply referenceAt_empty in Hat.
  - cbn [matchAll]. destruct skip as [|skip].
    + destruct p as [|p].
      * apply referenceAt_head in Hat. rewrite Hat. apply list_elem_of_here.
      * assert (forall skip', (skip' <= p)%nat ->
                  (forall i k', referenceAt text i k' -> (skip' <= i < p)%nat ->
                                (S i + referenceLength <= S p)%nat) ->
                  k ∈ matchAll skip' text) as Hrec.
        { intros skip' Hle Hfree'. apply (IH skip' p); [by apply referenceAt_tail in Hat|done|].
          intros i k' Hi Hrange. specialize (Hfree' i k' Hi Hrange). lia. }
        destruct (matchReference (String c text)) as [k'|] eqn:Hm.
        -- apply list_elem_of_further.
           apply referenceAt_head in Hm.
           pose proof (Hfree 0%nat k' Hm ltac:(lia)) as Hlen.
           apply Hrec; [lia|].
           intros i k'' Hi Hrange. apply (Hfree (S i) k''); [by apply referenceAt_tail|lia].
        -- apply Hrec; [lia|].
           intros i k'' Hi Hrange. apply (Hfree (S i) k''); [by apply referenceAt_tail|lia].
    + destruct p as [|p]; [lia|].
      apply (IH skip p); [by apply referenceAt_tail in Hat|lia|].
      intros i k' Hi Hrange.
      pose proof (Hfree (S i) k' ltac:(by apply referenceAt_tail) ltac:(lia)). lia.
Qed.

(** A key that [matchAll] gives is written in the text, as the
    reference path of the key. *)
Lemma matchAll_written text : forall skip k,
  k ∈ matchAll skip text -> exists p, referenceAt text p k.
Proof.
  induction text as [|c text IH]; intros skip k; cbn [matchAll].
  - intros H. by apply elem_of_nil in H.
  - assert (forall skip', k ∈ matchAll skip' text -> exists p, referenceAt (String c text) p k)
      as Hlater.
    { intros skip' [p Hp]%IH. exists (S p). by apply referenceAt_tail. }
    destruct skip as [|skip]; [|apply Hlater].
    destruct (matchReference (String c text)) as [k'|] eqn:Hm; [|apply Hlater].
    intros [->|Hk]%elem_of_cons; [|by eapply Hlater].
    exists 0%nat. by apply referenceAt_head.
Qed.

Lemma pruneEntry_unused usedKeys acc entry :
  pruneEntry usedKeys acc entry
  = if unused usedKeys entry then (rm acc.1 (path_join sharedDir entry.1), acc.2 + 1)
    else acc.
Proof.
  unfold pruneEntry, unused, storeFileKey. destruct (entry.2); [|done].
  destruct (matchSharedFileName entry.1); [|done]. by destruct (bool_decide _).
Qed.

Lemma filter_other_names (l : list (string * FsNode)) name :
  name ∉ map fst l ->
  List.filter (fun e => negb (atPath (path_join sharedDir name) e)) l = l.
Proof.
  induction l as [|e l IH]; simpl; [done|]. intros Hn.
  apply not_elem_of_cons in Hn as [Hne Hn].
  destruct (atPath (path_join sharedDir name) e) eqn:Hat.
  - apply atPath_true, path_join_inj in Hat. by subst.
  - simpl. by rewrite IH.
Qed.

Lemma rm_entry readable l1 entry l2 :
  NoDup (map fst (l1 ++ entry :: l2)) ->
  rm (Dir readable (l1 ++ entry :: l2)) (path_join sharedDir entry.1)
  = Dir readable (l1 ++ l2).
Proof.
  intros Hnd. simpl. f_equal. rewrite map_app in Hnd. simpl in Hnd.
  apply NoDup_app in Hnd as (_ & Hdisj & [Hn2 _]%NoDup_cons).
  rewrite List.filter_app. simpl.
  assert (atPath (path_join sharedDir entry.1) entry = true) as -> by (by apply atPath_true).
  simpl. rewrite !filter_other_names; [done|done|].
  intros Hin. apply (Hdisj _ Hin). by left.
Qed.

Lemma foldl_pruneEntry usedKeys readable l2 : forall l1 n,
  NoDup (map fst (l1 ++ l2)) ->
  foldl (pruneEntry usedKeys) (Dir readable (l1 ++ l2), n) l2
  = (Dir readable (l1 ++ List.filter (fun e => negb (unused usedKeys e)) l2),
     n + Z.of_nat (length (List.filter (unused usedKeys) l2))).
Proof.
  induction l2 as [|entry l2 IH]; intros l1 n Hnd.
  - simpl. f_equal. lia.
  - cbn [foldl List.filter]. rewrite pruneEntry_unused. cbn [fst snd].
    destruct (unused usedKeys entry) eqn:Hu; cbn [negb length].
    + rewrite rm_entry by done. rewrite IH.
      * f_equal. lia.
      * rewrite map_app in *. simpl in Hnd.
        apply NoDup_app in Hnd as (H1 & Hd & [_ H2]%NoDup_cons).
        apply NoDup_app. split; [done|]. split; [|done].
        intros x Hx Hx2. apply (Hd x Hx). by right.
    + replace (l1 ++ entry :: l2) with ((l1 ++ [entry]) ++ l2) in * by (by rewrite <- app_assoc).
      rewrite IH by done. by rewrite <- app_assoc.
Qed.

(** C7. [prune] on a readable directory with distinct names, [R] being
    the keys matched by the reference pattern in the [.ui] documents and
    [P] the keys of the regular files named by the convention: the
    entries deleted are exactly the files whose key is in [P] and not in
    [R], every other entry stays, in place; [deleted] is their number.
    Every key of [R] is written in a [.ui] document as its reference
    path, and a key written so is in [R], unless a reference written
    before it in the text runs over its first character (the pattern is
    matched from left to right, a match starting after the end of the
    one before). *)
Theorem prune_deletes_exactly_unreferenced files entries :
  let R := collectUsedKeys files in
  let kept := List.filter (fun e => negb (unused R e)) entries in
  NoDup (map fst entries) ->
  pruneUnusedSharedTextures files (Dir true entries)
  = Ok (Dir true kept, Z.of_nat (length (List.filter (unused R) entries)))
  /\ (forall entry, entry ∈ entries ->
        (entry ∉ kept <-> exists k, storeFileKey entry = Some k /\ k ∉ R))
  /\ (forall entry k, entry ∈ entries -> storeFileKey entry = Some k -> k ∈ R -> entry ∈ kept)
  /\ (forall k, k ∈ R ->
        exists path text p,
          (path, text) ∈ files /\ endsWith path ".ui" = true /\ referenceAt text p k)
  /\ (forall path text p k,
        (path, text) ∈ files -> endsWith path ".ui" = true -> referenceAt text p k ->
        (forall i k', referenceAt text i k' -> (i < p)%nat -> (i + referenceLength <= p)%nat) ->
        k ∈ R).
Proof.
  intros R kept Hnd.
  assert (forall entry, entry ∈ entries -> (entry ∈ kept <-> unused R entry = false)) as Hkept.
  { intros entry Hin. unfold kept. rewrite list_elem_of_In, filter_In, <- list_elem_of_In.
    rewrite negb_true_iff. tauto. }
  split; [|split; [|split; [|split]]].
  - pose proof (foldl_pruneEntry (collectUsedKeys files) true entries [] 0 Hnd) as Hf.
    cbn [app] in Hf. unfold pruneUnusedSharedTextures. simpl. by rewrite Hf.
  - intros entry Hin. rewrite (Hkept entry Hin). unfold unused.
    destruct (storeFileKey entry) as [k|].
    + destruct (bool_decide_reflect (k ∈ R)) as [Hk|Hk]; simpl.
      * split; [done|]. by intros (k' & [= <-] & Hn).
      * split; [|done]. intros _. by exists k.
    + split; [done|]. by intros (k & ? & _).
  - intros entry k Hin Hk HR. apply (Hkept entry Hin). unfold unused.
    rewrite Hk. by rewrite bool_decide_true.
  - intros k (path & text & Hin & Hui & Hk)%collectUsedKeys_spec.
    apply matchAll_written in Hk as [p Hp]. by exists path, text, p.
  - intros path text p k Hin Hui Hat Hfree. apply collectUsedKeys_spec.
    exists path, text. split; [done|]. split; [done|].
    apply (matchAll_finds text 0%nat p k Hat); [lia|].
    intros i k' Hi [_ Hlt]. by apply (Hfree i k').
Qed.


(** *** The comparator, further *)

Lemma abs_sub_comm x y : Z.abs (x - y) = Z.abs (y - x).
Proof. lia. Qed.

Lemma pixelMismatch_sym a b i : pixelMismatch a b i = pixelMismatch b a i.
Proof.
  unfold pixelMismatch. cbv zeta.
  rewrite (andb_comm (byteAt a (i + 3) <=? _)).
  destruct (_ && _); [done|].
  rewrite (abs_sub_comm (roundDiv (byteAt a i * _) 255)),
    (abs_sub_comm (roundDiv (byteAt a (i + 1) * _) 255)),
    (abs_sub_comm (roundDiv (byteAt a (i + 2) * _) 255)),
    (abs_sub_comm (byteAt a (i + 3))).
  done.
Qed.

Lemma countLoop_sym a b allowed n : forall i m,
  countLoop a b allowed n i m = countLoop b a allowed n i m.
Proof.
  induction n as [|n IH]; intros i m; cbn [countLoop]; [done|].
  rewrite (pixelMismatch_sym a b). by rewrite !IH.
Qed.

(** X1. The comparison does not depend on which buffer comes first. *)
Theorem comparator_symmetric a b allowed :
  countMismatchedPixels a b allowed = countMismatchedPixels b a allowed.
Proof.
  unfold countMismatchedPixels. rewrite (Nat.eqb_sym (length b)).
  destruct (Nat.eqb_spec (length a) (length b)) as [Hlen|]; cbn [negb]; [|done].
  rewrite Hlen. apply countLoop_sym.
Qed.

Lemma countLoop_bound a b allowed n : forall i m,
  m <= allowed -> countLoop a b allowed n i m <= allowed + 1.
Proof.
  induction n as [|n IH]; intros i m Hm; cbn [countLoop]; [lia|].
  destruct (pixelMismatch a b i); [|by apply IH].
  destruct (Z.ltb_spec allowed (m + 1)); [lia|]. apply IH. lia.
Qed.

(** X2. The early return of the comparator never changes the verdict:
    the count is within the budget exactly when the buffers have the
    same length and the pixels that mismatch, all counted, are within
    the budget, and the count is then their number. With a budget that
    is not negative the count never exceeds the budget by more than one. *)
Theorem comparator_decides_budget a b allowed :
  (countMismatchedPixels a b allowed <= allowed
   <-> length a = length b /\ totalMismatches a b <= allowed)
  /\ (countMismatchedPixels a b allowed <= allowed ->
      countMismatchedPixels a b allowed = totalMismatches a b)
  /\ (0 <= allowed -> countMismatchedPixels a b allowed <= allowed + 1).
Proof.
  assert (countMismatchedPixels a b allowed <= allowed ->
          length a = length b /\ totalMismatches a b <= allowed) as Hwithin.
  { intros Hle. destruct (Nat.eq_dec (length a) (length b)) as [Hlen|Hlen].
    - split; [done|]. destruct (Z_le_gt_dec (totalMismatches a b) allowed); [done|].
      pose proof (countMismatchedPixels_above a b allowed Hlen). lia.
    - unfold countMismatchedPixels in Hle.
      apply Nat.eqb_neq in Hlen. rewrite Hlen in Hle. cbn [negb] in Hle. lia. }
  split; [|split].
  - split; [done|]. intros [Hlen Htot].
    by rewrite countMismatchedPixels_within.
  - intros [Hlen Htot]%Hwithin. by apply countMismatchedPixels_within.
  - intros Hallowed. unfold countMismatchedPixels.
    destruct (negb _); [lia|]. by apply countLoop_bound.
Qed.

(** The pixel at byte offset [i] is the same in both buffers. *)
Lemma pixelMismatch_same a b i :
  byteAt a i = byteAt b i -> byteAt a (i + 1) = byteAt b (i + 1)
  -> byteAt a (i + 2) = byteAt b (i + 2) -> byteAt a (i + 3) = byteAt b (i + 3)
  -> pixelMismatch a b i = false.
Proof.
  intros H0 H1 H2 H3. unfold pixelMismatch. cbv zeta. rewrite H0, H1, H2, H3.
  destruct (_ && _); [done|]. rewrite !Z.sub_diag. done.
Qed.

Lemma pixelMismatch_invisible a b i :
  byteAt a (i + 3) <= DEDUPE_ALPHA_IGNORE_BELOW -> byteAt b (i + 3) <= DEDUPE_ALPHA_IGNORE_BELOW
  -> pixelMismatch a b i = false.
Proof.
  intros Ha Hb. unfold pixelMismatch. cbv zeta.
  apply Z.leb_le in Ha, Hb. by rewrite Ha, Hb.
Qed.

Lemma mismatchesFrom_zero a b n : forall j,
  (forall p, (j <= p < j + Z.of_nat n) -> pixelMismatch a b (4 * p) = false) ->
  mismatchesFrom a b n (4 * j) = 0.
Proof.
  induction n as [|n IH]; intros j H; cbn [mismatchesFrom]; [done|].
  rewrite H by lia. replace (4 * j + 4) with (4 * (j + 1)) by lia.
  rewrite IH; [done|]. intros p Hp. apply H. lia.
Qed.

(** X3. Two buffers of one length match without a mismatch when each
    pixel is the same in both or hardly visible in both (both alphas at
    most the alpha-ignore threshold, whatever the colours): a bitmap
    compared with itself counts 0. *)
Theorem comparator_ignores_invisible_pixels a b allowed :
  length a = length b -> 0 <= allowed ->
  (forall p, 0 <= p ->
     (byteAt a (4 * p + 3) <= DEDUPE_ALPHA_IGNORE_BELOW
      /\ byteAt b (4 * p + 3) <= DEDUPE_ALPHA_IGNORE_BELOW)
     \/ (byteAt a (4 * p) = byteAt b (4 * p) /\ byteAt a (4 * p + 1) = byteAt b (4 * p + 1)
         /\ byteAt a (4 * p + 2) = byteAt b (4 * p + 2)
         /\ byteAt a (4 * p + 3) = byteAt b (4 * p + 3))) ->
  countMismatchedPixels a b allowed = 0
  /\ countMismatchedPixels a a allowed = 0.
Proof.
  intros Hlen Hallowed Hpix.
  assert (forall x y, length x = length y ->
            (forall p, 0 <= p -> pixelMismatch x y (4 * p) = false) ->
            countMismatchedPixels x y allowed = 0) as Hzero.
  { intros x y Hxy Hall.
    assert (totalMismatches x y = 0) as Htot.
    { unfold totalMismatches. change 0 with (4 * 0) at 1.
      apply mismatchesFrom_zero. intros p Hp. apply Hall. lia. }
    rewrite countMismatchedPixels_within; [done|done|lia]. }
  split.
  - apply Hzero; [done|]. intros p Hp.
    destruct (Hpix p Hp) as [[Ha Hb]|(H0 & H1 & H2 & H3)].
    + by apply pixelMismatch_invisible.
    + by apply pixelMismatch_same.
  - apply Hzero; [done|]. intros p Hp. by apply pixelMismatch_same.
Qed.

(** *** The fingerprint *)

Lemma quant_range v : 0 <= quant v <= 15.
Proof. unfold quant. lia. Qed.

Lemma sampleCoord_range dim c : 0 < dim -> 0 <= c -> 0 <= sampleCoord dim c <= dim - 1.
Proof.
  intros Hdim Hc. unfold sampleCoord, DEDUPE_FINGERPRINT_SIZE.
  assert (0 <= (2 * c + 1) * dim / (2 * 16)) by (apply Z.div_pos; nia).
  lia.
Qed.

Lemma sampleCoord_increasing dim c c' :
  16 <= dim -> 0 <= c < c' -> c' < 16 -> sampleCoord dim c < sampleCoord dim c'.
Proof.
  intros Hdim Hc Hc'. unfold sampleCoord, DEDUPE_FINGERPRINT_SIZE.
  assert ((2 * c' + 1) * dim / (2 * 16) <= dim - 1) as Hlast.
  { apply Z.lt_le_pred, Z.div_lt_upper_bound; nia. }
  assert ((2 * c + 1) * dim / (2 * 16) < (2 * c' + 1) * dim / (2 * 16)) as Hlt.
  { apply Z.lt_le_trans with (((2 * c + 1) * dim + 1 * (2 * 16)) / (2 * 16)).
    - rewrite Z.div_add by lia. lia.
    - apply Z.div_le_mono; nia. }
  lia.
Qed.

Lemma length_flat_map_const {A B} (f : A -> list B) (l : list A) n :
  (forall x, length (f x) = n) -> length (flat_map f l) = (length l * n)%nat.
Proof.
  intros Hf. induction l as [|x l IH]; cbn [flat_map length]; [done|].
  rewrite length_app, Hf, IH. lia.
Qed.

(** X4. What the fingerprint digests is always 1024 values between 0
    and 15. On a bitmap whose buffer has the four bytes of each of its
    pixels, every pixel sampled lies in the bitmap and its four bytes in
    the buffer, so that no read falls back on 0; and a side of 16 pixels
    or more is sampled at 16 distinct coordinates. *)
Theorem fingerprint_samples_in_bounds decoded :
  length (fingerprintGrid decoded) = 1024%nat
  /\ Forall (fun v => 0 <= v <= 15) (fingerprintGrid decoded)
  /\ (0 < width decoded -> 0 < height decoded ->
      Z.of_nat (length (data decoded)) = 4 * width decoded * height decoded ->
      forall y x, 0 <= y < 16 -> 0 <= x < 16 ->
        0 <= sampleCoord (height decoded) y < height decoded
        /\ 0 <= sampleCoord (width decoded) x < width decoded
        /\ 0 <= (sampleCoord (height decoded) y * width decoded
                 + sampleCoord (width decoded) x) * 4
        /\ (sampleCoord (height decoded) y * width decoded
            + sampleCoord (width decoded) x) * 4 + 3 < Z.of_nat (length (data decoded)))
  /\ (forall dim c c', 16 <= dim -> 0 <= c < c' -> c' < 16 ->
        sampleCoord dim c < sampleCoord dim c').
Proof.
  split; [|split; [|split]].
  - unfold fingerprintGrid.
    rewrite (length_flat_map_const _ _ 64); [done|]. intros y.
    by rewrite (length_flat_map_const _ _ 4).
  - unfold fingerprintGrid. apply Forall_forall. intros v Hv.
    apply list_elem_of_In, in_flat_map in Hv as (y & _ & Hv).
    apply in_flat_map in Hv as (x & _ & Hv). unfold fingerprintCell in Hv.
    cbv zeta in Hv. cbn [In] in Hv.
    destruct Hv as [<-|[<-|[<-|[<-|[]]]]]; apply quant_range.
  - intros Hw Hh Hlen y x Hy Hx.
    pose proof (sampleCoord_range (height decoded) y Hh ltac:(lia)) as Hsy.
    pose proof (sampleCoord_range (width decoded) x Hw ltac:(lia)) as Hsx.
    split; [lia|]. split; [lia|]. rewrite Hlen. nia.
  - apply sampleCoord_increasing.
Qed.

(** *** Rehydration, further *)

Lemma initEntry_undecodable fs st name content :
  NoDup (map fst (dirEntries fs)) -> (name, FsFile content) ∈ dirEntries fs ->
  isStoreFile (name, FsFile content) = true -> pngRead content = None ->
  initEntry fs st (name, FsFile content) = Err DecodeError.
Proof.
  intros Hnd Hin Hstore Hbad. unfold initEntry, isStoreFile, storeFileKey in *. cbn [fst snd] in *.
  destruct (matchSharedFileName name) as [k|]; [|done].
  unfold readFile. rewrite (lookupPath_entry fs name (FsFile content) Hnd Hin).
  cbn. unfold decodePng. by rewrite Hbad.
Qed.

Lemma initEntry_error fs st entry e :
  NoDup (map fst (dirEntries fs)) -> entry ∈ dirEntries fs ->
  initEntry fs st entry = Err e -> e = DecodeError.
Proof.
  intros Hnd Hin. destruct entry as [name [content|]]; unfold initEntry; cbn [fst snd]; [|done].
  destruct (matchSharedFileName name) as [k|]; [|done].
  unfold readFile. rewrite (lookupPath_entry fs name (FsFile content) Hnd Hin).
  cbn. unfold decodePng. destruct (pngRead content); cbn; congruence.
Qed.

Lemma initLoop_undecodable fs name content entries :
  NoDup (map fst (dirEntries fs)) -> entries ⊆ dirEntries fs ->
  (name, FsFile content) ∈ entries ->
  isStoreFile (name, FsFile content) = true -> pngRead content = None ->
  forall st, initLoop fs st entries = Err DecodeError.
Proof.
  intros Hnd Hsub Hin Hstore Hbad.
  induction entries as [|entry rest IH]; intros st; [by apply elem_of_nil in Hin|].
  cbn [initLoop].
  assert (entry ∈ dirEntries fs) as Hentry by (apply Hsub; left).
  assert (rest ⊆ dirEntries fs) as Hrest by (intros x Hx; apply Hsub; by right).
  apply elem_of_cons in Hin as [<-|Hin].
  - by rewrite initEntry_undecodable.
  - destruct (initEntry fs st entry) as [st'|e] eqn:He; cbn.
    + by apply IH.
    + by rewrite (initEntry_error fs st entry e Hnd Hentry He).
Qed.

(** X5. Rehydration does not skip a file named by the convention that
    cannot be decoded: one such file among the entries of a readable
    directory (the names being distinct) makes [init] fail with the
    error of the decoder, and no store is given. *)
Theorem init_fails_on_undecodable_file st entries name content :
  NoDup (map fst entries) -> (name, FsFile content) ∈ entries ->
  isStoreFile (name, FsFile content) = true -> pngRead content = None ->
  init st (Dir true entries) = Err DecodeError.
Proof.
  intros Hnd Hin Hstore Hbad. unfold init. cbn [mkdir readdir]. cbn.
  by rewrite (initLoop_undecodable (Dir true entries) name content entries).
Qed.

(** A failure of the loop is the failure of one entry. *)
Lemma initLoop_Err fs entries : forall st e,
  initLoop fs st entries = Err e ->
  exists entry st', entry ∈ entries /\ initEntry fs st' entry = Err e.
Proof.
  induction entries as [|entry rest IH]; intros st e H; [done|]. cbn [initLoop] in H.
  destruct (initEntry fs st entry) as [st1|e1] eqn:He; cbn in H.
  - destruct (IH st1 e H) as (entry' & st' & Hin & He'). exists entry', st'. split; [by right|done].
  - inversion H; subst e1. exists entry, st. split; [by left|done].
Qed.

(** An entry fails when it is a regular file named by the convention
    that the decoder refuses. *)
Lemma initEntry_Err fs st entry e :
  NoDup (map fst (dirEntries fs)) -> entry ∈ dirEntries fs ->
  initEntry fs st entry = Err e ->
  e = DecodeError
  /\ exists name content, entry = (name, FsFile content)
       /\ isStoreFile entry = true /\ pngRead content = None.
Proof.
  intros Hnd Hin. destruct entry as [name [content|]];
    unfold initEntry, isStoreFile, storeFileKey; cbn [fst snd]; [|done].
  destruct (matchSharedFileName name) as [k|]; [|done].
  unfold readFile. rewrite (lookupPath_entry fs name (FsFile content) Hnd Hin).
  cbn. unfold decodePng. destruct (pngRead content) eqn:Hread; cbn; [done|].
  intros [= <-]. split; [done|]. by exists name, content.
Qed.

(** C10. When the directory exists and cannot be read, [init] fails,
    whatever the index and the directory hold: it throws what [readdir]
    threw, the error of node:fs with the code EACCES, an [Error] and no
    error of the store's own; it gives no store, and the process that
    was starting the store exits with status 1. In a directory of
    distinct names, whose files are read as they are, [init] fails in
    one other way only, with the error of the decoder on a regular file
    named by the convention; so it fails with EACCES exactly when the
    directory is there and cannot be read. *)
Theorem init_fails_with_listing_error st fs :
  NoDup (map fst (dirEntries fs)) ->
  (dirExists fs = true -> dirReadable fs = false ->
     readdir (mkdir fs) = Err EACCES
     /\ init st fs = Err EACCES
     /\ errorClass EACCES = "Error" /\ errorCode EACCES = Some "EACCES"
     /\ exitStatus (startStore fs) = 1)
  /\ (forall e, init st fs = Err e ->
        (e = EACCES /\ dirExists fs = true /\ dirReadable fs = false)
        \/ (e = DecodeError /\ dirReadable (mkdir fs) = true
            /\ exists name content,
                 (name, FsFile content) ∈ dirEntries fs
                 /\ isStoreFile (name, FsFile content) = true /\ pngRead content = None))
  /\ (init st fs = Err EACCES <-> dirExists fs = true /\ dirReadable fs = false).
Proof.
  intros Hnd.
  assert (forall e, init st fs = Err e ->
            (e = EACCES /\ dirExists fs = true /\ dirReadable fs = false)
            \/ (e = DecodeError /\ dirReadable (mkdir fs) = true
                /\ exists name content,
                     (name, FsFile content) ∈ dirEntries fs
                     /\ isStoreFile (name, FsFile content) = true /\ pngRead content = None))
    as Hfail.
  { intros e. unfold init. destruct fs as [|[|] entries]; cbn [mkdir readdir].
    - cbn. discriminate.
    - cbn [mbind result_bind]. intros H. right.
      destruct (initLoop (Dir true entries) st entries) as [st'|e'] eqn:Hloop; cbn in H; [done|].
      inversion H; subst e'.
      apply initLoop_Err in Hloop as (entry & st' & Hin & Hentry).
      apply (initEntry_Err _ _ _ _ Hnd Hin) in Hentry
        as (-> & name & content & -> & Hstore & Hbad).
      split; [done|]. split; [done|]. by exists name, content.
    - cbn. intros [= <-]. by left. }
  split; [|split; [exact Hfail|]].
  - intros Hex Hread. destruct fs as [|[|] entries]; [done|done|]. by repeat split.
  - split.
    + intros [[_ ?]|[? _]]%Hfail; [done|done].
    + intros [Hex Hread]. by destruct fs as [|[|] entries].
Qed.

(** *** The entries and their files *)

Lemma newStore_canonical : entriesCanonical newStore.
Proof.
  intros k info H. change (keyToInfo newStore) with (∅ : gmap string SharedTextureInfo) in H.
  by rewrite lookup_empty in H.
Qed.

Lemma insertEntry_canonical st info h bk :
  entriesCanonical st ->
  (exists s, key info = SHARED_TEXTURE_PREFIX +:+ s) ->
  filePath info = path_join sharedDir (key info +:+ "@2x.png") ->
  texturePath info = texturePathForKey (key info) ->
  entriesCanonical (insertEntry st info h bk).
Proof.
  intros Hst Hkey Hfile Htexture k info'. unfold insertEntry. cbn [keyToInfo].
  destruct (decide (key info = k)) as [<-|Hne].
  - rewrite lookup_insert_eq. intros [= <-]. by repeat split.
  - rewrite lookup_insert_ne by done. apply Hst.
Qed.

Lemma initEntry_canonical fs st entry st' :
  entriesCanonical st -> initEntry fs st entry = Ok st' -> entriesCanonical st'.
Proof.
  intros Hst. unfold initEntry. destruct entry as [name [content|]]; cbn [fst snd];
    [|by intros [= <-]].
  destruct (matchSharedFileName name) as [k|] eqn:Hname; [|by intros [= <-]].
  intros H. apply bind_Ok in H as (buffer & _ & H). apply bind_Ok in H as (decoded & _ & H).
  inversion H; subst st'. clear H.
  apply matchSharedFileName_Some in Hname as [-> (s & -> & _)].
  apply insertEntry_canonical; cbn [key filePath texturePath]; eauto.
Qed.

Lemma initLoop_canonical fs entries : forall st st',
  entriesCanonical st -> initLoop fs st entries = Ok st' -> entriesCanonical st'.
Proof.
  induction entries as [|entry rest IH]; intros st st' Hst; cbn [initLoop].
  - by intros [= <-].
  - intros H. apply bind_Ok in H as (st1 & H1 & H).
    eapply IH; [|done]. by eapply initEntry_canonical.
Qed.

Lemma init_canonical st fs st' fs' :
  entriesCanonical st -> init st fs = Ok (st', fs') -> entriesCanonical st'.
Proof.
  intros Hst H. unfold init in H. apply bind_Ok in H as (entries & _ & H).
  apply bind_Ok in H as (st1 & Hloop & H). inversion H; subst.
  by eapply initLoop_canonical.
Qed.

Lemma ownInfo_canonical st decoded h fp bk :
  entriesCanonical st -> entriesCanonical (insertEntry st (ownInfo decoded h fp) h bk).
Proof. intros Hst. apply insertEntry_canonical; cbn; eauto. Qed.

Lemma register_canonical st fs buffer r st' fs' :
  entriesCanonical st -> register st fs buffer = Ok (r, st', fs') -> entriesCanonical st'.
Proof.
  intros Hst H. apply register_paths in H as (decoded & _ & [info _ H|k info _ _ H|fs1 _ _ H]);
    inversion H; subst; [done|done|].
  by apply ownInfo_canonical.
Qed.

(** What a call leaves in the index for the bitmap it was given: its
    digest leads to a key, the key to an entry, and the reference
    returned is that of the entry. *)
Lemma register_binds st fs buffer decoded r st' fs' :
  pngRead buffer = Some decoded -> register st fs buffer = Ok (r, st', fs') ->
  exists k info,
    exactHashToKey st' !! hashPngPixels sha256 decoded = Some k
    /\ keyToInfo st' !! k = Some info /\ truthy k = true /\ r = refOf info.
Proof.
  intros Hdec H. apply register_paths in H as (decoded' & Hdec' & H).
  assert (decoded' = decoded) as -> by congruence.
  destruct H as [info Hinfo H|k info _ Hinfo H|fs1 _ _ H]; inversion H; subst; clear H.
  - apply infoOfKey_Some in Hinfo as (k & Hk & Htruthy & Hinfo). by exists k, info.
  - apply infoOfKey_Some in Hinfo as (k' & [= <-] & Htruthy & Hinfo).
    exists k, info. cbn [addAlias exactHashToKey keyToInfo]. by rewrite lookup_insert_eq.
  - eexists _, _. unfold insertEntry. cbn [exactHashToKey keyToInfo].
    rewrite !lookup_insert_eq. split; [done|]. split; [done|]. split; [|done].
    by eapply truthy_key.
Qed.

(** A binding of the index outlives the calls that follow: the digest
    leads to the same key, and the key to an entry of the same paths. *)
Lemma register_keeps_binding st fs buffer r st' fs' h k info :
  entriesCanonical st ->
  exactHashToKey st !! h = Some k -> keyToInfo st !! k = Some info ->
  register st fs buffer = Ok (r, st', fs') ->
  exactHashToKey st' !! h = Some k
  /\ exists info', keyToInfo st' !! k = Some info' /\ refOf info' = refOf info.
Proof.
  intros Hst Hh Hk H.
  destruct (Hst k info Hk) as (_ & [s Hs] & Hfile & Htexture).
  assert (infoOfKey st (exactHashToKey st !! h) = Some info) as Hknown.
  { rewrite Hh. cbn [infoOfKey]. by rewrite (truthy_key k s Hs). }
  apply register_paths in H as (decoded & _ & [info1 _ H|k1 info1 Hnone _ H|fs1 Hnone _ H]);
    inversion H; subst r st' fs'; clear H.
  - eauto.
  - cbn [addAlias exactHashToKey keyToInfo]. split; [|eauto].
    rewrite lookup_insert_ne; [done|]. intros <-. congruence.
  - unfold insertEntry. cbn [exactHashToKey keyToInfo]. split.
    + rewrite lookup_insert_ne; [done|]. intros <-. congruence.
    + destruct (decide (key (ownInfo decoded (hashPngPixels sha256 decoded)
                                 (computeFingerprint sha256 decoded)) = k)) as [Heq|Hne].
      * rewrite Heq, lookup_insert_eq. eexists. split; [done|].
        unfold refOf. rewrite Hfile, Htexture. cbn [ownInfo key] in Heq.
        unfold ownInfo. cbn [texturePath filePath]. subst k. by rewrite ?Heq.
      * rewrite lookup_insert_ne by done. eauto.
Qed.

Lemma registerAll_keeps_binding buffers : forall st fs rs st' fs' h k info,
  entriesCanonical st ->
  exactHashToKey st !! h = Some k -> keyToInfo st !! k = Some info ->
  registerAll st fs buffers = Ok (rs, st', fs') ->
  entriesCanonical st' /\ exactHashToKey st' !! h = Some k
  /\ exists info', keyToInfo st' !! k = Some info' /\ refOf info' = refOf info.
Proof.
  induction buffers as [|buffer rest IH]; intros st fs rs st' fs' h k info Hst Hh Hk;
    cbn [registerAll].
  - intros [= <- <- <-]. eauto.
  - intros H. apply bind_Ok in H as ([[r1 st1] fs1] & H1 & H). cbn [fst snd] in H.
    apply bind_Ok in H as ([[rs2 st2] fs2] & H2 & H). cbn [fst snd] in H.
    inversion H; subst rs st' fs'; clear H.
    destruct (register_keeps_binding _ _ _ _ _ _ h k info Hst Hh Hk H1)
      as (Hh1 & info1 & Hk1 & Href1).
    destruct (IH st1 fs1 rs2 st2 fs2 h k info1 (register_canonical _ _ _ _ _ _ Hst H1) Hh1 Hk1 H2)
      as (Hst2 & Hh2 & info2 & Hk2 & Href2).
    split; [done|]. split; [done|]. exists info2. split; [done|]. congruence.
Qed.

(** X7. The entries keep the shape the store documents: in an index
    whose entries are filed under their key, with a key that starts
    with the prefix and the paths [<sharedDir>/<key>@2x.png] and
    [<namespace>/Shared/<key>.png], [init] and [register] keep it so,
    and the reference [register] returns is made of these two paths for
    a key of the index. *)
Theorem register_reference_shape st fs :
  entriesCanonical st ->
  (forall st' fs', init st fs = Ok (st', fs') -> entriesCanonical st')
  /\ (forall buffer r st' fs',
        register st fs buffer = Ok (r, st', fs') ->
        entriesCanonical st'
        /\ exists s,
             is_Some (keyToInfo st' !! (SHARED_TEXTURE_PREFIX +:+ s))
             /\ ref_filePath r = path_join sharedDir ((SHARED_TEXTURE_PREFIX +:+ s) +:+ "@2x.png")
             /\ ref_texturePath r = texturePathForKey (SHARED_TEXTURE_PREFIX +:+ s)).
Proof.
  intros Hst. split.
  - intros st' fs'. by apply init_canonical.
  - intros buffer r st' fs' H.
    pose proof (register_canonical _ _ _ _ _ _ Hst H) as Hst'. split; [done|].
    pose proof H as Hpaths. apply register_paths in Hpaths as (decoded & Hdec & _).
    destruct (register_binds _ _ _ _ _ _ _ Hdec H) as (k & info & _ & Hk & _ & ->).
    destruct (Hst' k info Hk) as (_ & [s ->] & Hfile & Htexture).
    exists s. by rewrite Hk.
Qed.

(** X8. Within one store a bitmap keeps its reference: after a call
    that returned, whatever is registered next, a call with the same
    pixels (in the same encoding or another) returns the same reference
    and changes neither the index nor the directory. *)
Theorem reference_stable_across_registrations st fs buffer buffer' decoded r st1 fs1
    others rs st2 fs2 :
  entriesCanonical st ->
  pngRead buffer = Some decoded -> pngRead buffer' = Some decoded ->
  register st fs buffer = Ok (r, st1, fs1) ->
  registerAll st1 fs1 others = Ok (rs, st2, fs2) ->
  register st2 fs2 buffer' = Ok (r, st2, fs2).
Proof.
  intros Hst Hdec Hdec' H1 Hall.
  destruct (register_binds _ _ _ _ _ _ _ Hdec H1) as (k & info & Hh & Hk & Htruthy & ->).
  destruct (registerAll_keeps_binding others st1 fs1 rs st2 fs2 _ k info
              (register_canonical _ _ _ _ _ _ Hst H1) Hh Hk Hall)
    as (_ & Hh2 & info2 & Hk2 & <-).
  apply (register_exact _ _ _ decoded); [done|].
  rewrite Hh2. cbn [infoOfKey]. by rewrite Htruthy.
Qed.

Lemma find_app_Some {A} (f : A -> bool) (l1 l2 : list A) x :
  List.find f l1 = Some x -> List.find f (l1 ++ l2) = Some x.
Proof.
  induction l1 as [|y l1 IH]; cbn [List.find app]; [done|]. destruct (f y); [done|apply IH].
Qed.

Lemma exists_withNewFile fs name buffer p :
  exists_ fs p = true -> exists_ (withNewFile fs name buffer) p = true.
Proof.
  unfold exists_, lookupPath, withNewFile. cbn [dirEntries].
  destruct (List.find (atPath p) (dirEntries fs)) as [entry|] eqn:Hfind; [|done].
  by rewrite (find_app_Some _ _ _ _ Hfind).
Qed.

Lemma exists_own_new_file fs name buffer :
  exists_ (withNewFile fs name buffer) (path_join sharedDir name) = true.
Proof.
  unfold exists_, lookupPath, withNewFile. cbn [dirEntries].
  destruct (List.find _ (dirEntries fs ++ _)) as [entry|] eqn:Hfind; [done|].
  assert (In (name, FsFile buffer) (dirEntries fs ++ [(name, FsFile buffer)])) as Hin
    by (apply in_or_app; right; by left).
  pose proof (find_none _ _ Hfind (name, FsFile buffer) Hin) as Hno.
  unfold atPath in Hno. cbn [fst] in Hno. by rewrite String.eqb_refl in Hno.
Qed.

Lemma insertEntry_filesPresent st fs info h bk :
  filesPresent st fs -> exists_ fs (filePath info) = true ->
  filesPresent (insertEntry st info h bk) fs.
Proof.
  intros Hst Hinfo k info'. unfold insertEntry. cbn [keyToInfo].
  destruct (decide (key info = k)) as [<-|Hne].
  - rewrite lookup_insert_eq. by intros [= <-].
  - rewrite lookup_insert_ne by done. apply Hst.
Qed.

Lemma initLoop_filesPresent fs entries : forall st st',
  filesPresent st fs -> initLoop fs st entries = Ok st' -> filesPresent st' fs.
Proof.
  induction entries as [|entry rest IH]; intros st st' Hst; cbn [initLoop].
  - by intros [= <-].
  - intros H. apply bind_Ok in H as (st1 & H1 & H). eapply IH; [|done].
    clear H. unfold initEntry in H1. destruct entry as [name [content|]]; cbn [fst snd] in H1;
      [|by inversion H1; subst].
    destruct (matchSharedFileName name) as [k|]; [|by inversion H1; subst].
    apply bind_Ok in H1 as (buffer & Hread & H1). apply bind_Ok in H1 as (decoded & _ & H1).
    inversion H1; subst st1. apply insertEntry_filesPresent; [done|]. cbn [filePath].
    unfold readFile in Hread. unfold exists_.
    by destruct (lookupPath fs (path_join sharedDir name)).
Qed.

Lemma filesPresent_mkdir st fs : filesPresent st fs -> filesPresent st (mkdir fs).
Proof. intros H k info Hk. unfold exists_. rewrite lookupPath_mkdir. by apply (H k info). Qed.

(** X9. No reference dangles: when the file of every entry of the
    index is in the directory, it is still so after [init] and after
    [register], and the file path that [register] returns is that of
    something in the directory. A store made by [init] on an empty
    index starts so. *)
Theorem registered_files_exist st fs :
  filesPresent st fs ->
  (forall st' fs', init st fs = Ok (st', fs') -> filesPresent st' fs')
  /\ (forall buffer r st' fs',
        register st fs buffer = Ok (r, st', fs') ->
        filesPresent st' fs' /\ exists_ fs' (ref_filePath r) = true)
  /\ filesPresent newStore fs.
Proof.
  intros Hst. split; [|split].
  - intros st' fs' H. unfold init in H. apply bind_Ok in H as (entries & _ & H).
    apply bind_Ok in H as (st1 & Hloop & H). inversion H; subst.
    eapply initLoop_filesPresent; [|done]. by apply filesPresent_mkdir.
  - intros buffer r st' fs' H.
    apply register_paths in H as (decoded & _ & [info Hinfo H|k info _ Hinfo H|fs1 _ Hwrite H]);
      inversion H; subst r st' fs'; clear H.
    + apply infoOfKey_Some in Hinfo as (k & _ & _ & Hk). split; [done|]. by apply (Hst k info).
    + apply infoOfKey_Some in Hinfo as (k' & _ & _ & Hk). split; [done|]. by apply (Hst k' info).
    + set (info := ownInfo _ _ _) in *.
      assert (exists_ fs1 (filePath info) = true
              /\ forall p, exists_ fs p = true -> exists_ fs1 p = true) as [Hown Hkeep].
      { destruct (exists_ fs (filePath info)) eqn:Hthere.
        - inversion Hwrite; subst fs1. done.
        - change (filePath info) with (path_join sharedDir (ownFileName (hashPngPixels sha256 decoded)))
            in Hwrite, Hthere |- *.
          rewrite writeFileSafe_new in Hwrite by done. inversion Hwrite; subst fs1.
          split; [apply exists_own_new_file|]. intros p. apply exists_withNewFile. }
      split; [|done]. apply insertEntry_filesPresent; [|done].
      intros k info' Hk. apply Hkeep. by apply (Hst k info').
  - intros k info H. change (keyToInfo newStore) with (∅ : gmap string SharedTextureInfo) in H.
    by rewrite lookup_empty in H.
Qed.

(** *** Pruning, further *)

Lemma filter_filter_same {A} (f : A -> bool) (l : list A) :
  List.filter f (List.filter f l) = List.filter f l.
Proof.
  induction l as [|x l IH]; cbn [List.filter]; [done|].
  destruct (f x) eqn:Hx; cbn [List.filter]; [by rewrite Hx, IH|done].
Qed.

Lemma filter_filter_negb {A} (f : A -> bool) (l : list A) :
  List.filter f (List.filter (fun x => negb (f x)) l) = [].
Proof.
  induction l as [|x l IH]; cbn [List.filter]; [done|].
  destruct (f x) eqn:Hx; cbn [negb List.filter]; [done|by rewrite Hx].
Qed.

Lemma NoDup_map_filter {A B} (g : A -> B) (f : A -> bool) (l : list A) :
  NoDup (map g l) -> NoDup (map g (List.filter f l)).
Proof.
  induction l as [|x l IH]; cbn [map List.filter]; [done|].
  intros [Hx Hl]%NoDup_cons. destruct (f x); [|by apply IH].
  cbn [map]. apply NoDup_cons. split; [|by apply IH].
  intros Hin. apply Hx. apply list_elem_of_In, in_map_iff in Hin as (y & Hy & Hin).
  apply list_elem_of_In, in_map_iff. exists y. split; [done|].
  by apply filter_In in Hin as [Hin _].
Qed.

Lemma prune_result files fs :
  NoDup (map fst (dirEntries fs)) ->
  pruneUnusedSharedTextures files fs
  = match fs with
    | NoDir => Ok (NoDir, 0)
    | Dir false _ => Err EACCES
    | Dir true entries =>
        Ok (Dir true (List.filter (fun e => negb (unused (collectUsedKeys files) e)) entries),
            Z.of_nat (length (List.filter (unused (collectUsedKeys files)) entries)))
    end.
Proof.
  intros Hnd. destruct fs as [|[|] entries]; [done| |done].
  pose proof (foldl_pruneEntry (collectUsedKeys files) true entries [] 0 Hnd) as Hf.
  cbn [app] in Hf. unfold pruneUnusedSharedTextures. simpl. by rewrite Hf.
Qed.

(** X10. Pruning twice is pruning once: after a run that returned, a
    second run over the same documents deletes nothing and leaves the
    directory as the first run left it. *)
Theorem prune_idempotent files fs fs' deleted :
  NoDup (map fst (dirEntries fs)) ->
  pruneUnusedSharedTextures files fs = Ok (fs', deleted) ->
  pruneUnusedSharedTextures files fs' = Ok (fs', 0).
Proof.
  intros Hnd H. rewrite prune_result in H by done.
  destruct fs as [|[|] entries]; [by inversion H; subst| |done].
  inversion H; subst fs' deleted. clear H.
  rewrite prune_result by (cbn [dirEntries] in *; by apply NoDup_map_filter).
  by rewrite filter_filter_same, filter_filter_negb.
Qed.

(** X11. After pruning, a store rehydrated from the directory knows the
    stored bitmaps that the documents use and no other: [init] returns
    (the files of the convention decode, the names are distinct), and a
    key has an entry exactly when the pattern found it in a [.ui]
    document and a file of the directory carries it. *)
Theorem pruned_store_knows_used_keys files entries :
  NoDup (map fst entries) -> storeFilesDecode entries ->
  exists fs' deleted st,
    pruneUnusedSharedTextures files (Dir true entries) = Ok (fs', deleted)
    /\ init newStore fs' = Ok (st, fs')
    /\ forall k, is_Some (keyToInfo st !! k)
                 <-> k ∈ collectUsedKeys files
                     /\ exists entry, entry ∈ entries /\ storeFileKey entry = Some k.
Proof.
  intros Hnd Hdec.
  set (kept := List.filter (fun e => negb (unused (collectUsedKeys files) e)) entries).
  assert (forall e, e ∈ kept <-> e ∈ entries /\ unused (collectUsedKeys files) e = false) as Hkept.
  { intros e. unfold kept. rewrite !list_elem_of_In, filter_In, negb_true_iff. done. }
  assert (NoDup (map fst kept)) as Hnd' by by apply NoDup_map_filter.
  assert (storeFilesDecode kept) as Hdec'.
  { intros name content Hin. apply Hdec. by apply Hkept in Hin as [Hin _]. }
  destruct (initLoop_Ok (Dir true kept) kept Hnd' ltac:(done) Hdec' newStore)
    as (st & Hloop & Hdom & _).
  exists (Dir true kept), (Z.of_nat (length (List.filter (unused (collectUsedKeys files)) entries))), st.
  split; [by rewrite prune_result|]. split; [by apply init_Ok|].
  intros k. rewrite <- elem_of_dom, Hdom.
  change (keyToInfo newStore) with (∅ : gmap string SharedTextureInfo).
  rewrite dom_empty_L, (left_id_L ∅ (∪)), elem_of_list_to_set, list_elem_of_omap.
  split.
  - intros (entry & [Hin Hused]%Hkept & Hk). unfold unused in Hused. rewrite Hk in Hused.
    apply negb_false_iff, bool_decide_eq_true in Hused. eauto.
  - intros (Hused & entry & Hin & Hk). exists entry. split; [|done].
    apply Hkept. split; [done|]. unfold unused. rewrite Hk.
    by apply negb_false_iff, bool_decide_eq_true.
Qed.

(** *** The order of the listing *)

Lemma initLoop_foldl fs entries :
  NoDup (map fst (dirEntries fs)) -> entries ⊆ dirEntries fs -> storeFilesDecode entries ->
  forall st, initLoop fs st entries = Ok (foldl initStep st entries).
Proof.
  intros Hnd. induction entries as [|[name node] rest IH]; intros Hsub Hdec st; [done|].
  assert (rest ⊆ dirEntries fs) as Hsub' by (intros x Hx; apply Hsub; by right).
  assert (storeFilesDecode rest) as Hdec' by (intros n c Hin; apply Hdec; by right).
  assert ((name, node) ∈ dirEntries fs) as Hin by (apply Hsub; left).
  cbn [initLoop foldl].
  assert (initEntry fs st (name, node) = Ok (initStep st (name, node))) as ->;
    [|cbn; by apply IH].
  unfold initStep. cbn [fst snd].
  destruct node as [content|]; [|done].
  destruct (matchSharedFileName name) as [k|] eqn:Hname.
  - destruct (Hdec name content) as [decoded Hdecoded]; [left| |].
    { unfold isStoreFile, storeFileKey. cbn [fst snd]. by rewrite Hname. }
    rewrite Hdecoded. by apply initEntry_take.
  - apply initEntry_skip. unfold storeFileKey. by cbn [fst snd].
Qed.

Lemma sortKeys_push_commute l k1 k2 :
  sortKeys (sortKeys (l ++ [k1]) ++ [k2]) = sortKeys (sortKeys (l ++ [k2]) ++ [k1]).
Proof.
  apply (Sorted_unique String.le); [apply sortKeys_sorted..|].
  unfold sortKeys. rewrite !merge_sort_Permutation.
  rewrite <- !(assoc_L (++)). apply Permutation_app_head, perm_swap.
Qed.

Lemma insertEntry_commute st i1 h1 b1 i2 h2 b2 :
  key i1 <> key i2 -> h1 <> h2 ->
  insertEntry (insertEntry st i1 h1 b1) i2 h2 b2
  = insertEntry (insertEntry st i2 h2 b2) i1 h1 b1.
Proof.
  intros Hk Hh. unfold insertEntry. cbn [keyToInfo exactHashToKey bucketToKeys].
  f_equal.
  - by apply insert_insert_ne.
  - destruct (decide (b1 = b2)) as [<-|Hb].
    + rewrite !lookup_insert_eq. cbn [default from_option id]. rewrite !insert_insert_eq.
      by rewrite sortKeys_push_commute.
    + rewrite !lookup_insert_ne by done. by apply insert_insert_ne.
  - by apply insert_insert_ne.
Qed.

Lemma initStep_commute st e1 e2 :
  e1.1 <> e2.1 -> contentAddressed [e1; e2] ->
  initStep (initStep st e1) e2 = initStep (initStep st e2) e1.
Proof.
  intros Hne Haddr. unfold initStep.
  destruct e1 as [n1 [c1|]], e2 as [n2 [c2|]]; cbn [fst snd] in *; try done.
  destruct (matchSharedFileName n1) as [k1|] eqn:Hn1; [|done].
  destruct (pngRead c1) as [d1|] eqn:Hd1; [|done].
  destruct (matchSharedFileName n2) as [k2|] eqn:Hn2; [|done].
  destruct (pngRead c2) as [d2|] eqn:Hd2; [|done].
  assert (k1 = SHARED_TEXTURE_PREFIX +:+ hashPngPixels sha256 d1) as Hk1.
  { apply (Haddr n1). exists c1. split; [left|done]. }
  assert (k2 = SHARED_TEXTURE_PREFIX +:+ hashPngPixels sha256 d2) as Hk2.
  { apply (Haddr n2). exists c2. split; [right; left|done]. }
  assert (k1 <> k2) as Hk.
  { intros ->. apply Hne. apply matchSharedFileName_Some in Hn1 as [-> _], Hn2 as [-> _]. done. }
  apply insertEntry_commute; cbn [entryOfFile key]; [done|].
  intros Hh. apply Hk. by rewrite Hk1, Hk2, Hh.
Qed.

Lemma contentAddressed_subseteq l1 l2 :
  l1 ⊆ l2 -> contentAddressed l2 -> contentAddressed l1.
Proof.
  intros Hsub H name k decoded (content & Hin & Hrest). apply (H name).
  exists content. split; [by apply Hsub|done].
Qed.

Lemma foldl_initStep_permutation l1 l2 :
  l1 ≡ₚ l2 -> NoDup (map fst l1) -> contentAddressed l1 ->
  forall st, foldl initStep st l1 = foldl initStep st l2.
Proof.
  induction 1 as [|x l1 l2 Hperm IH|x y l|l1 l2 l3 H12 IH12 H23 IH23]; intros Hnd Haddr st.
  - done.
  - cbn [foldl]. apply IH.
    + cbn [map] in Hnd. by apply NoDup_cons in Hnd as [_ Hnd].
    + eapply contentAddressed_subseteq; [|done]. intros e He. by right.
  - cbn [foldl]. f_equal. apply initStep_commute.
    + cbn [map] in Hnd. apply NoDup_cons in Hnd as [Hy _]. intros Heq. apply Hy.
      rewrite <- Heq. left.
    + eapply contentAddressed_subseteq; [|done]. intros e He.
      apply elem_of_cons in He as [->|He]; [left|].
      apply elem_of_cons in He as [->|He]; [right; left|by apply elem_of_nil in He].
  - rewrite IH12 by done. apply IH23.
    + by rewrite <- H12.
    + eapply contentAddressed_subseteq; [|done]. intros e He. by rewrite H12.
Qed.

(** X12. Rehydration does not depend on the order in which the
    directory is listed: on a content-addressed directory with distinct
    names whose files of the convention decode, [init] gives the same
    index for every order of the entries. *)
Theorem init_independent_of_listing_order st entries entries' :
  entries ≡ₚ entries' -> NoDup (map fst entries) ->
  storeFilesDecode entries -> contentAddressed entries ->
  exists st',
    init st (Dir true entries) = Ok (st', Dir true entries)
    /\ init st (Dir true entries') = Ok (st', Dir true entries').
Proof.
  intros Hperm Hnd Hdec Haddr. exists (foldl initStep st entries). split.
  - apply init_Ok. by apply initLoop_foldl.
  - apply init_Ok. rewrite (foldl_initStep_permutation entries entries') by done.
    apply initLoop_foldl; cbn [dirEntries].
    + by rewrite <- Hperm.
    + done.
    + intros name content Hin. apply Hdec. by rewrite Hperm.
Qed.

(** *** A store in use and a store rehydrated *)

Lemma prefix_inj (p s1 s2 : string) : p +:+ s1 = p +:+ s2 -> s1 = s2.
Proof.
  induction p as [|c p IH]; [done|].
  change (String c (p +:+ s1) = String c (p +:+ s2) -> s1 = s2). intros [= H]. by apply IH.
Qed.

Lemma rehydrated_bindings entries :
  storeDirectory entries ->
  (forall h k, exactHashToKey (foldl initStep newStore entries) !! h = Some k ->
     k = SHARED_TEXTURE_PREFIX +:+ h
     /\ is_Some (keyToInfo (foldl initStep newStore entries) !! k))
  /\ (forall name content decoded k,
        (name, FsFile content) ∈ entries -> matchSharedFileName name = Some k ->
        pngRead content = Some decoded ->
        exactHashToKey (foldl initStep newStore entries) !! hashPngPixels sha256 decoded
        = Some k).
Proof.
  intros (Hnd & Hdec & Haddr & _).
  destruct (initLoop_Ok (Dir true entries) entries Hnd ltac:(done) Hdec newStore)
    as (st' & Hl & Hdom & _ & Hhash & _ & Hhas).
  rewrite initLoop_foldl in Hl by done. inversion Hl as [Hst']. rewrite <- Hst' in *. clear Hl Hst'.
  assert (forall h k, exactHashToKey (foldl initStep newStore entries) !! h = Some k ->
            exists name decoded, storedFile entries name k decoded
                                 /\ h = hashPngPixels sha256 decoded) as Hfrom.
  { intros h k [Hold|H]%Hhash; [|done].
    change (exactHashToKey newStore) with (∅ : gmap string string) in Hold.
    by rewrite lookup_empty in Hold. }
  split.
  - intros h k (name & decoded & Hfile & ->)%Hfrom.
    split; [by apply (Haddr name)|].
    apply elem_of_dom. rewrite Hdom. apply elem_of_union. right.
    apply elem_of_list_to_set, list_elem_of_omap.
    destruct Hfile as (content & Hin & Hname & _).
    exists (name, FsFile content). split; [done|]. unfold storeFileKey. by cbn [fst snd].
  - intros name content decoded k Hin Hname Hdecoded.
    assert (storedFile entries name k decoded) as Hfile by by exists content.
    destruct (Hhas name k decoded Hfile) as [k' Hk'].
    rewrite Hk'. f_equal.
    destruct (Hfrom _ _ Hk') as (name' & decoded' & Hfile' & Heq).
    rewrite (Haddr name k decoded Hfile), (Haddr name' k' decoded' Hfile'). by rewrite Heq.
Qed.

Lemma mirrors_own_file_missing entries st decoded :
  isHex64 (hashPngPixels sha256 decoded) ->
  storeDirectory entries -> mirrors st entries ->
  infoOfKey st (exactHashToKey st !! hashPngPixels sha256 decoded) = None ->
  exists_ (Dir true entries) (path_join sharedDir (ownFileName (hashPngPixels sha256 decoded)))
  = false.
Proof.
  intros Hhex Hdir (Hinfo & _ & Hsub) Hnone.
  destruct (rehydrated_bindings entries Hdir) as [Hbound Hfiles].
  destruct Hdir as (Hnd & Hdec & Haddr & Hnodir).
  set (h := hashPngPixels sha256 decoded) in *.
  unfold exists_. destruct (lookupPath _ _) as [node|] eqn:Hlook; [|done]. exfalso.
  apply lookupPath_Some in Hlook as (name & Hin & Hname%path_join_inj). subst name.
  cbn [dirEntries] in Hin.
  pose proof (matchSharedFileName_own h Hhex) as Hmatch. fold (ownFileName h) in Hmatch.
  destruct node as [content|]; [|by rewrite (Hnodir _ Hin) in Hmatch].
  destruct (Hdec (ownFileName h) content Hin) as [decoded' Hdecoded'].
  { unfold isStoreFile, storeFileKey. cbn [fst snd]. by rewrite Hmatch. }
  pose proof (Hfiles _ _ _ _ Hin Hmatch Hdecoded') as Hbinding.
  destruct (Hbound _ _ Hbinding) as [Hkey Hsome].
  apply prefix_inj in Hkey. rewrite <- Hkey in Hbinding.
  apply (lookup_weaken _ _ _ _ Hbinding) in Hsub.
  rewrite Hsub in Hnone. cbn [infoOfKey] in Hnone.
  rewrite (truthy_key _ h eq_refl), Hinfo in Hnone.
  rewrite Hkey in Hnone. destruct Hsome as [info Hsome]. congruence.
Qed.

Lemma initStep_own st buffer decoded :
  isHex64 (hashPngPixels sha256 decoded) -> pngRead buffer = Some decoded ->
  initStep st (ownFileName (hashPngPixels sha256 decoded), FsFile buffer)
  = insertEntry st
      (ownInfo decoded (hashPngPixels sha256 decoded) (computeFingerprint sha256 decoded))
      (hashPngPixels sha256 decoded)
      (bucketKey (width decoded) (height decoded) (computeFingerprint sha256 decoded)).
Proof.
  intros Hh Hdecoded. unfold initStep. cbn [fst snd].
  unfold ownFileName. by rewrite (matchSharedFileName_own _ Hh), Hdecoded.
Qed.

Lemma register_mirrors entries st buffer r st' fs' :
  (forall m, isHex64 (sha256 m)) ->
  storeDirectory entries -> mirrors st entries ->
  register st (Dir true entries) buffer = Ok (r, st', fs') ->
  exists entries', fs' = Dir true entries' /\ storeDirectory entries' /\ mirrors st' entries'.
Proof.
  intros Hhex Hdir Hmirror H.
  apply register_paths in H as (decoded & Hdecoded & [info _ H|k info Hnone Hinfo H|fs1 Hnone Hwrite H]);
    inversion H; subst r st' fs'; clear H.
  - by exists entries.
  - exists entries. split; [done|]. split; [done|].
    destruct Hmirror as (Hinfos & Hbuckets & Hsub). split; [done|]. split; [done|].
    cbn [addAlias exactHashToKey]. apply insert_subseteq_r; [|done].
    destruct (exactHashToKey (foldl initStep newStore entries) !! hashPngPixels sha256 decoded)
      as [k'|] eqn:Hbinding; [|done]. exfalso.
    destruct (rehydrated_bindings entries Hdir) as [Hbound _].
    destruct (Hbound _ _ Hbinding) as [-> [info' Hsome]].
    apply (lookup_weaken _ _ _ _ Hbinding) in Hsub. rewrite Hsub in Hnone.
    cbn [infoOfKey] in Hnone. rewrite (truthy_key _ _ eq_refl), Hinfos in Hnone. congruence.
  - set (h := hashPngPixels sha256 decoded) in *.
    set (fp := computeFingerprint sha256 decoded) in *.
    assert (isHex64 h) as Hh by apply Hhex.
    change (filePath (ownInfo decoded h fp)) with (path_join sharedDir (ownFileName h)) in Hwrite.
    pose proof (mirrors_own_file_missing entries st decoded Hh Hdir Hmirror Hnone) as Hmissing.
    fold h in Hmissing. rewrite Hmissing, writeFileSafe_new in Hwrite by done.
    inversion Hwrite; subst fs1. clear Hwrite.
    pose proof (matchSharedFileName_own h Hh) as Hmatch. fold (ownFileName h) in Hmatch.
    exists (entries ++ [(ownFileName h, FsFile buffer)]). split; [done|].
    destruct Hdir as (Hnd & Hdec & Haddr & Hnodir). split.
    + split; [|split; [|split]].
      * rewrite map_app. cbn [map fst]. apply NoDup_app. split; [done|].
        split; [|apply NoDup_singleton].
        intros name Hname ->%list_elem_of_singleton.
        apply (lookupPath_None (Dir true entries) (ownFileName h)); [|done].
        unfold exists_ in Hmissing. by destruct (lookupPath _ _).
      * intros name content [Hin|Hin]%elem_of_app Hstore; [by apply (Hdec name)|].
        apply list_elem_of_singleton in Hin. inversion Hin; subst. by rewrite Hdecoded.
      * intros name k d (content & [Hin|Hin]%elem_of_app & Hname & Hd).
        -- apply (Haddr name). by exists content.
        -- apply list_elem_of_singleton in Hin. inversion Hin; subst.
           rewrite Hmatch in Hname. inversion Hname.
           assert (d = decoded) as -> by congruence. done.
      * intros name [Hin|Hin]%elem_of_app; [by apply Hnodir|].
        apply list_elem_of_singleton in Hin. inversion Hin.
    + destruct Hmirror as (Hinfos & Hbuckets & Hsub).
      unfold mirrors. rewrite foldl_app. cbn [foldl].
      rewrite (initStep_own _ buffer decoded Hh Hdecoded). fold h fp.
      unfold insertEntry. cbn [keyToInfo bucketToKeys exactHashToKey].
      rewrite Hinfos, Hbuckets. split; [done|]. split; [done|]. by apply insert_mono.
Qed.

Lemma registerAll_mirrors buffers : forall entries st rs st' fs',
  (forall m, isHex64 (sha256 m)) ->
  storeDirectory entries -> mirrors st entries ->
  registerAll st (Dir true entries) buffers = Ok (rs, st', fs') ->
  exists entries', fs' = Dir true entries' /\ storeDirectory entries' /\ mirrors st' entries'.
Proof.
  induction buffers as [|buffer rest IH]; intros entries st rs st' fs' Hhex Hdir Hmirror;
    cbn [registerAll].
  - intros [= <- <- <-]. by exists entries.
  - intros H. apply bind_Ok in H as ([[r1 st1] fs1] & H1 & H). cbn [fst snd] in H.
    apply bind_Ok in H as ([[rs2 st2] fs2] & H2 & H). cbn [fst snd] in H.
    inversion H; subst rs st' fs'; clear H.
    destruct (register_mirrors _ _ _ _ _ _ Hhex Hdir Hmirror H1) as (entries1 & -> & Hdir1 & Hmirror1).
    by apply (IH entries1 st1 rs2 st2 fs2).
Qed.

(** X13. A store in use and a store rehydrated agree. A store is made
    by [init] on a directory as the store keeps it (missing, or with
    distinct names, files of the convention that decode and carry the
    digest of their bitmap, and no sub-directory named by the
    convention) and bitmaps are registered. A new store rehydrated from
    the directory as it is then has the same entries and the same
    buckets; its digest map is that of the store in use without the
    digests bound by a collapse. *)
Theorem rehydration_fidelity fs0 st0 fs1 buffers rs st fs :
  (forall m, isHex64 (sha256 m)) ->
  storeDirectory (dirEntries fs0) ->
  init newStore fs0 = Ok (st0, fs1) ->
  registerAll st0 fs1 buffers = Ok (rs, st, fs) ->
  exists st',
    init newStore fs = Ok (st', fs)
    /\ keyToInfo st' = keyToInfo st /\ bucketToKeys st' = bucketToKeys st
    /\ exactHashToKey st' ⊆ exactHashToKey st.
Proof.
  intros Hhex Hdir Hinit Hall.
  assert (fs1 = Dir true (dirEntries fs0)
          /\ st0 = foldl initStep newStore (dirEntries fs0)) as [-> ->].
  { unfold init in Hinit. apply bind_Ok in Hinit as (entries & Hread & Hinit).
    apply bind_Ok in Hinit as (st1 & Hloop & Hinit). inversion Hinit; subst st1 fs1. clear Hinit.
    assert (mkdir fs0 = Dir true (dirEntries fs0) /\ entries = dirEntries fs0) as [Hmk ->].
    { destruct fs0 as [|[|] l]; cbn in *; by inversion Hread. }
    rewrite Hmk in *. split; [done|].
    destruct Hdir as (Hnd & Hdec & _).
    rewrite initLoop_foldl in Hloop by done. by inversion Hloop. }
  destruct (registerAll_mirrors buffers (dirEntries fs0) _ rs st fs Hhex Hdir ltac:(done) Hall)
    as (entries' & -> & (Hnd & Hdec & _) & Hinfos & Hbuckets & Hsub).
  exists (foldl initStep newStore entries'). split; [|done].
  apply init_Ok. by apply initLoop_foldl.
Qed.

(** A bitmap registered in a store that knows nothing, over a directory
    that holds nothing. *)
Lemma register_fresh fs buffer decoded :
  dirEntries fs = [] -> pngRead buffer = Some decoded ->
  register newStore fs buffer
  = Ok (refOf (ownInfo decoded (hashPngPixels sha256 decoded) (computeFingerprint sha256 decoded)),
        insertEntry newStore
          (ownInfo decoded (hashPngPixels sha256 decoded) (computeFingerprint sha256 decoded))
          (hashPngPixels sha256 decoded)
          (bucketKey (width decoded) (height decoded) (computeFingerprint sha256 decoded)),
        withNewFile fs (ownFileName (hashPngPixels sha256 decoded)) buffer).
Proof.
  intros Hempty Hdecoded. unfold register, decodePng. rewrite Hdecoded. cbn.
  change (exactHashToKey newStore) with (∅ : gmap string string).
  change (bucketToKeys newStore) with (∅ : gmap string (list string)).
  rewrite !lookup_empty. cbn. rewrite registerNew_result.
  unfold exists_, lookupPath. by rewrite Hempty.
Qed.

Lemma newStore_filesPresent fs : filesPresent newStore fs.
Proof.
  intros k info H. change (keyToInfo newStore) with (∅ : gmap string SharedTextureInfo) in H.
  by rewrite lookup_empty in H.
Qed.

End StoreFacts.

(** ** The mismatch budget *)

Lemma round53_exact m e : Z.abs m < 2 ^ 53 -> Double.round53 m e = Double.mk m e.
Proof.
  intros Hm. unfold Double.round53.
  assert (Z.log2 (Z.abs m) - 52 <= 0) as Hk.
  { destruct (Z.eq_dec (Z.abs m) 0) as [->|Hne]; [simpl; lia|].
    assert (Z.log2 (Z.abs m) < 53); [|lia]. apply Z.log2_lt_pow2; lia. }
  apply Z.leb_le in Hk. by rewrite Hk.
Qed.

(** Above 53 bits the low [k] bits go: the significand is the quotient
    or the next integer, and the exponent grows by [k]. *)
Lemma round53_rounded m e :
  2 ^ 53 <= m ->
  let k := Z.log2 m - 52 in
  exists q', Double.round53 m e = Double.mk q' (e + k)
             /\ m / 2 ^ k <= q' <= m / 2 ^ k + 1
             /\ 2 ^ 52 <= m / 2 ^ k.
Proof.
  intros Hm k. unfold Double.round53.
  assert (0 < m) as Hpos by lia.
  rewrite (Z.abs_eq m) by lia. fold k.
  assert (53 <= Z.log2 m) as Hlog by (apply Z.log2_le_pow2; lia).
  assert ((k <=? 0) = false) as -> by (apply Z.leb_gt; lia).
  rewrite (Z.sgn_pos m) by lia.
  eexists. split; [reflexivity|]. split.
  - destruct (_ <? _); [lia|]. destruct (_ <? _); [lia|]. destruct (Z.even _); lia.
  - apply Z.div_le_lower_bound; [apply Z.pow_pos_nonneg; lia|].
    rewrite <- Z.pow_add_r by lia. replace (k + 52) with (Z.log2 m) by lia.
    by apply Z.log2_spec.
Qed.

Lemma budget_constant :
  Double.sub (Double.of_Z 1) DEDUPE_SIMILARITY_THRESHOLD = Double.mk 9007199254741 (-53).
Proof. reflexivity. Qed.

Lemma totalPixels_double w h :
  0 <= w < 2 ^ 32 -> 0 <= h < 2 ^ 32 ->
  Double.mul (Double.of_Z w) (Double.of_Z h) = Double.round53 (w * h) 0.
Proof.
  intros Hw Hh. unfold Double.of_Z.
  rewrite !round53_exact by (rewrite Z.abs_eq; lia). reflexivity.
Qed.

(** The budget from an exact pixel count. Writing [C] for the
    significand of [1 - 0.999], [1000 * C] is [2^53 + 8]: the product
    [n * C / 2^53] is [n / 1000] and a little more, and the rounding of
    the product is too small to reach the next integer below the cap. *)
Lemma budget_of_exact_count n :
  0 <= n < 2 ^ 53 ->
  Z.min (Double.floor (Double.round53 (n * 9007199254741) (-53))) 64
  = Z.min (n / 1000) 64.
Proof.
  intros Hn. change (2 ^ 53) with 9007199254740992 in Hn.
  pose proof (Z.div_mod n 1000 ltac:(lia)) as Hdiv.
  pose proof (Z.mod_pos_bound n 1000 ltac:(lia)) as Hmod.
  set (j := n / 1000) in *. set (r := n mod 1000) in *. clearbody j r.
  destruct (Z_lt_le_dec (n * 9007199254741) (2 ^ 53)) as [Hlow|Hhigh].
  - rewrite round53_exact by (rewrite Z.abs_eq; lia).
    change (2 ^ 53) with 9007199254740992 in Hlow.
    unfold Double.floor. cbn [Double.mant Double.expo].
    change (0 <=? -53) with false. cbv iota. change (- -53) with 53.
    rewrite Z.div_small by (change (2 ^ 53) with 9007199254740992; lia).
    assert (j = 0) as -> by lia. reflexivity.
  - destruct (round53_rounded (n * 9007199254741) (-53) Hhigh) as (q' & -> & Hq & Hq52).
    set (N := n * 9007199254741) in *.
    assert (N = (1000 * j + r) * 9007199254741) as HN by (unfold N; lia).
    assert (53 <= Z.log2 N) as Hlog1 by (apply Z.log2_le_pow2; lia).
    assert (Z.log2 N < 97) as Hlog2.
    { apply Z.log2_lt_pow2; [lia|]. change (2 ^ 97) with 158456325028528675187087900672. lia. }
    set (k := Z.log2 N - 52) in *.
    unfold Double.floor. cbn [Double.mant Double.expo].
    assert ((0 <=? -53 + k) = false) as -> by (apply Z.leb_gt; lia).
    replace (- (-53 + k)) with (53 - k) by lia.
    assert (2 ^ (53 - k) * 2 ^ k = 9007199254740992) as Hsplit.
    { rewrite <- Z.pow_add_r by lia. by replace (53 - k + k) with 53 by lia. }
    assert (0 < 2 ^ k) as Hpk by (apply Z.pow_pos_nonneg; lia).
    assert (0 < 2 ^ (53 - k)) as Hpk' by (apply Z.pow_pos_nonneg; lia).
    pose proof (Z.div_mod N (2 ^ k) ltac:(lia)) as Hdq.
    pose proof (Z.mod_pos_bound N (2 ^ k) ltac:(lia)) as Hmq.
    set (q := N / 2 ^ k) in *. set (rem := N mod 2 ^ k) in *.
    assert (k <= 7 \/ 64 <= j) as Hk7.
    { destruct (Z_lt_le_dec j 64) as [Hj|Hj]; [left|by right].
      assert (Z.log2 N < 60); [|lia]. apply Z.log2_lt_pow2; [lia|].
      change (2 ^ 60) with 1152921504606846976. lia. }
    set (P := 2 ^ k) in *. set (P' := 2 ^ (53 - k)) in *.
    assert (k <= 7 -> P <= 128) as HP.
    { intros Hk. change 128 with (2 ^ 7). apply Z.pow_le_mono_r; lia. }
    clearbody q rem P P' N. clear Hlog1 Hlog2.
    assert (P' * j <= q) as Hlower.
    { assert (P * (P' * j) <= N) as Hle.
      { replace (P * (P' * j)) with (j * (P' * P)) by ring. rewrite Hsplit. lia. }
      destruct (Z_le_gt_dec (P' * j) q) as [?|Hgt]; [done|]. exfalso.
      assert (P * (q + 1) <= P * (P' * j)) by (apply Z.mul_le_mono_nonneg_l; lia). lia. }
    assert (j <= q' / P') as Hfl.
    { apply Z.div_le_lower_bound; lia. }
    destruct Hk7 as [Hk7|Hj64]; [|lia].
    destruct (Z_lt_le_dec j 64) as [Hj|Hj]; [|lia].
    assert (q' / P' < j + 1); [|lia].
    apply Z.div_lt_upper_bound; [lia|].
    specialize (HP Hk7).
    destruct (Z_lt_le_dec (q + 1) (P' * (j + 1))) as [?|Hge]; [lia|]. exfalso.
    assert (P * (P' * (j + 1)) <= P * (q + 1)) as Hmul
      by (apply Z.mul_le_mono_nonneg_l; lia).
    replace (P * (P' * (j + 1))) with ((j + 1) * (P' * P)) in Hmul by ring.
    rewrite Hsplit in Hmul. lia.
Qed.

(** The budget from a pixel count that was itself rounded: the product
    is far above the cap. *)
Lemma budget_of_rounded_count n :
  2 ^ 53 <= n < 2 ^ 64 ->
  64 <= Double.floor (Double.mul (Double.round53 n 0) (Double.mk 9007199254741 (-53))).
Proof.
  intros [Hbig Hlt].
  destruct (round53_rounded n 0 Hbig) as (m1 & -> & Hm1 & Hm1low).
  assert (53 <= Z.log2 n) as Hlog1 by (apply Z.log2_le_pow2; lia).
  assert (Z.log2 n < 64) as Hlog2 by (apply Z.log2_lt_pow2; lia).
  set (k1 := Z.log2 n - 52) in *.
  unfold Double.mul. cbn [Double.mant Double.expo].
  change (2 ^ 52) with 4503599627370496 in Hm1low.
  assert (2 ^ 95 <= m1 * 9007199254741) as Hbig2.
  { change (2 ^ 95) with (4503599627370496 * 8796093022208). lia. }
  assert (2 ^ 53 <= m1 * 9007199254741) as Hbig3.
  { etrans; [|exact Hbig2]. by apply Z.pow_le_mono_r. }
  destruct (round53_rounded (m1 * 9007199254741) (0 + k1 + -53) Hbig3)
    as (m2 & -> & Hm2 & Hm2low).
  assert (95 <= Z.log2 (m1 * 9007199254741)) as Hlog3 by (apply Z.log2_le_pow2; lia).
  set (k2 := Z.log2 (m1 * 9007199254741) - 52) in *.
  change (2 ^ 52) with 4503599627370496 in Hm2low.
  unfold Double.floor. cbn [Double.mant Double.expo].
  set (x := 0 + k1 + -53 + k2) in *. assert (-9 <= x) as Hx by (unfold x; lia).
  clearbody x. destruct (0 <=? x) eqn:Hx0.
  - apply Z.leb_le in Hx0.
    assert (1 <= 2 ^ x) by (apply (Z.pow_le_mono_r 2 0); lia). nia.
  - apply Z.leb_gt in Hx0. apply Z.div_le_lower_bound; [apply Z.pow_pos_nonneg; lia|].
    assert (2 ^ (- x) <= 2 ^ 9) as Hp by (apply Z.pow_le_mono_r; lia).
    change (2 ^ 9) with 512 in Hp. lia.
Qed.

(** The budget is the one of exact arithmetic: the roundings of the
    doubles never move the product across an integer below the cap. *)
Lemma allowedMismatches_exact w h :
  0 <= w < 2 ^ 32 -> 0 <= h < 2 ^ 32 ->
  allowedMismatches w h = Z.min (w * h / 1000) 64.
Proof.
  intros Hw Hh. unfold allowedMismatches.
  rewrite totalPixels_double, budget_constant by done.
  unfold DEDUPE_MAX_MISMATCH_PIXELS.
  assert (0 <= w * h < 2 ^ 64) as Hn.
  { change (2 ^ 64) with (2 ^ 32 * 2 ^ 32). nia. }
  destruct (Z_lt_le_dec (w * h) (2 ^ 53)) as [Hsmall|Hbig].
  - rewrite round53_exact by (rewrite Z.abs_eq; lia).
    unfold Double.mul. cbn [Double.mant Double.expo]. rewrite Z.add_0_l.
    apply budget_of_exact_count. lia.
  - pose proof (budget_of_rounded_count (w * h) ltac:(lia)) as Hfloor.
    assert (64 <= w * h / 1000).
    { apply Z.div_le_lower_bound; [lia|]. change (2 ^ 53) with 9007199254740992 in Hbig. lia. }
    lia.
Qed.

(** C5. For a bitmap whose sides are below 2^32, as a PNG header has
    them, the budget [register] computes in doubles is
    [min(floor(w * h * (1 - 0.999)), 64)] in exact arithmetic, the
    threshold being 999/1000 and the cap 64: it is [w * h / 1000]
    rounded down, capped at 64. *)
Theorem allowed_budget_formula w h :
  0 <= w < 2 ^ 32 -> 0 <= h < 2 ^ 32 ->
  allowedMismatches w h
  = Z.min (Qfloor (inject_Z (w * h) * (1 - (999 # 1000)))) DEDUPE_MAX_MISMATCH_PIXELS
  /\ allowedMismatches w h = Z.min (w * h / 1000) 64.
Proof.
  intros Hw Hh. rewrite allowedMismatches_exact by done. split; [|done].
  unfold Qfloor, DEDUPE_MAX_MISMATCH_PIXELS. simpl. by rewrite Z.mul_1_r.
Qed.

(** ** The number model against binary64

    On the kernel's binary64 numbers the threshold literal, the budget of
    sample bitmaps (rounded products included), [Math.round(p / 255)]
    for the products [p] nearest to a tie ([255 k + 127] and
    [255 k + 128], [k] below 256) and [Math.round(v / 17)] for every
    byte [v] are what [Double] and [roundDiv] give. *)

Example threshold_is_nearest_double :
  FloatOps.Prim2SF Binary64.threshold
  = SpecFloat.S754_finite false (Z.to_pos (Double.mant Double.lit_0_999))
      (Double.expo Double.lit_0_999).
Proof. vm_compute. reflexivity. Qed.

Example budget_agrees_with_binary64 :
  forallb (fun p => Binary64.sameOption (Binary64.budgetByRatio p.1 p.2) (budgetByRatio p.1 p.2))
    [ (0, 0); (1, 1); (999, 1); (1000, 1); (1001, 1); (40, 25); (1999, 1); (2000, 1);
      (63999, 1); (64000, 1); (1920, 1080); (4294967295, 4294967295);
      (3037000500, 3037000500); (94906267, 94906267); (2147495993, 4194305) ]
  = true.
Proof. vm_compute. reflexivity. Qed.

Example roundDiv_agrees_with_binary64 :
  Binary64.allFrom 8 0
    (fun k => Binary64.sameOption (Binary64.roundQuotient (255 * k + 127) 255)
                (roundDiv (255 * k + 127) 255)
              && Binary64.sameOption (Binary64.roundQuotient (255 * k + 128) 255)
                   (roundDiv (255 * k + 128) 255)
              && Binary64.sameOption (Binary64.roundQuotient k 17) (roundDiv k 17))
  = true.
Proof. vm_compute. reflexivity. Qed.

(** ** The digest is 64 hexadecimal digits *)

Lemma hexdigit_lower d : 0 <= d < 16 -> isLowerHex (SHA256.hexdigit d) = true.
Proof.
  intros Hd.
  assert (d = 0 \/ d = 1 \/ d = 2 \/ d = 3 \/ d = 4 \/ d = 5 \/ d = 6 \/ d = 7 \/ d = 8
          \/ d = 9 \/ d = 10 \/ d = 11 \/ d = 12 \/ d = 13 \/ d = 14 \/ d = 15) as H by lia.
  repeat (destruct H as [->|H]; [reflexivity|]). by subst.
Qed.

Lemma nibble_range w i : 0 <= Z.land (Z.shiftr w (4 * i)) 0xf < 16.
Proof.
  change 0xf with (Z.ones 4). rewrite Z.land_ones by lia. apply Z.mod_pos_bound. lia.
Qed.

Lemma hex32_hex w :
  String.length (SHA256.hex32 w) = 8%nat
  /\ forallb isLowerHex (list_ascii_of_string (SHA256.hex32 w)) = true.
Proof.
  unfold SHA256.hex32. rewrite list_ascii_of_string_of_list_ascii. split.
  - reflexivity.
  - apply forallb_forall. intros c (i & <- & _)%in_map_iff.
    apply hexdigit_lower, nibble_range.
Qed.

Lemma isHex_app s1 s2 n1 n2 :
  String.length s1 = n1 /\ forallb isLowerHex (list_ascii_of_string s1) = true ->
  String.length s2 = n2 /\ forallb isLowerHex (list_ascii_of_string s2) = true ->
  String.length (s1 +:+ s2) = (n1 + n2)%nat
  /\ forallb isLowerHex (list_ascii_of_string (s1 +:+ s2)) = true.
Proof.
  intros [<- H1] [<- H2]. revert H1. induction s1 as [|c s1 IH]; [done|].
  change (String c s1 +:+ s2) with (String c (s1 +:+ s2)). simpl.
  intros [Hc H1]%andb_prop. destruct (IH H1) as [Hl Ha]. by rewrite Hc, Hl, Ha.
Qed.

Lemma sha256_hex64 msg : isHex64 (SHA256.hexdigest msg).
Proof.
  unfold isHex64, SHA256.hexdigest.
  change 64%nat with (8 + (8 + (8 + (8 + (8 + (8 + (8 + 8)))))))%nat.
  repeat (apply isHex_app; [apply hex32_hex|]). apply hex32_hex.
Qed.

Module MutexFacts.
Import Mutex.

Lemma isSettled_app s extra p mtx cs :
  isSettled {| settled := settled s ++ extra; mutex := mtx; calls := cs |} p
  = if decide (p < length (settled s))%nat then isSettled s p
    else default false (extra !! (p - length (settled s))%nat).
Proof.
  unfold isSettled. simpl. case_decide.
  - by rewrite lookup_app_l.
  - by rewrite lookup_app_r by lia.
Qed.

Lemma isSettled_insert s q p mtx cs :
  isSettled {| settled := <[q := true]> (settled s); mutex := mtx; calls := cs |} p = true
  <-> (p = q /\ (q < length (settled s))%nat) \/ isSettled s p = true.
Proof.
  unfold isSettled. simpl. destruct (decide (p = q)) as [->|Hne].
  - destruct (decide (q < length (settled s))%nat) as [Hlt|Hge].
    + rewrite list_lookup_insert_eq by done. simpl. split; auto.
    + rewrite list_insert_ge by lia. split; [auto|]. intros [[_ ?]|?]; [lia|done].
  - rewrite list_lookup_insert_ne by done. split; [auto|]. by intros [[? _]|?].
Qed.

Lemma isSettled_lt s p : isSettled s p = true -> (p < length (settled s))%nat.
Proof.
  unfold isSettled. destruct (settled s !! p) eqn:H; [|done].
  intros _. by apply lookup_lt_Some in H.
Qed.

Lemma lookup_setProgress (cs : list call) i c p j c' :
  cs !! i = Some c ->
  <[i := setProgress c p]> cs !! j = Some c' ->
  (j = i /\ c' = setProgress c p) \/ (j <> i /\ cs !! j = Some c').
Proof.
  intros Hi Hj. destruct (decide (j = i)) as [->|Hne].
  - left. split; [done|]. rewrite list_lookup_insert_eq in Hj; [congruence|].
    by apply lookup_lt_Some in Hi.
  - right. split; [done|]. by rewrite list_lookup_insert_ne in Hj.
Qed.

Lemma initial_invariant : invariant initial.
Proof.
  split; simpl; try done; intros i; try (intros c H; by rewrite lookup_nil in H).
Qed.

Lemma step_invariant s s' : invariant s -> step s s' -> invariant s'.
Proof.
  intros [Hlen Hmtx Hfirst Hids Hrun Hrel Hstarted] Hstep.
  destruct Hstep as [s n | s i c Hi Hp Hs | s i c n Hi Hp | s i c Hi Hp | s i c Hi Hs];
    unfold synchronized, settle, advance.
  - (* synchronized *)
    split; cbn [settled mutex calls].
    + rewrite !length_app. simpl. lia.
    + rewrite length_app. simpl. lia.
    + rewrite isSettled_app. case_decide; [done|lia].
    + intros j c. rewrite lookup_app. destruct (calls s !! j) eqn:Hj.
      * intros [= <-]. by apply Hids.
      * apply lookup_ge_None in Hj.
        destruct (j - length (calls s))%nat as [|d] eqn:Hd; [|done].
        intros [= <-]. simpl. lia.
    + intros j c. rewrite lookup_app, isSettled_app. destruct (calls s !! j) eqn:Hj.
      * intros [= <-]. pose proof (lookup_lt_Some _ _ _ Hj). case_decide; [|lia].
        by apply Hrun.
      * apply lookup_ge_None in Hj.
        destruct (j - length (calls s))%nat as [|d] eqn:Hd; [|done].
        intros [= <-]. case_decide; [lia|].
        match goal with |- context [[false; false] !! ?k] => replace k with 0%nat by lia end.
        done.
    + intros j. rewrite !isSettled_app. case_decide as H1.
      * case_decide; [apply Hrel|lia].
      * match goal with
        | |- context [[false; false] !! ?k] => by destruct k as [|[|d]]
        end.
    + intros j c. rewrite lookup_app, isSettled_app. destruct (calls s !! j) eqn:Hj.
      * intros [= <-]. pose proof (lookup_lt_Some _ _ _ Hj). case_decide; [|lia].
        by apply Hstarted.
      * apply lookup_ge_None in Hj.
        destruct (j - length (calls s))%nat as [|d] eqn:Hd; [|done].
        by intros [= <-].
  - (* start *)
    destruct (Hids i c Hi) as (Hw & _).
    split; cbn [settled mutex calls]; try done.
    + by rewrite length_insert.
    + by rewrite length_insert.
    + intros j c' [[-> ->]|[Hne Hj]]%(lookup_setProgress _ _ c); [|by apply Hids|done].
      exact (Hids i c Hi).
    + intros j c' [[-> ->]|[Hne Hj]]%(lookup_setProgress _ _ c) Hset; [|by apply (Hrun j)|done].
      apply (Hrun i c Hi) in Hset. congruence.
    + intros j c' [[-> ->]|[Hne Hj]]%(lookup_setProgress _ _ c) Hnw; [|by apply (Hstarted j c')|done].
      by rewrite <- Hw.
  - (* resume *)
    split; cbn [settled mutex calls]; try done.
    + by rewrite length_insert.
    + by rewrite length_insert.
    + intros j c' [[-> ->]|[Hne Hj]]%(lookup_setProgress _ _ c); [|by apply Hids|done].
      exact (Hids i c Hi).
    + intros j c' [[-> ->]|[Hne Hj]]%(lookup_setProgress _ _ c) Hset; [|by apply (Hrun j)|done].
      apply (Hrun i c Hi) in Hset. congruence.
    + intros j c' [[-> ->]|[Hne Hj]]%(lookup_setProgress _ _ c) Hnw; [|by apply (Hstarted j c')|done].
      apply (Hstarted i c Hi). congruence.
  - (* finish *)
    destruct (Hids i c Hi) as (_ & Hr & _). pose proof (lookup_lt_Some _ _ _ Hi) as Hlt.
    split; cbn [settled mutex calls].
    + by rewrite length_insert, length_insert.
    + by rewrite length_insert.
    + apply isSettled_insert. by right.
    + intros j c' [[-> ->]|[Hne Hj]]%(lookup_setProgress _ _ c); [|by apply Hids|done].
      exact (Hids i c Hi).
    + intros j c' [[-> ->]|[Hne Hj]]%(lookup_setProgress _ _ c); [done| |done].
      intros [[Heq _]|Hset]%isSettled_insert; [lia|]. by apply (Hrun j).
    + intros j [[Heq _]|Hset]%isSettled_insert; [lia|].
      apply isSettled_insert. right. by apply Hrel.
    + intros j c' [[-> ->]|[Hne Hj]]%(lookup_setProgress _ _ c) Hnw; [|apply isSettled_insert; right; by apply (Hstarted j c')|done].
      apply isSettled_insert. right. apply (Hstarted i c Hi). congruence.
  - (* release *)
    destruct (Hids i c Hi) as (_ & Hr & Hre). pose proof (lookup_lt_Some _ _ _ Hi) as Hlt.
    rewrite Hr in Hs.
    split; cbn [settled mutex calls].
    + by rewrite length_insert.
    + done.
    + apply isSettled_insert. by right.
    + done.
    + intros j c' Hj [[Heq _]|Hset]%isSettled_insert; [lia|]. by apply (Hrun j).
    + intros j [[Heq _]|Hset]%isSettled_insert.
      * assert (j = i) as -> by lia. apply isSettled_insert. by right.
      * apply isSettled_insert. right. by apply Hrel.
    + intros j c' Hj Hnw. apply isSettled_insert. right. by apply (Hstarted j c').
Qed.

Lemma reachable_invariant s : reachable s -> invariant s.
Proof.
  unfold reachable. revert s. apply rtc_ind_r.
  - apply initial_invariant.
  - intros y z _ Hstep Hy. by eapply step_invariant.
Qed.

(** A call that has started finds every earlier call finished. *)
Lemma started_after_finished s :
  invariant s ->
  forall j i ci cj,
    (i < j)%nat -> calls s !! i = Some ci -> calls s !! j = Some cj ->
    progress cj <> Waiting -> progress ci = Finished.
Proof.
  intros [Hlen Hmtx Hfirst Hids Hrun Hrel Hstarted].
  induction j as [|j IH]; intros i ci cj Hij Hi Hj Hnw; [lia|].
  assert (is_Some (calls s !! j)) as [c Hc].
  { apply lookup_lt_is_Some. apply lookup_lt_Some in Hj. lia. }
  assert (progress c = Finished) as Hfin.
  { apply (Hrun j c Hc), Hrel.
    replace (S (S (2 * j))) with (2 * S j)%nat by lia. by apply (Hstarted (S j) cj). }
  destruct (decide (i = j)) as [->|Hne]; [congruence|].
  apply (IH i ci c); [lia|done|done|congruence].
Qed.

(** C8. In every state the store can reach, whatever the order in which
    the jobs run: at most one call of [register] has its body under way
    (started and not ended), and a call that has started finds every
    call made before it ended. The bodies run one at a time, in the
    order of the calls. *)
Theorem register_calls_serialized s :
  reachable s ->
  (forall i j ci cj,
     calls s !! i = Some ci -> calls s !! j = Some cj ->
     isRunning ci -> isRunning cj -> i = j)
  /\ (forall i j ci cj,
        (i < j)%nat -> calls s !! i = Some ci -> calls s !! j = Some cj ->
        progress cj <> Waiting -> progress ci = Finished).
Proof.
  intros Hinv%reachable_invariant. split.
  - intros i j ci cj Hi Hj [ni Hri] [nj Hrj].
    destruct (Nat.lt_trichotomy i j) as [Hlt|[?|Hlt]]; [|done|].
    + pose proof (started_after_finished s Hinv j i ci cj Hlt Hi Hj) as H.
      rewrite Hri, Hrj in H. by specialize (H ltac:(done)).
    + pose proof (started_after_finished s Hinv i j cj ci Hlt Hj Hi) as H.
      rewrite Hri, Hrj in H. by specialize (H ltac:(done)).
  - intros i j ci cj. by apply started_after_finished.
Qed.

End MutexFacts.

Lemma returned_Ok r ref : returned r = Some ref -> r = Ok (ref, (stateOf r).1, (stateOf r).2).
Proof. destruct r as [[[ref' st] fs]|]; simpl; congruence. Qed.

Lemma dirOfInit_Ok r fs : dirOfInit r = Some fs -> r = Ok (storeOfInit r, fs).
Proof. destruct r as [[st fs']|]; simpl; congruence. Qed.


(** C2, counterexample. The store holds the bitmap [A] and no other. Two
    distinct buffers that decode to one bitmap [B], a near-duplicate of
    [A], are then registered: both get the reference of [A], and no file
    is written for the pair, the directory holds the file of [A] as
    before. *)
Lemma exact_duplicates_write_no_file :
  returned (demoRegister newStore NoDir bufA) = Some (refOfKey keyA)
  /\ bufB <> bufB' /\ rawRead bufB = Some pixB /\ rawRead bufB' = Some pixB
  /\ returned (demoRegister stA.1 stA.2 bufB) = Some (refOfKey keyA)
  /\ returned (demoRegister stAB.1 stAB.2 bufB') = Some (refOfKey keyA)
  /\ fileNames stA.2 = [keyA +:+ "@2x.png"]
  /\ stAB.2 = stA.2
  /\ (stateOf (demoRegister stAB.1 stAB.2 bufB')).2 = stA.2.
Proof.
  split; [vm_compute; reflexivity|]. split; [discriminate|].
  do 6 (split; [vm_compute; reflexivity|]). vm_compute; reflexivity.
Qed.

(** C4, counterexample. [A], [B] and [C] are registered in a new store:
    [B] collapses onto [A], then [C] is stored. [B] registered again
    gives the reference of [A] and changes nothing on disk; in a store
    rehydrated from this directory it gives the reference of [C], which
    ties with [A] on the mismatch count and has the smaller key. *)
Lemma idempotence_lost_by_rehydration :
  returned (demoRegister newStore NoDir bufA) = Some (refOfKey keyA)
  /\ returned (demoRegister stA.1 stA.2 bufB) = Some (refOfKey keyA)
  /\ returned (demoRegister stAB.1 stAB.2 bufC) = Some (refOfKey keyC)
  /\ returned (demoRegister stABC.1 stABC.2 bufB) = Some (refOfKey keyA)
  /\ (stateOf (demoRegister stABC.1 stABC.2 bufB)).2 = stABC.2
  /\ demoInit newStore stABC.2 = Ok (stRehydrated, stABC.2)
  /\ returned (demoRegister stRehydrated stABC.2 bufB) = Some (refOfKey keyC)
  /\ refOfKey keyA <> refOfKey keyC.
Proof.
  do 5 (split; [vm_compute; reflexivity|]).
  split; [apply dirOfInit_Ok; vm_compute; reflexivity|].
  split; [vm_compute; reflexivity|discriminate].
Qed.


(** C7, counterexample. The namespace is [g]. In the [.ui] file the
    reference path of [A] is followed by [/Shared/], the key of [B] and
    [.png]: the reference path of [B] is written in the text, from the
    last letter of the path of [A] on, so [B] is a key referenced and
    its file is persisted. The pattern, matched from left to right
    without overlap, finds [A] alone, and [prune] deletes the file of
    [B]. *)
Lemma prune_deletes_overlapped_reference :
  (exists before rest,
     overlapText = before +:+ texturePathForKey overlapNamespace keyB +:+ rest
     /\ String.length before = 77%nat)
  /\ referenceAt overlapNamespace overlapText 77 keyB
  /\ (keyB +:+ "@2x.png", FsFile bufB) ∈ storedAB
  /\ storeFileKey (keyB +:+ "@2x.png", FsFile bufB) = Some keyB
  /\ matchAll overlapNamespace 0 overlapText = [keyA]
  /\ pruneUnusedSharedTextures overlapDir overlapNamespace overlapDocuments (Dir true storedAB)
     = Ok (Dir true [ (keyA +:+ "@2x.png", FsFile bufA) ], 1).
Proof.
  split; [by exists ("g/Shared/" +:+ keyA +:+ ".pn"), ""|].
  split.
  { exists ("g/Shared/" +:+ keyA +:+ ".pn"), "", digestB.
    split; [reflexivity|]. split; [reflexivity|]. split; [reflexivity|]. split; reflexivity. }
  split; [right; left|].
  split; [vm_compute; reflexivity|].
  split; vm_compute; reflexivity.
Qed.

(** C10, counterexample. The directory is there, holds the files of
    [A], [B] and [C] and cannot be read. [init] on a new store fails
    with the very value [readdir] failed with: its code is EACCES, and
    it is an [Error], no [StoreInitError]. *)
Lemma init_error_is_no_StoreInitError :
  exists e,
    readdir (Dir false demoShared) = Err e
    /\ demoInit newStore (Dir false demoShared) = Err e
    /\ errorCode e = Some "EACCES"
    /\ errorClass e <> "StoreInitError".
Proof. exists EACCES. do 3 (split; [reflexivity|]). discriminate. Qed.


(** ** The theorems at work *)

Lemma register_tie_break_witness :
  demoRegister stAC.1 stAC.2 bufB
  = Ok (refOf (demoInfo keyC),
        addAlias stAC.1 (hashPngPixels SHA256.hexdigest pixB) keyC, stAC.2)
  /\ demoRegister
       (setBucket stAC.1
          (bucketKey (width pixB) (height pixB) (computeFingerprint SHA256.hexdigest pixB))
          [keyA; keyC]) stAC.2 bufB
     = Ok (refOf (demoInfo keyC),
           addAlias
             (setBucket stAC.1
                (bucketKey (width pixB) (height pixB)
                   (computeFingerprint SHA256.hexdigest pixB))
                [keyA; keyC])
             (hashPngPixels SHA256.hexdigest pixB) keyC,
           stAC.2).
Proof.
  apply (register_tie_break rawRead SHA256.hexdigest demoDir demoNamespace
           stAC.1 stAC.2 bufB pixB [keyC; keyA] [keyA; keyC] (fun _ => Some 0) keyC 0
           (demoInfo keyC)).
  - vm_compute; reflexivity.
  - vm_compute; reflexivity.
  - vm_compute; reflexivity.
  - intros k Hk. apply elem_of_cons in Hk as [->|Hk]; [vm_compute; reflexivity|].
    apply list_elem_of_singleton in Hk as ->. vm_compute; reflexivity.
  - left.
  - reflexivity.
  - vm_compute; reflexivity.
  - discriminate.
  - intros k m' _ [= <-]. lia.
  - intros k Hk _. apply elem_of_cons in Hk as [->|Hk]; [vm_compute; exact I|].
    apply list_elem_of_singleton in Hk as ->. vm_compute; exact I.
  - apply perm_swap.
Defined.


Lemma exact_duplicates_share_reference_witness :
  demoRegister stA.1 stA.2 bufA' = Ok (refOfKey keyA, stA.1, stA.2)
  /\ dirEntries stA.2 = [(ownFileName (hashPngPixels SHA256.hexdigest pixA), FsFile bufA)].
Proof.
  destruct (exact_duplicates_share_reference rawRead SHA256.hexdigest demoDir demoNamespace
              newStore NoDir bufA bufA' pixA (refOfKey keyA) stA.1 stA.2)
    as (Hsame & _ & Hone).
  - vm_compute; reflexivity.
  - vm_compute; reflexivity.
  - apply returned_Ok. vm_compute; reflexivity.
  - split; [exact Hsame|]. by apply Hone.
Defined.



Lemma register_idempotent_witness :
  demoRegister stA.1 stA.2 bufA = Ok (refOfKey keyA, stA.1, stA.2)
  /\ exists st2,
       demoInit newStore (Dir true [(keyA +:+ "@2x.png", FsFile bufA)])
       = Ok (st2, Dir true [(keyA +:+ "@2x.png", FsFile bufA)])
       /\ demoRegister st2 (Dir true [(keyA +:+ "@2x.png", FsFile bufA)]) bufA
          = Ok (refOfKey keyA, st2, Dir true [(keyA +:+ "@2x.png", FsFile bufA)]).
Proof.
  destruct (register_idempotent rawRead SHA256.hexdigest demoDir demoNamespace
              newStore NoDir bufA pixA (refOfKey keyA) stA.1 stA.2)
    as [Hsame Hrehydrate].
  - vm_compute; reflexivity.
  - apply returned_Ok. vm_compute; reflexivity.
  - split; [exact Hsame|].
    apply (Hrehydrate [(keyA +:+ "@2x.png", FsFile bufA)] bufA).
    + assert (dirEntries stA.2 = [(keyA +:+ "@2x.png", FsFile bufA)]) as ->
        by (vm_compute; reflexivity).
      reflexivity.
    + apply (bool_decide_unpack _). vm_compute. exact I.
    + intros name content Hin _. apply list_elem_of_singleton in Hin.
      inversion Hin; subst. vm_compute. by eexists.
    + intros name k decoded (content & Hin & Hm & Hd).
      apply list_elem_of_singleton in Hin. inversion Hin; subst.
      vm_compute in Hm, Hd. inversion Hm; subst. inversion Hd; subst.
      vm_compute; reflexivity.
    + apply sha256_hex64.
    + vm_compute; reflexivity.
    + replace (ownFileName (hashPngPixels SHA256.hexdigest pixA))
        with (keyA +:+ "@2x.png") by (vm_compute; reflexivity).
      left.
Defined.

Lemma allowed_budget_formula_witness :
  allowedMismatches 1920 1080
  = Z.min (Qfloor (inject_Z (1920 * 1080) * (1 - (999 # 1000)))) DEDUPE_MAX_MISMATCH_PIXELS
  /\ allowedMismatches 1920 1080 = Z.min (1920 * 1080 / 1000) 64.
Proof. apply (allowed_budget_formula 1920 1080); vm_compute; split; discriminate || reflexivity. Defined.

Lemma init_rehydrates_matching_files_witness :
  exists st,
    demoInit newStore (Dir true demoEntries) = Ok (st, Dir true demoEntries)
    /\ size (keyToInfo st) = 1%nat
    /\ (forall k info, keyToInfo st !! k = Some info ->
          exists name decoded,
            storedFile rawRead demoEntries name k decoded
            /\ info = entryOfFile SHA256.hexdigest demoDir demoNamespace name k decoded)
    /\ (forall entry k info,
          entry ∈ demoEntries -> isStoreFile entry = false ->
          keyToInfo st !! k = Some info -> filePath info <> path_join demoDir entry.1).
Proof.
  apply (init_rehydrates_matching_files rawRead SHA256.hexdigest demoDir demoNamespace
           demoEntries).
  - apply (bool_decide_unpack _). vm_compute. exact I.
  - intros name content Hin Hfile.
    apply elem_of_cons in Hin as [Hin|Hin]; [inversion Hin; subst; vm_compute; by eexists|].
    apply elem_of_cons in Hin as [Hin|Hin]; [inversion Hin; subst; discriminate|].
    apply list_elem_of_singleton in Hin. discriminate.
Defined.

Lemma prune_deletes_exactly_unreferenced_witness :
  pruneUnusedSharedTextures demoDir demoNamespace demoDocuments (Dir true demoShared)
  = Ok (Dir true [ (keyA +:+ "@2x.png", FsFile bufA); (keyC +:+ "@2x.png", FsFile bufC) ], 1).
Proof.
  rewrite (proj1 (prune_deletes_exactly_unreferenced demoDir demoNamespace demoDocuments
                    demoShared ltac:(apply (bool_decide_unpack _); vm_compute; exact I))).
  vm_compute; reflexivity.
Defined.

Lemma init_fails_with_listing_error_witness :
  readdir (mkdir (Dir false demoShared)) = Err EACCES
  /\ demoInit newStore (Dir false demoShared) = Err EACCES
  /\ errorClass EACCES = "Error" /\ errorCode EACCES = Some "EACCES"
  /\ exitStatus (startStore rawRead SHA256.hexdigest demoDir demoNamespace
                   (Dir false demoShared)) = 1.
Proof.
  apply (proj1 (init_fails_with_listing_error rawRead SHA256.hexdigest demoDir demoNamespace
                  newStore (Dir false demoShared)
                  ltac:(apply (bool_decide_unpack _); vm_compute; exact I)));
    reflexivity.
Defined.

Lemma index_consistency_invariant_witness : indexConsistent stA.1.
Proof.
  apply (proj2 (index_consistency_invariant rawRead SHA256.hexdigest demoDir demoNamespace
                  newStore NoDir newStore_consistent)
           bufA (refOfKey keyA) stA.1 stA.2).
  apply returned_Ok. vm_compute; reflexivity.
Defined.

Lemma register_calls_serialized_witness :
  Mutex.reachable demoCalls
  /\ (forall i j ci cj,
        Mutex.calls demoCalls !! i = Some ci -> Mutex.calls demoCalls !! j = Some cj ->
        Mutex.isRunning ci -> Mutex.isRunning cj -> i = j)
  /\ (forall i j ci cj,
        (i < j)%nat ->
        Mutex.calls demoCalls !! i = Some ci -> Mutex.calls demoCalls !! j = Some cj ->
        Mutex.progress cj <> Mutex.Waiting -> Mutex.progress ci = Mutex.Finished).
Proof.
  assert (Mutex.reachable demoCalls) as Hreach.
  { unfold Mutex.reachable, demoCalls.
    eapply rtc_l; [apply (Mutex.step_synchronized _ 2)|].
    eapply rtc_l; [apply (Mutex.step_synchronized _ 1)|].
    eapply rtc_l; [by eapply (Mutex.step_start _ 0)|].
    eapply rtc_l; [by eapply (Mutex.step_resume _ 0)|].
    apply rtc_refl. }
  split; [exact Hreach|]. exact (MutexFacts.register_calls_serialized demoCalls Hreach).
Defined.

(** ** Further theorems at work *)

Lemma comparator_ignores_invisible_pixels_witness :
  countMismatchedPixels [0; 0; 0; 255; 9; 9; 9; 3] [0; 0; 0; 255; 200; 1; 1; 4] 0 = 0
  /\ countMismatchedPixels [0; 0; 0; 255; 9; 9; 9; 3] [0; 0; 0; 255; 9; 9; 9; 3] 0 = 0.
Proof.
  apply (comparator_ignores_invisible_pixels [0; 0; 0; 255; 9; 9; 9; 3]
           [0; 0; 0; 255; 200; 1; 1; 4] 0); [reflexivity|lia|].
  intros p Hp. destruct (Z.eq_dec p 0) as [->|]; [right; by vm_compute|].
  destruct (Z.eq_dec p 1) as [->|]; [left; by vm_compute|].
  right. unfold byteAt.
  repeat match goal with |- context [?i <? 0] => destruct (Z.ltb_spec i 0); [lia|] end.
  rewrite !nth_overflow by (cbn [length]; lia). done.
Defined.

Lemma init_fails_on_undecodable_file_witness :
  demoInit newStore (Dir true [(keyA +:+ "@2x.png", FsFile [1; 2; 3])]) = Err DecodeError.
Proof.
  apply (init_fails_on_undecodable_file rawRead SHA256.hexdigest demoDir demoNamespace newStore
           [(keyA +:+ "@2x.png", FsFile [1; 2; 3])] (keyA +:+ "@2x.png") [1; 2; 3]).
  - apply (bool_decide_unpack _). vm_compute. exact I.
  - left.
  - vm_compute. reflexivity.
  - reflexivity.
Defined.

Lemma register_reference_shape_witness :
  exists s,
    ref_filePath (refOf infoFreshA)
    = path_join demoDir ((SHARED_TEXTURE_PREFIX +:+ s) +:+ "@2x.png")
    /\ ref_texturePath (refOf infoFreshA)
       = texturePathForKey demoNamespace (SHARED_TEXTURE_PREFIX +:+ s).
Proof.
  destruct (proj2 (register_reference_shape rawRead SHA256.hexdigest demoDir demoNamespace
                     newStore NoDir (newStore_canonical demoDir demoNamespace))
              bufA (refOf infoFreshA) stFreshA fsFreshA
              (register_fresh rawRead SHA256.hexdigest demoDir demoNamespace NoDir bufA pixA
                 eq_refl eq_refl))
    as (_ & s & _ & Hfile & Htexture).
  by exists s.
Defined.

Lemma reference_stable_across_registrations_witness :
  demoRegister stABC.1 stABC.2 bufA' = Ok (refOfKey keyA, stABC.1, stABC.2).
Proof.
  apply (reference_stable_across_registrations rawRead SHA256.hexdigest demoDir demoNamespace
           newStore NoDir bufA bufA' pixA (refOfKey keyA) stA.1 stA.2
           [bufB; bufC] [refOfKey keyA; refOfKey keyC]).
  - apply newStore_canonical.
  - reflexivity.
  - reflexivity.
  - vm_compute. reflexivity.
  - vm_compute. reflexivity.
Defined.

Lemma registered_files_exist_witness :
  filesPresent demoDir stFreshA fsFreshA
  /\ exists_ demoDir fsFreshA (ref_filePath (refOf infoFreshA)) = true.
Proof.
  apply (proj1 (proj2 (registered_files_exist rawRead SHA256.hexdigest demoDir demoNamespace
                         newStore NoDir (newStore_filesPresent demoDir NoDir)))
           bufA (refOf infoFreshA) stFreshA fsFreshA).
  by apply register_fresh.
Defined.

Lemma prune_idempotent_witness :
  pruneUnusedSharedTextures demoDir demoNamespace demoDocuments
    (Dir true [ (keyA +:+ "@2x.png", FsFile bufA); (keyC +:+ "@2x.png", FsFile bufC) ])
  = Ok (Dir true [ (keyA +:+ "@2x.png", FsFile bufA); (keyC +:+ "@2x.png", FsFile bufC) ], 0).
Proof.
  apply (prune_idempotent demoDir demoNamespace demoDocuments (Dir true demoShared)
           (Dir true [ (keyA +:+ "@2x.png", FsFile bufA); (keyC +:+ "@2x.png", FsFile bufC) ]) 1).
  - apply (bool_decide_unpack _). vm_compute. exact I.
  - vm_compute. reflexivity.
Defined.

Lemma demoShared_decode : storeFilesDecode rawRead demoShared.
Proof.
  intros name content Hin _.
  apply elem_of_cons in Hin as [Hin|Hin]; [inversion Hin; subst; vm_compute; by eexists|].
  apply elem_of_cons in Hin as [Hin|Hin]; [inversion Hin; subst; vm_compute; by eexists|].
  apply list_elem_of_singleton in Hin. inversion Hin; subst. vm_compute. by eexists.
Qed.

Lemma pruned_store_knows_used_keys_witness :
  exists fs' deleted st,
    pruneUnusedSharedTextures demoDir demoNamespace demoDocuments (Dir true demoShared)
    = Ok (fs', deleted)
    /\ demoInit newStore fs' = Ok (st, fs')
    /\ forall k, is_Some (keyToInfo st !! k)
                 <-> k ∈ collectUsedKeys demoNamespace demoDocuments
                     /\ exists entry, entry ∈ demoShared /\ storeFileKey entry = Some k.
Proof.
  apply (pruned_store_knows_used_keys rawRead SHA256.hexdigest demoDir demoNamespace
           demoDocuments demoShared).
  - apply (bool_decide_unpack _). vm_compute. exact I.
  - apply demoShared_decode.
Defined.

Lemma init_independent_of_listing_order_witness :
  exists st',
    demoInit newStore (Dir true demoEntries) = Ok (st', Dir true demoEntries)
    /\ demoInit newStore
         (Dir true [ ("notes.txt", FsFile [110; 111; 116; 101]);
                     (keyA +:+ "@2x.png", FsFile bufA);
                     (keyC +:+ "@2x.png", FsDir) ])
       = Ok (st', Dir true [ ("notes.txt", FsFile [110; 111; 116; 101]);
                             (keyA +:+ "@2x.png", FsFile bufA);
                             (keyC +:+ "@2x.png", FsDir) ]).
Proof.
  apply (init_independent_of_listing_order rawRead SHA256.hexdigest demoDir demoNamespace
           newStore demoEntries).
  - apply perm_swap.
  - apply (bool_decide_unpack _). vm_compute. exact I.
  - intros name content Hin Hfile.
    apply elem_of_cons in Hin as [Hin|Hin]; [inversion Hin; subst; vm_compute; by eexists|].
    apply elem_of_cons in Hin as [Hin|Hin]; [inversion Hin; subst; discriminate|].
    apply list_elem_of_singleton in Hin. discriminate.
  - intros name k decoded (content & Hin & Hname & Hdecoded).
    apply elem_of_cons in Hin as [Hin|Hin].
    + inversion Hin; subst. vm_compute in Hname, Hdecoded.
      inversion Hname; subst k. inversion Hdecoded; subst decoded. vm_compute. reflexivity.
    + apply elem_of_cons in Hin as [Hin|Hin]; [inversion Hin; subst; discriminate|].
      apply list_elem_of_singleton in Hin. discriminate.
Defined.

Lemma rehydration_fidelity_witness :
  exists st',
    demoInit newStore fsFreshA = Ok (st', fsFreshA)
    /\ keyToInfo st' = keyToInfo stFreshA /\ bucketToKeys st' = bucketToKeys stFreshA
    /\ exactHashToKey st' ⊆ exactHashToKey stFreshA.
Proof.
  apply (rehydration_fidelity rawRead SHA256.hexdigest demoDir demoNamespace
           NoDir newStore (Dir true []) [bufA] [refOf infoFreshA] stFreshA fsFreshA).
  - apply sha256_hex64.
  - split; [apply NoDup_nil_2|]. split; [intros n c Hin; by apply elem_of_nil in Hin|].
    split; [intros n k d (c & Hin & _); by apply elem_of_nil in Hin|].
    intros n Hin. by apply elem_of_nil in Hin.
  - reflexivity.
  - cbn [registerAll].
    rewrite (register_fresh rawRead SHA256.hexdigest demoDir demoNamespace (Dir true []) bufA pixA
               eq_refl eq_refl).
    reflexivity.
Defined.

(** ** The mutex never blocks *)
Module MutexProgress.
Import Mutex MutexFacts MutexWork.

Lemma sum_list_with_insert {A} (f : A -> nat) (l : list A) i x y :
  l !! i = Some x ->
  (sum_list_with f (<[i := y]> l) + f x = sum_list_with f l + f y)%nat.
Proof.
  revert i. induction l as [|z l IH]; intros [|i] H; try done.
  - simpl in H. inversion H; subst. simpl. lia.
  - simpl in H. simpl. specialize (IH i H). lia.
Qed.

Lemma sum_list_with_le {A} (f g : A -> nat) (l : list A) :
  (forall x, x ∈ l -> (f x <= g x)%nat) -> (sum_list_with f l <= sum_list_with g l)%nat.
Proof.
  induction l as [|z l IH]; intros H; cbn [sum_list_with]; [done|].
  pose proof (H z ltac:(left)). assert (forall x, x ∈ l -> (f x <= g x)%nat) as H' by
    (intros x Hx; apply H; by right).
  specialize (IH H'). lia.
Qed.

Lemma sum_list_with_lt {A} (f g : A -> nat) (l : list A) y :
  (forall x, x ∈ l -> (f x <= g x)%nat) -> y ∈ l -> (f y < g y)%nat ->
  (sum_list_with f l < sum_list_with g l)%nat.
Proof.
  induction l as [|z l IH]; intros H Hy Hlt; [by apply elem_of_nil in Hy|].
  cbn [sum_list_with]. pose proof (H z ltac:(left)).
  assert (forall x, x ∈ l -> (f x <= g x)%nat) as H' by (intros x Hx; apply H; by right).
  apply elem_of_cons in Hy as [->|Hy].
  - pose proof (sum_list_with_le f g l H'). lia.
  - specialize (IH H' Hy Hlt). lia.
Qed.

Lemma sum_list_with_pos {A} (f : A -> nat) (l : list A) :
  (0 < sum_list_with f l)%nat -> exists x, x ∈ l /\ (0 < f x)%nat.
Proof.
  induction l as [|z l IH]; cbn [sum_list_with]; [lia|]. intros H.
  destruct (f z) eqn:Hz.
  - destruct (IH H) as (x & Hx & Hpos). exists x. split; [by right|done].
  - exists z. split; [left|lia].
Qed.

Lemma sum_list_with_zero {A} (f : A -> nat) (l : list A) x :
  sum_list_with f l = 0%nat -> x ∈ l -> f x = 0%nat.
Proof.
  induction l as [|z l IH]; intros H Hx; [by apply elem_of_nil in Hx|].
  cbn [sum_list_with] in H. apply elem_of_cons in Hx as [->|Hx]; [lia|]. apply IH; [lia|done].
Qed.

Lemma step_endedSettled s s' : invariant s -> endedSettled s -> step s s' -> endedSettled s'.
Proof.
  intros Hinv Hs Hstep.
  destruct Hstep as [s n | s i c Hi Hp Hset | s i c n Hi Hp | s i c Hi Hp | s i c Hi Hset];
    unfold synchronized, settle, advance; intros j c'; cbn [settled mutex calls].
  - rewrite lookup_app. destruct (calls s !! j) eqn:Hj.
    + intros [= <-] Hfin. rewrite isSettled_app.
      pose proof (Hs j _ Hj Hfin) as Hset. apply isSettled_lt in Hset as Hlt.
      by rewrite decide_True.
    + destruct (j - length (calls s))%nat as [|d]; [|done]. by intros [= <-].
  - intros [[-> ->]|[Hne Hj]]%(lookup_setProgress _ _ c) Hfin; [done| |done]. by apply (Hs j).
  - intros [[-> ->]|[Hne Hj]]%(lookup_setProgress _ _ c) Hfin; [done| |done]. by apply (Hs j).
  - pose proof (lookup_lt_Some _ _ _ Hi) as Hlt.
    destruct (inv_ids s Hinv i c Hi) as (_ & Hr & _).
    intros [[-> ->]|[Hne Hj]]%(lookup_setProgress _ _ c) Hfin; [|  |done].
    + apply isSettled_insert. left. split; [done|]. rewrite (inv_length s Hinv), Hr. lia.
    + apply isSettled_insert. right. by apply (Hs j).
  - intros Hj Hfin. apply isSettled_insert. right. by apply (Hs j).
Qed.

Lemma reachable_endedSettled s : reachable s -> invariant s /\ endedSettled s.
Proof.
  unfold reachable. revert s. apply rtc_ind_r.
  - split; [apply initial_invariant|]. intros i c H. simpl in H. by rewrite lookup_nil in H.
  - intros y z _ Hstep [Hinv Hy]. split; [by eapply step_invariant|by eapply step_endedSettled].
Qed.

Lemma workOf_advance s i c p c' : workOf (advance s i c p) c' = workOf s c'.
Proof. done. Qed.

Lemma work_advance s i c p :
  calls s !! i = Some c -> (callWork (setProgress c p) < callWork c)%nat ->
  (work (advance s i c p) < work s)%nat.
Proof.
  intros Hi Hlt. unfold work. cbn [advance calls].
  pose proof (sum_list_with_insert (workOf s) (calls s) i c (setProgress c p) Hi) as Hsum.
  assert (sum_list_with (workOf (advance s i c p)) (<[i:=setProgress c p]> (calls s))
          = sum_list_with (workOf s) (<[i:=setProgress c p]> (calls s))) as -> by done.
  unfold workOf in Hsum at 2 4. cbn [setProgress released] in Hsum. lia.
Qed.

Lemma workOf_settle s p c : (workOf (settle s p) c <= workOf s c)%nat.
Proof.
  unfold workOf. destruct (isSettled s (released c)) eqn:Hs.
  - assert (isSettled (settle s p) (released c) = true) as ->; [|done].
    apply isSettled_insert. by right.
  - destruct (isSettled (settle s p) (released c)); lia.
Qed.

Lemma work_settle s p : (work (settle s p) <= work s)%nat.
Proof. unfold work. apply sum_list_with_le. intros c _. apply workOf_settle. Qed.

Lemma work_release s i c :
  calls s !! i = Some c -> isSettled s (released c) = false ->
  (released c < length (settled s))%nat ->
  (work (settle s (released c)) < work s)%nat.
Proof.
  intros Hi Hunsettled Hlt. unfold work. cbn [settle calls].
  apply (sum_list_with_lt _ _ _ c).
  - intros c' _. apply workOf_settle.
  - by eapply list_elem_of_lookup_2.
  - unfold workOf. rewrite Hunsettled.
    assert (isSettled (settle s (released c)) (released c) = true) as ->; [|lia].
    apply isSettled_insert. by left.
Qed.

(** A call that has not ended, or one before it, can take a turn. *)
Lemma unfinished_call_moves s :
  invariant s -> endedSettled s ->
  forall i c, calls s !! i = Some c -> progress c <> Finished ->
  exists s', step s s' /\ length (calls s') = length (calls s) /\ (work s' < work s)%nat.
Proof.
  intros Hinv Hended. induction i as [|j IH]; intros c Hi Hunfinished.
  - destruct (progress c) as [|[|n]|] eqn:Hp; [| | |done].
    + exists (advance s 0 c (Running (awaits c))). split; [|split].
      * apply step_start; [done|done|].
        destruct (inv_ids s Hinv 0%nat c Hi) as (-> & _). apply (inv_first s Hinv).
      * cbn [advance calls]. by rewrite length_insert.
      * apply work_advance; [done|]. unfold callWork. rewrite Hp. cbn. lia.
    + exists (settle (advance s 0 c Finished) (run c)). split; [|split].
      * by apply step_finish.
      * cbn [settle advance calls]. by rewrite length_insert.
      * eapply Nat.le_lt_trans; [apply work_settle|].
        apply work_advance; [done|]. unfold callWork. rewrite Hp. cbn. lia.
    + exists (advance s 0 c (Running n)). split; [|split].
      * by eapply step_resume.
      * cbn [advance calls]. by rewrite length_insert.
      * apply work_advance; [done|]. unfold callWork. rewrite Hp. cbn. lia.
  - destruct (progress c) as [|[|n]|] eqn:Hp; [| | |done].
    + assert (is_Some (calls s !! j)) as [c' Hj].
      { apply lookup_lt_is_Some. apply lookup_lt_Some in Hi. lia. }
      assert (progress c' = Finished \/ progress c' <> Finished) as [Hfin|Hnot]
        by (destruct (progress c'); [right|right|left]; done).
      2: by apply (IH c').
      destruct (inv_ids s Hinv (S j) c Hi) as (Hw & _).
      destruct (inv_ids s Hinv j c' Hj) as (_ & Hr & Hrel).
      destruct (isSettled s (waitsFor c)) eqn:Hset.
      * exists (advance s (S j) c (Running (awaits c))). split; [|split].
        -- by apply step_start.
        -- cbn [advance calls]. by rewrite length_insert.
        -- apply work_advance; [done|]. unfold callWork. rewrite Hp. cbn. lia.
      * exists (settle s (released c')). split; [|split].
        -- eapply step_release; [done|]. by apply (Hended j).
        -- done.
        -- apply (work_release s j c' Hj).
           ++ rewrite Hrel. rewrite Hw in Hset. by replace (2 * S j)%nat with (S (S (2 * j))) in Hset by lia.
           ++ rewrite (inv_length s Hinv), Hrel. apply lookup_lt_Some in Hj. lia.
    + exists (settle (advance s (S j) c Finished) (run c)). split; [|split].
      * by apply step_finish.
      * cbn [settle advance calls]. by rewrite length_insert.
      * eapply Nat.le_lt_trans; [apply work_settle|].
        apply work_advance; [done|]. unfold callWork. rewrite Hp. cbn. lia.
    + exists (advance s (S j) c (Running n)). split; [|split].
      * by eapply step_resume.
      * cbn [advance calls]. by rewrite length_insert.
      * apply work_advance; [done|]. unfold callWork. rewrite Hp. cbn. lia.
Qed.

(** X14. The mutex never blocks, whether the bodies return or throw.
    In every state the store can reach: as long as a call made has not
    ended, or the promise it left in [this.mutex] is not settled, some
    job can run that brings the calls made nearer their end; no job
    takes them farther from it; and when nothing is left to do every
    call made has ended and the promise in [this.mutex] is settled, so
    that the next call starts at its first turn. *)
Theorem mutex_never_blocks s :
  reachable s ->
  ((0 < work s)%nat ->
   exists s', step s s' /\ length (calls s') = length (calls s) /\ (work s' < work s)%nat)
  /\ (forall s', step s s' -> length (calls s') = length (calls s) -> (work s' <= work s)%nat)
  /\ (work s = 0%nat ->
      (forall c, c ∈ calls s -> progress c = Finished) /\ isSettled s (mutex s) = true).
Proof.
  intros [Hinv Hended]%reachable_endedSettled. split; [|split].
  - intros (c & Hc & Hpos)%sum_list_with_pos.
    apply list_elem_of_lookup_1 in Hc as [i Hi].
    assert (progress c = Finished \/ progress c <> Finished) as [Hfin|Hnot]
      by (destruct (progress c); [right|right|left]; done).
    2: by apply (unfinished_call_moves s Hinv Hended i c).
    assert (isSettled s (released c) = false) as Hunsettled.
    { unfold workOf, callWork in Hpos. rewrite Hfin in Hpos.
      destruct (isSettled s (released c)); [cbn in Hpos; lia|done]. }
    exists (settle s (released c)). split; [|split].
    + eapply step_release; [done|]. by apply (Hended i).
    + done.
    + apply (work_release s i c Hi Hunsettled).
      destruct (inv_ids s Hinv i c Hi) as (_ & _ & ->).
      rewrite (inv_length s Hinv). apply lookup_lt_Some in Hi. lia.
  - intros s' Hstep Hlen.
    destruct Hstep as [s n | s i c Hi Hp Hset | s i c n Hi Hp | s i c Hi Hp | s i c Hi Hset].
    + cbn [synchronized calls] in Hlen. rewrite length_app in Hlen. cbn in Hlen. lia.
    + apply Nat.lt_le_incl, work_advance; [done|]. unfold callWork. rewrite Hp. cbn. lia.
    + apply Nat.lt_le_incl, work_advance; [done|]. unfold callWork. rewrite Hp. cbn. lia.
    + eapply Nat.le_trans; [apply work_settle|].
      apply Nat.lt_le_incl, work_advance; [done|]. unfold callWork. rewrite Hp. cbn. lia.
    + apply work_settle.
  - intros Hzero.
    assert (forall c, c ∈ calls s ->
              progress c = Finished /\ isSettled s (released c) = true) as Hall.
    { intros c Hc. pose proof (sum_list_with_zero _ _ c Hzero Hc) as H.
      unfold workOf, callWork in H.
      destruct (progress c) as [|n|]; [lia|lia|]. split; [done|].
      destruct (isSettled s (released c)); [done|lia]. }
    split; [intros c Hc; by apply Hall|].
    rewrite (inv_mutex s Hinv).
    destruct (length (calls s)) as [|m] eqn:Hlen; [apply (inv_first s Hinv)|].
    assert (is_Some (calls s !! m)) as [c0 Hlast] by (apply lookup_lt_is_Some; lia).
    destruct (inv_ids s Hinv _ c0 Hlast) as (_ & _ & Hrel).
    destruct (Hall c0) as [_ Hset]; [by eapply list_elem_of_lookup_2|].
    rewrite Hrel in Hset. by replace (2 * S m)%nat with (S (S (2 * m))) by lia.
Qed.
End MutexProgress.

Lemma mutex_never_blocks_witness :
  (0 < MutexWork.work demoCalls)%nat
  /\ exists s', Mutex.step demoCalls s'
                /\ length (Mutex.calls s') = length (Mutex.calls demoCalls)
                /\ (MutexWork.work s' < MutexWork.work demoCalls)%nat.
Proof.
  assert (Mutex.reachable demoCalls) as Hreach.
  { unfold Mutex.reachable, demoCalls.
    eapply rtc_l; [apply (Mutex.step_synchronized _ 2)|].
    eapply rtc_l; [apply (Mutex.step_synchronized _ 1)|].
    eapply rtc_l; [by eapply (Mutex.step_start _ 0)|].
    eapply rtc_l; [by eapply (Mutex.step_resume _ 0)|].
    apply rtc_refl. }
  assert (0 < MutexWork.work demoCalls)%nat as Hwork by (vm_compute; lia).
  split; [exact Hwork|].
  exact (proj1 (MutexProgress.mutex_never_blocks demoCalls Hreach) Hwork).
Defined.

(** ** The utilities: escapes, names, the walk of a directory, the command line *)
(** ** utils.ts: escapes and sanitisers *)

Lemma string_app_nil_r (s : string) : s +:+ "" = s.
Proof. induction s as [|c s IH]; [done|]. change (String c (s +:+ "") = String c s). by rewrite IH. Qed.

Lemma replaceEach_app f s1 s2 :
  replaceEach f (s1 +:+ s2) = replaceEach f s1 +:+ replaceEach f s2.
Proof.
  induction s1 as [|c s1 IH]; [done|].
  change (f c +:+ replaceEach f (s1 +:+ s2) = (f c +:+ replaceEach f s1) +:+ replaceEach f s2).
  by rewrite IH, append_assoc.
Qed.

Lemma replaceEach_replaceEach f g s :
  replaceEach g (replaceEach f s) = replaceEach (fun c => replaceEach g (f c)) s.
Proof.
  induction s as [|c s IH]; [done|]. cbn [replaceEach]. by rewrite replaceEach_app, IH.
Qed.

Lemma replaceEach_ext f g s : (forall c, f c = g c) -> replaceEach f s = replaceEach g s.
Proof. intros H. induction s as [|c s IH]; [done|]. cbn [replaceEach]. by rewrite H, IH. Qed.

Lemma allChars_app f s1 s2 : allChars f (s1 +:+ s2) = allChars f s1 && allChars f s2.
Proof.
  unfold allChars. induction s1 as [|c s1 IH]; [done|].
  change (f c && forallb f (list_ascii_of_string (s1 +:+ s2))
          = f c && forallb f (list_ascii_of_string s1) && forallb f (list_ascii_of_string s2)).
  by rewrite IH, andb_assoc.
Qed.

Lemma allChars_replaceEach p f s :
  (forall c, allChars p (f c) = true) -> allChars p (replaceEach f s) = true.
Proof.
  intros H. induction s as [|c s IH]; [done|]. cbn [replaceEach]. by rewrite allChars_app, H, IH.
Qed.

(** *** escapeRegExp *)

Lemma literalOfPattern_escapeRegExp s p :
  literalOfPattern (escapeRegExp s +:+ p) = (fun t => s +:+ t) <$> literalOfPattern p.
Proof.
  induction s as [|c s IH].
  - change (escapeRegExp "" +:+ p) with p. destruct (literalOfPattern p); reflexivity.
  - unfold escapeRegExp. cbn [replaceEach]. fold (escapeRegExp s).
    destruct (isSyntaxCharacter c) eqn:Hc.
    + change (literalOfPattern (String backslash (String c (escapeRegExp s +:+ p)))
              = (fun t => String c s +:+ t) <$> literalOfPattern p).
      cbn [literalOfPattern]. rewrite Ascii.eqb_refl, Hc, IH.
      destruct (literalOfPattern p); reflexivity.
    + change (literalOfPattern (String c (escapeRegExp s +:+ p))
              = (fun t => String c s +:+ t) <$> literalOfPattern p).
      cbn [literalOfPattern]. rewrite Hc.
      assert (Ascii.eqb c backslash = false) as ->.
      { destruct (Ascii.eqb_spec c backslash) as [->|]; [|done]. by vm_compute in Hc. }
      rewrite IH. destruct (literalOfPattern p); reflexivity.
Qed.

(** X15. The pattern that [escapeRegExp] makes of a text matches that
    text and nothing else: every syntax character of the text comes
    behind a backslash and every other character stands for itself.
    So the namespace is met to the letter by the pattern of
    [pruneUnusedSharedTextures], whatever characters it holds. *)
Theorem escapeRegExp_matches_the_text s :
  literalOfPattern (escapeRegExp s) = Some s
  /\ literalOfPattern (escapeRegExp s +:+ "/" +:+ SHARED_TEXTURES_DIR +:+ "/")
     = Some (s +:+ "/" +:+ SHARED_TEXTURES_DIR +:+ "/")
  /\ (allChars (fun c => negb (isSyntaxCharacter c)) s = true -> escapeRegExp s = s).
Proof.
  split; [|split].
  - pose proof (literalOfPattern_escapeRegExp s "") as H.
    rewrite string_app_nil_r in H. rewrite H. cbn. by rewrite string_app_nil_r.
  - rewrite literalOfPattern_escapeRegExp. by vm_compute (literalOfPattern _).
  - unfold allChars, escapeRegExp. induction s as [|c s IH]; [done|].
    cbn [list_ascii_of_string forallb replaceEach]. intros [Hc Hs]%andb_prop.
    apply negb_true_iff in Hc. rewrite Hc, IH by done. done.
Qed.

(** *** escapeUiString *)

Lemma escapeUiString_each s : escapeUiString s = replaceEach uiEscapeOf s.
Proof.
  unfold escapeUiString, replaceChar. rewrite !replaceEach_replaceEach.
  apply replaceEach_ext. intros c. unfold uiEscapeOf.
  destruct (Ascii.eqb_spec c backslash) as [->|Hb]; [done|].
  cbn [replaceEach]. destruct (Ascii.eqb_spec c doubleQuote) as [->|Hq]; [done|].
  cbn [replaceEach]. by destruct (Ascii.eqb_spec c lineFeed) as [->|Hn].
Qed.

Lemma escapeUiString_cons c s :
  escapeUiString (String c s) = uiEscapeOf c +:+ escapeUiString s.
Proof. by rewrite !escapeUiString_each. Qed.

Lemma literalBody_uiEscapeOf c rest : literalBody (uiEscapeOf c +:+ rest) = literalBody rest.
Proof.
  unfold uiEscapeOf.
  destruct (Ascii.eqb_spec c backslash) as [->|Hb]; [done|].
  destruct (Ascii.eqb_spec c doubleQuote) as [->|Hq]; [done|].
  destruct (Ascii.eqb_spec c lineFeed) as [->|Hn]; [done|].
  change (literalBody (String c rest) = literalBody rest). cbn [literalBody].
  apply Ascii.eqb_neq in Hb, Hq. by rewrite Hq, Hb.
Qed.

Lemma unescapeUiString_uiEscapeOf c rest :
  unescapeUiString (uiEscapeOf c +:+ rest) = String c (unescapeUiString rest).
Proof.
  unfold uiEscapeOf.
  destruct (Ascii.eqb_spec c backslash) as [->|Hb]; [done|].
  destruct (Ascii.eqb_spec c doubleQuote) as [->|Hq]; [done|].
  destruct (Ascii.eqb_spec c lineFeed) as [->|Hn]; [done|].
  change (unescapeUiString (String c rest) = String c (unescapeUiString rest)).
  cbn [unescapeUiString]. apply Ascii.eqb_neq in Hb. by rewrite Hb.
Qed.

Lemma unescape_escapeUiString s : unescapeUiString (escapeUiString s) = s.
Proof.
  induction s as [|c s IH]; [done|].
  by rewrite escapeUiString_cons, unescapeUiString_uiEscapeOf, IH.
Qed.

Lemma escapeUiString_plain s : allChars uiPlain s = true -> escapeUiString s = s.
Proof.
  unfold allChars. induction s as [|c s IH]; [done|].
  cbn [list_ascii_of_string forallb]. intros [Hc Hs]%andb_prop.
  rewrite escapeUiString_cons, IH by done.
  apply negb_true_iff, orb_false_elim in Hc as [[Hb Hq]%orb_false_elim Hn].
  unfold uiEscapeOf. by rewrite Hb, Hq, Hn.
Qed.

(** X16. What [escapeUiString] makes of a text, put between quotes as
    [buildUiFile] does, is a string literal for the validator
    ([STRING_LITERAL_PATTERN]), whatever the text; the text is read back
    from it, so that two texts never give the same literal; and a text
    without backslash, quote and line feed is left as it is. *)
Theorem escapeUiString_gives_string_literal s :
  matchesStringLiteral (String doubleQuote (escapeUiString s +:+ String doubleQuote "")) = true
  /\ unescapeUiString (escapeUiString s) = s
  /\ (forall s', escapeUiString s = escapeUiString s' -> s = s')
  /\ (allChars uiPlain s = true -> escapeUiString s = s).
Proof.
  split; [|split; [|split]].
  - cbn [matchesStringLiteral]. rewrite Ascii.eqb_refl. cbn [andb].
    induction s as [|c s IH]; [done|].
    by rewrite escapeUiString_cons, append_assoc, literalBody_uiEscapeOf.
  - apply unescape_escapeUiString.
  - intros s' H. apply (f_equal unescapeUiString) in H.
    by rewrite !unescape_escapeUiString in H.
  - apply escapeUiString_plain.
Qed.

(** *** The sanitisers *)

Lemma allChars_filterString f s : allChars f (filterString f s) = true.
Proof.
  unfold allChars. induction s as [|c s IH]; [done|]. cbn [filterString].
  destruct (f c) eqn:Hc; [|done]. cbn [list_ascii_of_string forallb]. by rewrite Hc.
Qed.

Lemma filterString_all f s : allChars f s = true -> filterString f s = s.
Proof.
  unfold allChars. induction s as [|c s IH]; [done|].
  cbn [list_ascii_of_string forallb filterString]. intros [Hc Hs]%andb_prop.
  by rewrite Hc, IH.
Qed.

Lemma isAlpha_isAlnum c : isAlpha c = true -> isAlnum c = true.
Proof. unfold isAlnum. by intros ->. Qed.

Lemma sanitizeId_shapes value :
  (sanitizeId value = "Element" /\ filterString isAlnum value = "")
  \/ (exists c rest, filterString isAlnum value = String c rest
                     /\ allChars isAlnum (String c rest) = true
                     /\ ((isAlpha c = true /\ sanitizeId value = String c rest)
                         \/ (isAlpha c = false /\ sanitizeId value = "E" +:+ String c rest))).
Proof.
  unfold sanitizeId. pose proof (allChars_filterString isAlnum value) as Hall.
  destruct (filterString isAlnum value) as [|c rest]; [by left|].
  right. exists c, rest. split; [done|]. split; [done|].
  destruct (isAlpha c); [left|right]; done.
Qed.

(** X17. [sanitizeId] gives an identifier, whatever it is given: a
    letter followed by letters and digits ([IDENTIFIER_PATTERN] of the
    validator), so that [#<id>] is an element name the validator
    reads. What it gives it leaves as it is. *)
Theorem sanitizeId_gives_identifier value :
  matchesIdentifier (sanitizeId value) = true
  /\ sanitizeId (sanitizeId value) = sanitizeId value.
Proof.
  destruct (sanitizeId_shapes value)
    as [[-> _]|(c & rest & Hclean & Hall & [[Hc ->]|[Hc ->]])]; [done| |].
  - split.
    + cbn [matchesIdentifier]. rewrite Hc. cbn [andb].
      unfold allChars in *. cbn [list_ascii_of_string forallb] in Hall.
      by apply andb_prop in Hall as [_ ->].
    + unfold sanitizeId. rewrite (filterString_all isAlnum _ Hall). by rewrite Hc.
  - change ("E" +:+ String c rest) with (String "E" (String c rest)). split.
    + cbn [matchesIdentifier]. by rewrite Hall.
    + unfold sanitizeId.
      assert (allChars isAlnum (String "E" (String c rest)) = true) as Hall'.
      { unfold allChars in *. cbn [list_ascii_of_string forallb] in *. by rewrite Hall. }
      by rewrite (filterString_all isAlnum _ Hall').
Qed.

Lemma length_mapString f s : String.length (mapString f s) = String.length s.
Proof. induction s as [|c s IH]; [done|]. cbn. by rewrite IH. Qed.

Lemma isPathSafe_underscore : isPathSafe "_" = true.
Proof. done. Qed.

Lemma allChars_mapString p f s : (forall c, p (f c) = true) -> allChars p (mapString f s) = true.
Proof.
  intros H. unfold allChars. induction s as [|c s IH]; [done|].
  cbn [mapString list_ascii_of_string forallb]. by rewrite H, IH.
Qed.

Lemma mapString_id_on p f s :
  (forall c, p c = true -> f c = c) -> allChars p s = true -> mapString f s = s.
Proof.
  intros H. unfold allChars. induction s as [|c s IH]; [done|].
  cbn [mapString list_ascii_of_string forallb]. intros [Hc Hs]%andb_prop.
  by rewrite (H c Hc), IH.
Qed.

(** X18. [sanitizePathSegment] gives a name that is not empty and made
    of letters, digits, [_] and [-] only: no separator, no dot, nothing
    that leaves the directory the name is joined to. A text that is not
    empty keeps its length, each other unit giving way to one [_]; and
    what the function gives it leaves as it is. *)
Theorem sanitizePathSegment_gives_safe_name value :
  allChars isPathSafe (sanitizePathSegment value) = true
  /\ sanitizePathSegment value <> ""
  /\ (value <> "" -> String.length (sanitizePathSegment value) = String.length value)
  /\ sanitizePathSegment (sanitizePathSegment value) = sanitizePathSegment value.
Proof.
  assert (forall c, isPathSafe (if isPathSafe c then c else "_"%char) = true) as Hsafe.
  { intros c. by destruct (isPathSafe c) eqn:Hc. }
  assert (forall s, allChars isPathSafe s = true -> s <> "" -> sanitizePathSegment s = s) as Hfix.
  { intros s Hs Hne. unfold sanitizePathSegment.
    rewrite (mapString_id_on isPathSafe); [|by intros c ->|done].
    destruct s; [done|]. done. }
  unfold sanitizePathSegment at 1 2 3.
  pose proof (allChars_mapString isPathSafe _ value Hsafe) as Hall.
  pose proof (length_mapString (fun c => if isPathSafe c then c else "_"%char) value) as Hlen.
  destruct value as [|c value].
  - split; [done|]. split; [done|]. split; [done|]. done.
  - set (cleaned := mapString _ (String c value)) in *.
    assert ((0 <? String.length cleaned)%nat = true) as Hpos.
    { apply Nat.ltb_lt. rewrite Hlen. cbn. lia. }
    rewrite Hpos. split; [done|].
    assert (cleaned <> "") as Hne.
    { intros Heq. rewrite Heq in Hlen. cbn in Hlen. lia. }
    split; [done|]. split; [done|]. unfold sanitizePathSegment at 2.
    fold cleaned. rewrite Hpos. by apply Hfix.
Qed.

(** *** toPascalCase *)

Lemma allChars_ext f g s : (forall c, f c = g c) -> allChars f s = allChars g s.
Proof.
  intros Hfg. unfold allChars. induction s as [|c s IH]; [done|].
  cbn [list_ascii_of_string forallb]. by rewrite Hfg, IH.
Qed.

Lemma toUpper_alnum c : isAlnum c = true -> isAlnum (toUpper c) = true.
Proof. destruct c as [[] [] [] [] [] [] [] []]; vm_compute; done. Qed.

Lemma toUpper_not_lower c : isLower (toUpper c) = false.
Proof. destruct c as [[] [] [] [] [] [] [] []]; vm_compute; done. Qed.

Lemma toUpper_fixed c : isLower c = false -> toUpper c = c.
Proof. unfold toUpper. by intros ->. Qed.

Lemma splitOn_pieces isSep s : forall piece inRun,
  allChars (fun c => negb (isSep c)) piece = true ->
  Forall (fun p => allChars (fun c => negb (isSep c)) p = true) (splitOn isSep s piece inRun).
Proof.
  induction s as [|c s IH]; intros piece inRun Hpiece; cbn [splitOn].
  - by constructor.
  - destruct (isSep c) eqn:Hc.
    + destruct inRun; [by apply IH|]. apply Forall_cons. split; [done|]. by apply IH.
    + apply IH. rewrite allChars_app, Hpiece. unfold allChars. cbn. by rewrite Hc.
Qed.

Lemma splitOn_no_separator isSep s : forall piece,
  allChars (fun c => negb (isSep c)) s = true ->
  splitOn isSep s piece false = [piece +:+ s].
Proof.
  unfold allChars. induction s as [|c s IH]; intros piece; cbn [splitOn list_ascii_of_string forallb].
  - intros _. by rewrite string_app_nil_r.
  - intros [Hc Hs]%andb_prop. apply negb_true_iff in Hc. rewrite Hc, IH by done.
    by rewrite append_assoc.
Qed.

Lemma capitalize_alnum p : allChars isAlnum p = true -> allChars isAlnum (capitalize p) = true.
Proof.
  unfold allChars. destruct p as [|c p]; [done|]. cbn [capitalize list_ascii_of_string forallb].
  intros [Hc Hp]%andb_prop. by rewrite toUpper_alnum.
Qed.

Lemma concat_alnum parts :
  Forall (fun p => allChars isAlnum p = true) parts ->
  allChars isAlnum (String.concat "" parts) = true.
Proof.
  induction parts as [|p [|q parts] IH]; intros H; [done| |].
  - by inversion H.
  - apply Forall_cons in H as [Hp H]. cbn [String.concat]. fold (String.concat "" (q :: parts)).
    change (allChars isAlnum (p +:+ ("" +:+ String.concat "" (q :: parts))) = true).
    change ("" +:+ ?x) with x. rewrite allChars_app, Hp. by apply IH.
Qed.

Lemma concat_head c rest parts :
  exists rest', String.concat "" (String c rest :: parts) = String c rest'.
Proof.
  destruct parts as [|q parts]; [by exists rest|].
  cbn [String.concat]. fold (String.concat "" (q :: parts)). by eexists.
Qed.

(** The result of [toPascalCase] when a part is found. *)
Lemma toPascalCase_parts value :
  toPascalCase value = "Page"
  \/ exists c rest, toPascalCase value = String (toUpper c) rest
                    /\ allChars isAlnum (String (toUpper c) rest) = true.
Proof.
  unfold toPascalCase.
  pose proof (splitOn_pieces (fun c => negb (isAlnum c)) value "" false eq_refl) as Hpieces.
  set (pieces := splitOn _ value "" false) in *.
  assert (Forall (fun p => allChars isAlnum p = true /\ p <> "") (List.filter nonEmpty pieces))
    as Hparts.
  { apply Forall_forall. intros p [Hin Hne]%list_elem_of_In%filter_In. split.
    - rewrite Forall_forall in Hpieces. apply list_elem_of_In, Hpieces in Hin.
      rewrite <- Hin. apply allChars_ext. intros c. by rewrite negb_involutive.
    - intros ->. done. }
  destruct (List.filter nonEmpty pieces) as [|p parts]; [by left|]. right.
  apply Forall_cons in Hparts as [[Hp Hne] Hparts].
  destruct p as [|c p]; [done|].
  destruct (concat_head (toUpper c) p (map capitalize parts)) as [rest' Hrest].
  exists c, rest'. cbn [map capitalize]. split; [done|]. rewrite <- Hrest.
  apply concat_alnum. apply Forall_cons. split.
  - by apply (capitalize_alnum (String c p)).
  - apply Forall_forall. intros q (q' & -> & Hq')%list_elem_of_fmap.
    apply capitalize_alnum. rewrite Forall_forall in Hparts. by apply Hparts.
Qed.

(** X19. [toPascalCase] gives a name that is not empty, made of letters
    and digits only, and that does not begin with a lower-case letter;
    what it gives it leaves as it is. *)
Theorem toPascalCase_gives_name value :
  allChars isAlnum (toPascalCase value) = true
  /\ (exists c rest, toPascalCase value = String c rest /\ isLower c = false)
  /\ toPascalCase (toPascalCase value) = toPascalCase value.
Proof.
  destruct (toPascalCase_parts value) as [->|(c & rest & -> & Hall)].
  - split; [done|]. split; [by eexists _, _|done].
  - split; [done|]. split; [eexists _, _; split; [done|apply toUpper_not_lower]|].
    unfold toPascalCase.
    rewrite (splitOn_no_separator (fun c => negb (isAlnum c))).
    + change ("" +:+ ?x) with x. cbn [List.filter nonEmpty String.eqb negb map capitalize String.concat].
      by rewrite (toUpper_fixed _ (toUpper_not_lower c)).
    + rewrite <- Hall. apply allChars_ext. intros d. by rewrite negb_involutive.
Qed.

(** *** escapeHtml *)

Lemma escapeHtml_each s : escapeHtml s = replaceEach htmlEscapeOf s.
Proof.
  unfold escapeHtml, replaceChar. rewrite !replaceEach_replaceEach.
  apply replaceEach_ext. intros c. unfold htmlEscapeOf.
  destruct (Ascii.eqb_spec c "&") as [->|H1]; [done|]. cbn [replaceEach].
  destruct (Ascii.eqb_spec c "<") as [->|H2]; [done|]. cbn [replaceEach].
  destruct (Ascii.eqb_spec c ">") as [->|H3]; [done|]. cbn [replaceEach].
  destruct (Ascii.eqb_spec c doubleQuote) as [->|H4]; [done|]. cbn [replaceEach].
  by destruct (Ascii.eqb_spec c singleQuote) as [->|H5].
Qed.

Lemma htmlEscapeOf_safe c : allChars (fun d => negb (isMarkup d)) (htmlEscapeOf c) = true.
Proof. destruct c as [[] [] [] [] [] [] [] []]; vm_compute; done. Qed.

Lemma htmlEscapeOf_inj c1 c2 r1 r2 :
  htmlEscapeOf c1 +:+ r1 = htmlEscapeOf c2 +:+ r2 -> c1 = c2 /\ r1 = r2.
Proof.
  unfold htmlEscapeOf.
  destruct (Ascii.eqb_spec c1 "&") as [->|A1]; [|
  destruct (Ascii.eqb_spec c1 "<") as [->|A2]; [|
  destruct (Ascii.eqb_spec c1 ">") as [->|A3]; [|
  destruct (Ascii.eqb_spec c1 doubleQuote) as [->|A4]; [|
  destruct (Ascii.eqb_spec c1 singleQuote) as [->|A5]]]]];
  (destruct (Ascii.eqb_spec c2 "&") as [->|B1]; [|
   destruct (Ascii.eqb_spec c2 "<") as [->|B2]; [|
   destruct (Ascii.eqb_spec c2 ">") as [->|B3]; [|
   destruct (Ascii.eqb_spec c2 doubleQuote) as [->|B4]; [|
   destruct (Ascii.eqb_spec c2 singleQuote) as [->|B5]]]]]);
  intros H; inversion H; subst; try done.
Qed.

(** X20. What [escapeHtml] gives holds no [<], no [>] and no quote,
    whatever the text, so that it opens no tag and closes no attribute
    value in the preview; two texts never give the same result; and a
    text without [&], [<], [>] and quotes is left as it is. *)
Theorem escapeHtml_gives_plain_text s :
  allChars (fun c => negb (isMarkup c)) (escapeHtml s) = true
  /\ (forall s', escapeHtml s = escapeHtml s' -> s = s')
  /\ (allChars (fun c => negb (isMarkup c || Ascii.eqb c "&")) s = true -> escapeHtml s = s).
Proof.
  split; [|split].
  - rewrite escapeHtml_each. apply allChars_replaceEach, htmlEscapeOf_safe.
  - rewrite escapeHtml_each. induction s as [|c s IH]; intros s'; rewrite escapeHtml_each.
    + destruct s' as [|c' s']; [done|]. cbn [replaceEach]. unfold htmlEscapeOf.
      repeat (destruct (Ascii.eqb _ _); [done|]). done.
    + destruct s' as [|c' s'].
      * cbn [replaceEach]. unfold htmlEscapeOf. repeat (destruct (Ascii.eqb _ _); [done|]). done.
      * cbn [replaceEach]. intros [-> H]%htmlEscapeOf_inj. f_equal. apply IH.
        by rewrite escapeHtml_each.
  - rewrite escapeHtml_each. unfold allChars. induction s as [|c s IH]; [done|].
    cbn [list_ascii_of_string forallb replaceEach]. intros [Hc Hs]%andb_prop. rewrite IH by done.
    apply negb_true_iff, orb_false_elim in Hc as [Hm Ha]. unfold isMarkup in Hm.
    apply orb_false_elim in Hm as [[[H1 H2]%orb_false_elim H3]%orb_false_elim H4].
    unfold htmlEscapeOf. by rewrite Ha, H1, H2, H3, H4.
Qed.

(** *** normalizeLayoutMode *)

Lemma toLower_lower c : isAlpha c = true -> isLower (toLower c) = true.
Proof. destruct c as [[] [] [] [] [] [] [] []]; vm_compute; done. Qed.

Lemma normalized_letters v :
  allChars isLower (mapString toLower (filterString isAlpha v)) = true.
Proof.
  unfold allChars. induction v as [|c v IH]; [done|]. cbn [filterString].
  destruct (isAlpha c) eqn:Hc; [|done].
  cbn [mapString list_ascii_of_string forallb]. by rewrite toLower_lower.
Qed.

Lemma normalize_lower s :
  allChars isLower s = true -> mapString toLower (filterString isAlpha s) = s.
Proof.
  unfold allChars. induction s as [|c s IH]; [done|].
  cbn [list_ascii_of_string forallb]. intros [Hc Hs]%andb_prop. cbn [filterString].
  assert (isAlpha c = true) as -> by (unfold isAlpha; rewrite Hc; apply orb_true_r).
  cbn [mapString]. rewrite IH by done. f_equal.
  unfold toLower. destruct (isUpper c) eqn:Hu; [|done].
  exfalso. revert Hc Hu. clear. destruct c as [[] [] [] [] [] [] [] []]; vm_compute; done.
Qed.

(** X21. [normalizeLayoutMode] leaves the modes it gives as they are,
    and its answer depends on the letters of the value alone, whatever
    their case and whatever stands between them. *)
Theorem normalizeLayoutMode_is_stable value :
  normalizeLayoutMode (normalizeLayoutMode value) = normalizeLayoutMode value
  /\ (forall v, value = Some v ->
        normalizeLayoutMode (Some (mapString toLower (filterString isAlpha v)))
        = normalizeLayoutMode value).
Proof.
  split.
  - destruct value as [v|]; [|done].
    assert (forall r, normalizeLayoutMode (Some v) = r -> normalizeLayoutMode r = r) as Hfix;
      [|by apply Hfix].
    intros r <-. unfold normalizeLayoutMode at 2 3.
    destruct (String.eqb v ""); [done|]. cbv zeta.
    repeat (destruct (String.eqb (mapString toLower (filterString isAlpha v)) _);
            [reflexivity|]).
    reflexivity.
  - intros v ->. unfold normalizeLayoutMode.
    rewrite (normalize_lower _ (normalized_letters v)).
    destruct (String.eqb_spec (mapString toLower (filterString isAlpha v)) "") as [Hn|Hn].
    + rewrite Hn. by destruct (String.eqb v "").
    + destruct (String.eqb_spec v "") as [->|Hv]; [done|]. done.
Qed.

(** *** From [register] to [prune]: a reference written in a [.ui] file *)

Lemma string_length_app s1 s2 :
  String.length (s1 +:+ s2) = (String.length s1 + String.length s2)%nat.
Proof. induction s1 as [|c s1 IH]; [done|]. simpl. by f_equal. Qed.

Lemma allChars_get f s : forall n c,
  allChars f s = true -> get n s = Some c -> f c = true.
Proof.
  unfold allChars. induction s as [|d s IH]; intros n c; [done|].
  cbn [list_ascii_of_string forallb]. intros [Hd Hs]%andb_prop.
  destruct n as [|n]; cbn [get]; [by intros [= <-]|]. by apply IH.
Qed.

Lemma isLowerHex_plain c : isLowerHex c = true -> uiPlain c = true.
Proof. destruct c as [[] [] [] [] [] [] [] []]; vm_compute; done. Qed.

Lemma texturePath_plain namespace h :
  allChars uiPlain namespace = true -> isHex64 h ->
  allChars uiPlain (texturePathForKey namespace (SHARED_TEXTURE_PREFIX +:+ h)) = true.
Proof.
  intros Hns [_ Hh]. unfold texturePathForKey. rewrite !allChars_app, Hns.
  assert (allChars uiPlain h = true) as ->; [|done].
  unfold allChars. revert Hh. generalize (list_ascii_of_string h). intros l.
  induction l as [|c l IH]; [done|]. cbn [forallb]. intros [Hc Hl]%andb_prop.
  by rewrite isLowerHex_plain, IH.
Qed.

Lemma texturePath_length namespace h :
  isHex64 h ->
  String.length (texturePathForKey namespace (SHARED_TEXTURE_PREFIX +:+ h))
  = referenceLength namespace.
Proof.
  intros [Hlen _]. unfold texturePathForKey, referenceLength.
  rewrite !string_length_app, Hlen. cbn [String.length SHARED_TEXTURES_DIR SHARED_TEXTURE_PREFIX].
  lia.
Qed.

(** A reference that follows a quote is matched: no match before it
    runs over the quote. *)
Lemma quoted_reference_matched namespace before rest h :
  allChars uiPlain namespace = true -> isHex64 h ->
  SHARED_TEXTURE_PREFIX +:+ h
  ∈ matchAll namespace 0
      (before +:+ String doubleQuote
         (texturePathForKey namespace (SHARED_TEXTURE_PREFIX +:+ h) +:+ rest)).
Proof.
  intros Hns Hh.
  set (text := before +:+ _).
  assert (get (String.length before) text = Some doubleQuote) as Hquote.
  { unfold text. by rewrite <- (append_correct2 before _ 0). }
  apply (matchAll_finds namespace text 0 (S (String.length before))); [|lia|].
  - exists (before +:+ String doubleQuote ""), rest, h. split; [|split; [|done]].
    + unfold text. by rewrite append_assoc.
    + rewrite string_length_app. cbn. lia.
  - intros i k' (before' & rest' & h' & Htext & Hlen & -> & Hh') [_ Hlt].
    destruct (decide (i + referenceLength namespace <= S (String.length before))%nat)
      as [|Hover]; [done|]. exfalso.
    set (P := texturePathForKey namespace (SHARED_TEXTURE_PREFIX +:+ h')) in *.
    assert (get (String.length before - i) P = Some doubleQuote) as Hget.
    { rewrite (append_correct1 P rest')
        by (unfold P; rewrite texturePath_length by done; lia).
      rewrite (append_correct2 before' (P +:+ rest')), <- Htext, Hlen.
      by replace (String.length before - i + i)%nat with (String.length before) by lia. }
    by pose proof (allChars_get _ _ _ _ (texturePath_plain namespace h' Hns Hh') Hget).
Qed.

(** X22. A texture in use is kept. When the namespace holds no
    backslash, no quote and no line feed, and a [.ui] file holds, after
    a quote, the texture path of a key as [escapeUiString] gives it (so
    [buildUiFile] writes every texture path that [register] returns),
    [prune] counts the key as used, and the file of the key is still in
    the directory when [prune] is done. *)
Theorem written_texture_survives_prune
    sharedDir namespace files path before rest h fs fs' n :
  allChars uiPlain namespace = true ->
  isHex64 h ->
  (path, before +:+ String doubleQuote
           (escapeUiString (texturePathForKey namespace (SHARED_TEXTURE_PREFIX +:+ h))
            +:+ rest)) ∈ files ->
  endsWith path ".ui" = true ->
  NoDup (map fst (dirEntries fs)) ->
  pruneUnusedSharedTextures sharedDir namespace files fs = Ok (fs', n) ->
  SHARED_TEXTURE_PREFIX +:+ h ∈ collectUsedKeys namespace files
  /\ forall content, (ownFileName h, FsFile content) ∈ dirEntries fs ->
                     (ownFileName h, FsFile content) ∈ dirEntries fs'.
Proof.
  intros Hns Hh Hin Hui Hnd Hprune.
  rewrite escapeUiString_plain in Hin by (by apply texturePath_plain).
  assert (SHARED_TEXTURE_PREFIX +:+ h ∈ collectUsedKeys namespace files) as Hused.
  { apply collectUsedKeys_spec. eexists path, _. split; [exact Hin|]. split; [done|].
    by apply quoted_reference_matched. }
  split; [done|]. intros content Hfile.
  unfold pruneUnusedSharedTextures in Hprune.
  destruct fs as [|[|] entries]; cbn in Hprune; [by inversion Hprune; subst| |done].
  pose proof (foldl_pruneEntry sharedDir (collectUsedKeys namespace files) true entries [] 0 Hnd)
    as Hfold.
  cbn [app] in Hfold. rewrite Hfold in Hprune. inversion Hprune; subst. cbn [dirEntries] in *.
  apply list_elem_of_In, filter_In. split; [by apply list_elem_of_In|].
  unfold unused, storeFileKey, ownFileName. cbn [fst snd].
  rewrite matchSharedFileName_own by done. by rewrite bool_decide_true.
Qed.

Lemma written_texture_survives_prune_witness :
  keyA ∈ collectUsedKeys demoNamespace quotedDocuments
  /\ forall content,
       (keyA +:+ "@2x.png", FsFile content) ∈ demoShared ->
       (keyA +:+ "@2x.png", FsFile content) ∈ [ (keyA +:+ "@2x.png", FsFile bufA) ].
Proof.
  apply (written_texture_survives_prune demoDir demoNamespace quotedDocuments
           "/out/ui/Menu.ui" "Group { Background: " (String doubleQuote "; }") digestA
           (Dir true demoShared) (Dir true [ (keyA +:+ "@2x.png", FsFile bufA) ]) 2).
  - reflexivity.
  - split; reflexivity.
  - apply list_elem_of_here.
  - reflexivity.
  - apply (bool_decide_unpack _); vm_compute; exact I.
  - vm_compute; reflexivity.
Defined.

(** *** listFilesRecursive *)

Lemma Tree_nested_ind (P : Tree -> Prop) :
  (forall text, P (File text)) ->
  (forall entries, Forall (fun entry => P entry.2) entries -> P (Folder entries)) ->
  P Special ->
  forall t, P t.
Proof.
  intros HFile HFolder HSpecial. fix IH 1. intros [text|entries|].
  - apply HFile.
  - apply HFolder. induction entries as [|[name t] entries IHentries]; constructor.
    + apply IH.
    + apply IHentries.
  - apply HSpecial.
Qed.

Lemma foldl_scanEntry p entries : forall stack results,
  foldl (scanEntry p) (stack, results) entries
  = (rev (omap (folderPathOf p) entries) ++ stack, results ++ omap (filePathOf p) entries).
Proof.
  induction entries as [|[name t] entries IH]; intros stack results.
  - by rewrite app_nil_r.
  - cbn [foldl]. unfold scanEntry at 2. cbn [fst snd].
    destruct t as [text|sub|]; rewrite IH; simpl; by rewrite <- ?app_assoc.
Qed.

Lemma lookupTree_app t p q :
  lookupTree t (p ++ q) = lookupTree t p ≫= (fun t' => lookupTree t' q).
Proof.
  revert t. induction p as [|name p IH]; intros t; [done|]. cbn [app lookupTree].
  destruct t as [|entries|]; [done| |done].
  destruct (List.find (isNamed name) entries) as [entry|]; [|done]. apply IH.
Qed.

Lemma find_isNamed entries entry :
  NoDup (map fst entries) -> entry ∈ entries ->
  List.find (isNamed entry.1) entries = Some entry.
Proof.
  induction entries as [|e entries IH]; intros Hnd Hin; [by apply elem_of_nil in Hin|].
  cbn [map] in Hnd. apply NoDup_cons in Hnd as [Hnotin Hnd]. cbn [List.find].
  apply elem_of_cons in Hin as [->|Hin].
  - unfold isNamed. by rewrite String.eqb_refl.
  - unfold isNamed at 1. destruct (String.eqb_spec e.1 entry.1) as [Heq|_]; [|by apply IH].
    exfalso. apply Hnotin. rewrite Heq. by apply list_elem_of_fmap_2.
Qed.

Lemma find_isNamed_Some name entries entry :
  List.find (isNamed name) entries = Some entry -> entry ∈ entries /\ entry.1 = name.
Proof.
  intros [Hin Hname]%find_some. split; [by apply list_elem_of_In|].
  unfold isNamed in Hname. by apply String.eqb_eq.
Qed.

Lemma distinctNames_Folder entries :
  distinctNames (Folder entries) = true ->
  NoDup (map fst entries) /\ forall entry, entry ∈ entries -> distinctNames entry.2 = true.
Proof.
  cbn [distinctNames]. intros [Hnd Hall]%andb_prop. split.
  - by apply bool_decide_eq_true in Hnd.
  - intros entry Hin. rewrite forallb_forall in Hall. by apply Hall, list_elem_of_In.
Qed.

Lemma lookupTree_child entries entry q :
  NoDup (map fst entries) -> entry ∈ entries ->
  lookupTree (Folder entries) (entry.1 :: q) = lookupTree entry.2 q.
Proof. intros Hnd Hin. cbn [lookupTree]. by rewrite find_isNamed. Qed.

Lemma distinctNames_lookup t : forall p t',
  distinctNames t = true -> lookupTree t p = Some t' -> distinctNames t' = true.
Proof.
  induction t as [text| entries IH |] using Tree_nested_ind; intros p t' Hd Hl.
  - destruct p; [by inversion Hl; subst|done].
  - destruct p as [|name p]; [by inversion Hl; subst|]. cbn [lookupTree] in Hl.
    destruct (List.find (isNamed name) entries) as [entry|] eqn:Hfind; [|done].
    apply find_isNamed_Some in Hfind as [Hin _].
    apply distinctNames_Folder in Hd as [_ Hd].
    rewrite Forall_forall in IH. by apply (IH entry Hin p t' (Hd entry Hin)).
  - destruct p; [by inversion Hl; subst|done].
Qed.

Lemma pushed_folders p entries (g : list string -> nat) (f : string * Tree -> nat) :
  (forall entry sub, entry ∈ entries -> entry.2 = Folder sub -> g (p ++ [entry.1]) = f entry) ->
  (forall entry, entry ∈ entries -> (forall sub, entry.2 <> Folder sub) -> f entry = O) ->
  list_sum (map g (rev (omap (folderPathOf p) entries))) = list_sum (map f entries).
Proof.
  intros Hfolder Hother. induction entries as [|entry entries IH]; [done|].
  change (omap (folderPathOf p) (entry :: entries))
    with (match folderPathOf p entry with
          | Some q => q :: omap (folderPathOf p) entries
          | None => omap (folderPathOf p) entries
          end).
  change (list_sum (map f (entry :: entries))) with (f entry + list_sum (map f entries))%nat.
  rewrite <- IH.
  - unfold folderPathOf at 1. destruct (entry.2) as [text|sub|] eqn:He.
    + rewrite (Hother entry); [done|by left|]. intros sub. by rewrite He.
    + cbn [rev]. rewrite map_app, list_sum_app.
      change (list_sum (map g [p ++ [entry.1]])) with (g (p ++ [entry.1]) + 0)%nat.
      rewrite (Hfolder entry sub); [lia|by left|done].
    + rewrite (Hother entry); [done|by left|]. intros sub. by rewrite He.
  - intros e sub Hin. apply Hfolder. by right.
  - intros e Hin. apply Hother. by right.
Qed.

Lemma pushed_files p entries (g : list string -> list (list string))
    (f : string * Tree -> list (list string)) :
  (forall entry sub, entry ∈ entries -> entry.2 = Folder sub -> g (p ++ [entry.1]) = f entry) ->
  (forall entry, entry ∈ entries -> (forall sub, entry.2 <> Folder sub) -> f entry = []) ->
  concat (map g (rev (omap (folderPathOf p) entries))) = concat (rev (map f entries)).
Proof.
  intros Hfolder Hother. induction entries as [|entry entries IH]; [done|].
  change (omap (folderPathOf p) (entry :: entries))
    with (match folderPathOf p entry with
          | Some q => q :: omap (folderPathOf p) entries
          | None => omap (folderPathOf p) entries
          end).
  cbn [map rev]. rewrite concat_app. cbn [concat]. rewrite app_nil_r, <- IH.
  - unfold folderPathOf at 1. destruct (entry.2) as [text|sub|] eqn:He.
    + rewrite (Hother entry); [by rewrite app_nil_r|by left|]. intros sub. by rewrite He.
    + cbn [rev]. rewrite map_app, concat_app. cbn [map concat]. rewrite app_nil_r.
      by rewrite (Hfolder entry sub); [|by left|].
    + rewrite (Hother entry); [by rewrite app_nil_r|by left|]. intros sub. by rewrite He.
  - intros e sub Hin. apply Hfolder. by right.
  - intros e Hin. apply Hother. by right.
Qed.

Lemma lookupTree_pushed t p entries entry :
  distinctNames t = true -> lookupTree t p = Some (Folder entries) -> entry ∈ entries ->
  lookupTree t (p ++ [entry.1]) = Some entry.2.
Proof.
  intros Hd Hl Hin. rewrite lookupTree_app, Hl. cbn [mbind option_bind].
  apply (distinctNames_lookup _ _ _ Hd), distinctNames_Folder in Hl as [Hnd _].
  by rewrite lookupTree_child.
Qed.

Lemma list_sum_map_cons {A} (f : A -> nat) x l :
  list_sum (map f (x :: l)) = (f x + list_sum (map f l))%nat.
Proof. done. Qed.

Lemma concat_map_cons {A B} (f : A -> list B) x l :
  concat (map f (x :: l)) = f x ++ concat (map f l).
Proof. done. Qed.

(** The loop empties its stack within the passes that the directories
    on it and under them take. *)
Lemma walk_stack t : distinctNames t = true -> forall fuel stack results,
  Forall (fun p => exists entries, lookupTree t p = Some (Folder entries)) stack ->
  (list_sum (map (foldersAt t) stack) <= fuel)%nat ->
  walk (Some t) fuel stack results
  = Some (Walked (results ++ concat (map (filesAt t) stack))).
Proof.
  intros Hd. induction fuel as [|fuel IH]; intros stack results Hstack Hfuel.
  - destruct stack as [|p stack]; [by rewrite app_nil_r|]. exfalso.
    apply Forall_cons in Hstack as [[entries Hp] _].
    rewrite list_sum_map_cons in Hfuel. unfold foldersAt at 1 in Hfuel. rewrite Hp in Hfuel.
    cbn [folders] in Hfuel. lia.
  - destruct stack as [|p stack]; [by rewrite app_nil_r|].
    apply Forall_cons in Hstack as [[entries Hp] Hstack].
    cbn [walk mbind option_bind]. rewrite Hp. cbv zeta. rewrite foldl_scanEntry. cbn [fst snd].
    rewrite list_sum_map_cons in Hfuel. rewrite concat_map_cons.
    unfold foldersAt at 1 in Hfuel. unfold filesAt at 1.
    rewrite Hp in Hfuel. rewrite Hp. cbn [folders filesUnder] in *.
    rewrite IH.
    + rewrite map_app, concat_app, <- !app_assoc. do 3 f_equal.
      rewrite (pushed_files p entries (filesAt t)
                 (fun entry => filesUnder entry.2 (p ++ [entry.1]))); [done| |].
      * intros entry sub Hin _. unfold filesAt. by rewrite (lookupTree_pushed t p entries).
      * intros entry _ Hsub. destruct (entry.2); [done|by destruct (Hsub entries0)|done].
    + apply Forall_app. split; [|done]. apply Forall_forall. intros q Hq.
      apply list_elem_of_In, in_rev, list_elem_of_In, list_elem_of_omap in Hq
        as (entry & Hin & Hentry).
      unfold folderPathOf in Hentry. destruct (entry.2) as [|sub|] eqn:He; [done| |done].
      inversion Hentry; subst q. exists sub. by rewrite (lookupTree_pushed t p entries), He.
    + rewrite map_app, list_sum_app.
      rewrite (pushed_folders p entries (foldersAt t) (fun entry => folders entry.2)); [lia| |].
      * intros entry sub Hin _. unfold foldersAt. by rewrite (lookupTree_pushed t p entries).
      * intros entry _ Hsub. destruct (entry.2); [done|by destruct (Hsub entries0)|done].
Qed.

Lemma elem_of_concat {A} (x : A) (ls : list (list A)) :
  x ∈ concat ls <-> exists l, x ∈ l /\ l ∈ ls.
Proof.
  rewrite list_elem_of_In, in_concat. split.
  - intros (l & Hl & Hx). exists l. by rewrite !list_elem_of_In.
  - intros (l & Hx & Hl). exists l. by rewrite <- !list_elem_of_In.
Qed.

(** The files of the walk are the regular files of the tree. *)
Lemma filesUnder_spec t : forall p q,
  distinctNames t = true ->
  q ∈ filesUnder t p
  <-> exists r text, r <> [] /\ q = p ++ r /\ lookupTree t r = Some (File text).
Proof.
  induction t as [text| entries IH |] using Tree_nested_ind; intros p q Hd.
  - split; [by intros ?%elem_of_nil|]. intros ([|name r] & text' & Hr & _ & Hl); [by destruct Hr|done].
  - apply distinctNames_Folder in Hd as [Hnd Hd]. rewrite Forall_forall in IH.
    cbn [filesUnder]. rewrite elem_of_app, list_elem_of_omap. split.
    + intros [(entry & Hin & Hfile)|Hq].
      * unfold filePathOf in Hfile.
        destruct (entry.2) as [text| |] eqn:He; [|done|done]. inversion Hfile; subst q.
        exists [entry.1], text. split; [done|]. split; [done|].
        by rewrite lookupTree_child, He.
      * apply elem_of_concat in Hq as (l & Hq & Hl).
        apply list_elem_of_In, in_rev, list_elem_of_In, list_elem_of_fmap in Hl
          as (entry & -> & Hin).
        apply (IH entry Hin) in Hq as (r & text & Hr & -> & Hl); [|by apply Hd].
        exists (entry.1 :: r), text. split; [done|]. split; [by rewrite <- app_assoc|].
        by rewrite lookupTree_child.
    + intros ([|name r] & text & Hr & -> & Hl); [by destruct Hr|]. cbn [lookupTree] in Hl.
      destruct (List.find (isNamed name) entries) as [entry|] eqn:Hfind; [|done].
      apply find_isNamed_Some in Hfind as [Hin <-].
      destruct r as [|name' r].
      * left. exists entry. split; [done|]. cbn [lookupTree] in Hl. unfold filePathOf.
        inversion Hl as [He]. by rewrite He.
      * right. apply elem_of_concat. exists (filesUnder entry.2 (p ++ [entry.1])). split.
        -- apply (IH entry Hin); [by apply Hd|]. exists (name' :: r), text.
           split; [done|]. split; [by rewrite <- app_assoc|done].
        -- apply list_elem_of_In, in_rev. rewrite rev_involutive.
           apply list_elem_of_In, list_elem_of_fmap. by exists entry.
  - split; [by intros ?%elem_of_nil|]. intros ([|name r] & text' & Hr & _ & Hl); [by destruct Hr|done].
Qed.

Lemma concat_rev_Permutation {A} (ls : list (list A)) : concat (rev ls) ≡ₚ concat ls.
Proof.
  induction ls as [|l ls IH]; [done|]. cbn [rev concat].
  rewrite concat_app. cbn [concat]. rewrite app_nil_r, IH. apply Permutation_app_comm.
Qed.

Lemma NoDup_filePaths p entries :
  NoDup (map fst entries) -> NoDup (omap (filePathOf p) entries).
Proof.
  induction entries as [|entry entries IH]; intros Hnd; [constructor|].
  cbn [map] in Hnd. apply NoDup_cons in Hnd as [Hnotin Hnd].
  change (omap (filePathOf p) (entry :: entries))
    with (match filePathOf p entry with
          | Some q => q :: omap (filePathOf p) entries
          | None => omap (filePathOf p) entries
          end).
  destruct (filePathOf p entry) as [q|] eqn:Hq; [|by apply IH].
  apply NoDup_cons. split; [|by apply IH].
  intros (entry' & Hin & Hq')%list_elem_of_omap. apply Hnotin.
  unfold filePathOf in Hq, Hq'. destruct (entry.2); [|done|done].
  destruct (entry'.2); [|done|done]. inversion Hq; subst q. inversion Hq' as [Heq].
  apply app_inv_head in Heq. replace (entry.1) with (entry'.1) by congruence.
  by apply list_elem_of_fmap_2.
Qed.

Lemma NoDup_concat_prefixed p (g : string * Tree -> list (list string)) entries :
  NoDup (map fst entries) ->
  (forall entry, entry ∈ entries -> NoDup (g entry)) ->
  (forall entry x, entry ∈ entries -> x ∈ g entry -> exists r, x = p ++ entry.1 :: r) ->
  NoDup (concat (map g entries)).
Proof.
  induction entries as [|entry entries IH]; intros Hnd Heach Hprefix; [constructor|].
  cbn [map] in Hnd. apply NoDup_cons in Hnd as [Hnotin Hnd].
  cbn [map concat]. apply NoDup_app. split; [apply Heach; by left|]. split.
  - intros x Hx (l & Hxl & (entry' & -> & Hin)%list_elem_of_fmap)%elem_of_concat.
    apply Hprefix in Hx as [r ->]; [|by left].
    apply Hprefix in Hxl as [r' Heq]; [|by right].
    apply app_inv_head in Heq. apply Hnotin.
    replace (entry.1) with (entry'.1) by congruence. by apply list_elem_of_fmap_2.
  - apply IH; [done| |].
    + intros e He. apply Heach. by right.
    + intros e x He. apply Hprefix. by right.
Qed.

Lemma NoDup_filesUnder t : forall p, distinctNames t = true -> NoDup (filesUnder t p).
Proof.
  induction t as [text| entries IH |] using Tree_nested_ind; intros p Hd; [constructor| |constructor].
  pose proof Hd as [Hnd Hsub]%distinctNames_Folder. rewrite Forall_forall in IH.
  cbn [filesUnder]. apply NoDup_app. split; [by apply NoDup_filePaths|]. split.
  - intros x (entry & Hin & Hx)%list_elem_of_omap Hx'.
    unfold filePathOf in Hx. destruct (entry.2); [|done|done]. inversion Hx; subst x.
    apply elem_of_concat in Hx' as (l & Hxl & Hl).
    apply list_elem_of_In, in_rev, list_elem_of_In, list_elem_of_fmap in Hl
      as (entry' & -> & Hin').
    apply filesUnder_spec in Hxl as (r & text' & Hr & Heq & _); [|by apply Hsub].
    rewrite <- app_assoc in Heq. apply app_inv_head in Heq. inversion Heq. by subst r.
  - rewrite concat_rev_Permutation. apply (NoDup_concat_prefixed p); [done| |].
    + intros entry Hin. apply (IH entry Hin). by apply Hsub.
    + intros entry x Hin Hx.
      apply filesUnder_spec in Hx as (r & text' & _ & -> & _); [|by apply Hsub].
      exists r. by rewrite <- app_assoc.
Qed.

(** X23. [listFilesRecursive] on a directory gives every regular file
    under it, at any depth, once, and nothing else; on a path where
    nothing is found it gives the empty list, and the loop ends. *)
Theorem listFilesRecursive_lists_each_file_once entries :
  distinctNames (Folder entries) = true ->
  listFilesRecursive None = Some (Walked [])
  /\ exists results,
       listFilesRecursive (Some (Folder entries)) = Some (Walked results)
       /\ NoDup results
       /\ forall p, p ∈ results <-> exists text, lookupTree (Folder entries) p = Some (File text).
Proof.
  intros Hd. split; [done|]. exists (filesUnder (Folder entries) []).
  split; [|split].
  - unfold listFilesRecursive. cbn [from_option].
    rewrite (walk_stack (Folder entries) Hd).
    + unfold filesAt. cbn [map concat lookupTree]. by rewrite app_nil_r.
    + apply Forall_cons. split; [by exists entries|constructor].
    + change (list_sum (map (foldersAt (Folder entries)) [[]]))
        with (folders (Folder entries) + 0)%nat. lia.
  - by apply NoDup_filesUnder.
  - intros p. rewrite filesUnder_spec by done. split.
    + intros (r & text & _ & -> & Hl). by exists text.
    + intros [text Hl]. exists p, text. split; [|done]. by intros ->.
Qed.

Lemma listFilesRecursive_lists_each_file_once_witness :
  distinctNames demoTree = true
  /\ exists results,
       listFilesRecursive (Some demoTree) = Some (Walked results)
       /\ NoDup results
       /\ forall p, p ∈ results <-> exists text, lookupTree demoTree p = Some (File text).
Proof.
  split; [reflexivity|].
  exact (proj2 (listFilesRecursive_lists_each_file_once
                  [ ("Menu.ui", File "Group { }");
                    ("pages", Folder [ ("Shop.ui", File "Label { }"); ("old", Folder []) ]);
                    ("link", Special);
                    (".hash-Menu", File "0f") ] eq_refl)).
Defined.

(** *** parseArgs *)

Lemma stripPrefix_dashes arg key : stripPrefix "--" arg = Some key <-> arg = "--" +:+ key.
Proof.
  split; [apply stripPrefix_Some|]. intros ->. apply stripPrefix_app.
Qed.

(** What the loop leaves: the flags are the boolean options met, and a
    value taken is not empty and is no option. *)
Lemma parseLoop_spec n : forall argv raw flags raw' flags',
  (length argv <= n)%nat ->
  parseLoop argv raw flags = Returns (raw', flags') ->
  (forall k, k ∈ flags' <-> k ∈ flags \/ (k ∈ booleanFlags /\ "--" +:+ k ∈ argv))
  /\ (forall k v, raw' !! k = Some v ->
        raw !! k = Some v \/ (truthy v = true /\ stripPrefix "--" v = None)).
Proof.
  induction n as [|n IH]; intros argv raw flags raw' flags' Hlen Hloop.
  - destruct argv; [|cbn in Hlen; lia]. inversion Hloop; subst. split; [|by left].
    intros k. split; [by left|]. intros [?|[_ Hin]]; [done|]. by apply elem_of_nil in Hin.
  - destruct argv as [|arg rest].
    { inversion Hloop; subst. split; [|by left].
      intros k. split; [by left|]. intros [?|[_ Hin]]; [done|]. by apply elem_of_nil in Hin. }
    cbn [length] in Hlen. cbn [parseLoop] in Hloop.
    destruct (stripPrefix "--" arg) as [key|] eqn:Harg.
    + apply stripPrefix_dashes in Harg as ->.
      destruct (bool_decide_reflect (key ∈ booleanFlags)) as [Hbool|Hbool].
      * apply IH in Hloop as [Hflags Hraw]; [|lia]. split; [|done].
        intros k. rewrite Hflags, elem_of_union, elem_of_singleton, elem_of_cons. split.
        -- intros [[->|?]|[? ?]]; [right|left|right]; auto.
        -- intros [?|[Hk [Heq|?]]]; [by left; right| |by right].
           left; left. apply (f_equal (stripPrefix "--")) in Heq.
           rewrite !stripPrefix_app in Heq. by inversion Heq.
      * destruct rest as [|value rest']; [done|].
        destruct (truthy value) eqn:Htruthy; [|done]. cbn [negb orb] in Hloop.
        destruct (bool_decide_reflect (is_Some (stripPrefix "--" value))) as [|Hvalue]; [done|].
        apply eq_None_not_Some in Hvalue.
        apply IH in Hloop as [Hflags Hraw]; [|cbn [length] in Hlen; lia]. split.
        -- intros k. rewrite Hflags, !elem_of_cons. split; [tauto|].
           intros [?|[Hk [Heq|[Heq|?]]]]; [by left| | |by right].
           ++ apply (f_equal (stripPrefix "--")) in Heq.
              rewrite !stripPrefix_app in Heq. inversion Heq. by subst.
           ++ by rewrite <- Heq, stripPrefix_app in Hvalue.
        -- intros k v Hk. apply Hraw in Hk as [Hk|?]; [|by right].
           destruct (decide (key = k)) as [->|Hne].
           ++ rewrite lookup_insert_eq in Hk. inversion Hk; subst. by right.
           ++ rewrite lookup_insert_ne in Hk by done. by left.
    + apply IH in Hloop as [Hflags Hraw]; [|lia]. split; [|done].
      intros k. rewrite Hflags, elem_of_cons. split; [tauto|].
      intros [?|[Hk [Heq|?]]]; [by left| |by right].
      subst arg. by rewrite stripPrefix_app in Harg.
Qed.

Section CliFacts.

Variable number : Type.
Variable toNumber : string -> number.
Variable resolve : string -> string.
Variable resolveHtmlBeside : string -> string.
Variable DEFAULT_VIEWPORT : Viewport number.

Local Abbreviation parseArgs := (parseArgs number toNumber resolve resolveHtmlBeside DEFAULT_VIEWPORT).

(** X24. When [parseArgs] returns: [force] and [strictValidate] tell
    whether [--force] and [--strict-validate] are among the arguments,
    wherever they stand; the test [args.check && !args.force] of [main]
    holds exactly when [--force] is absent, with [--check] or without;
    and the namespace is not empty and does not begin with [--]. *)
Theorem parseArgs_flags argv args :
  parseArgs argv = Returns args ->
  force number args = bool_decide ("--force" ∈ argv)
  /\ strictValidate number args = bool_decide ("--strict-validate" ∈ argv)
  /\ passesUnchangedPages number args = negb (bool_decide ("--force" ∈ argv))
  /\ truthy (args_namespace number args) = true
  /\ stripPrefix "--" (args_namespace number args) = None.
Proof.
  unfold parseArgs. intros Hparse.
  destruct (parseLoop argv ∅ ∅) as [[raw flags]|] eqn:Hloop; [|done].
  apply (parseLoop_spec (length argv)) in Hloop as [Hflags Hraw]; [|done].
  destruct (given raw "input"); [|done]. destruct (given raw "out-resources"); [|done].
  destruct (given raw "out-ui"); [|done].
  destruct (match given raw "viewport" with Some _ => _ | None => _ end); [|done].
  inversion Hparse; subst args. unfold passesUnchangedPages. cbn [force strictValidate check args_namespace].
  assert (forall k, k ∈ booleanFlags ->
                    bool_decide (k ∈ flags) = bool_decide ("--" +:+ k ∈ argv)) as Hflag.
  { intros k Hk. apply bool_decide_ext. rewrite Hflags. split; [|by right].
    intros [Hin|[_ ?]]; [by apply not_elem_of_empty in Hin|done]. }
  rewrite !Hflag by (apply (bool_decide_unpack _); vm_compute; exact I).
  change ("--" +:+ "force") with "--force". change ("--" +:+ "strict-validate") with "--strict-validate".
  split; [done|]. split; [done|]. split.
  { destruct (bool_decide ("--force" ∈ argv)); cbn [negb]; [apply andb_false_r|].
    by rewrite orb_true_r. }
  destruct (raw !! "namespace") as [v|] eqn:Hns; [|done]. cbn [default from_option id].
  apply Hraw in Hns as [Hns|?]; [|done]. by rewrite lookup_empty in Hns.
Qed.

End CliFacts.

Lemma parseArgs_flags_witness :
  force string
    {| input := "/abs/in"; outResources := "/abs/res"; outUi := "/abs/ui";
       outHtml := "/abs/res/../html";
       viewport := {| vp_width := "800"; vp_height := "600" |};
       args_namespace := "HTML"; check := true; strictValidate := false; force := true |}
  = bool_decide ("--force" ∈ demoArgv).
Proof.
  refine (proj1 (parseArgs_flags string (fun digits => digits) (fun p => "/abs/" +:+ p)
                   (fun p => p +:+ "/../html") {| vp_width := "1920"; vp_height := "1080" |}
                   demoArgv _ _)).
  vm_compute; reflexivity.
Defined.

(** *** hashPngPixels: what is digested *)

Lemma pretty_N_char_digit x : isNumberChar (pretty_N_char x) = true.
Proof.
  destruct x as [|p]; [done|].
  do 4 (destruct p as [p|p|]; try done).
Qed.

Lemma pretty_N_go_chars x : forall s,
  allChars isNumberChar s = true -> allChars isNumberChar (pretty_N_go x s) = true.
Proof.
  induction x as [x IH] using (well_founded_induction N.lt_wf_0). intros s Hs.
  destruct (decide (0 < x)%N) as [Hpos|Hzero].
  - rewrite pretty_N_go_step by done. apply IH; [by apply N.div_lt|].
    unfold allChars in *. cbn [list_ascii_of_string forallb].
    by rewrite pretty_N_char_digit, Hs.
  - assert (x = 0%N) as -> by lia. by rewrite pretty_N_go_0.
Qed.

Lemma pretty_Z_chars (z : Z) : allChars isNumberChar (pretty z) = true.
Proof.
  assert (forall p : positive, allChars isNumberChar (pretty p) = true) as Hpos.
  { intros p. unfold pretty, pretty_positive, pretty, pretty_N.
    destruct (decide (N.pos p = 0%N)); [done|]. by apply pretty_N_go_chars. }
  destruct z as [|p|p]; [done|apply Hpos|].
  change (pretty (Z.neg p)) with ("-" +:+ pretty p).
  by rewrite allChars_app, Hpos.
Qed.

(** A list is cut in one way at the first place where [a] stands. *)
Lemma app_cons_unique {A} (a : A) l1 : forall l2 r1 r2,
  a ∉ l1 -> a ∉ l2 -> l1 ++ a :: r1 = l2 ++ a :: r2 -> l1 = l2 /\ r1 = r2.
Proof.
  induction l1 as [|x l1 IH]; intros [|y l2] r1 r2 H1 H2 Heq.
  - by inversion Heq.
  - inversion Heq; subst. destruct H2. by left.
  - inversion Heq; subst. destruct H1. by left.
  - inversion Heq; subst. apply not_elem_of_cons in H1 as [_ H1], H2 as [_ H2].
    destruct (IH l2 r1 r2 H1 H2) as [-> ->]; done.
Qed.

Lemma bytes_of_string_app s1 s2 :
  bytes_of_string (s1 +:+ s2) = bytes_of_string s1 ++ bytes_of_string s2.
Proof.
  unfold bytes_of_string. induction s1 as [|c s1 IH]; [done|]. simpl. by rewrite IH.
Qed.

Lemma bytes_of_string_inj s1 : forall s2, bytes_of_string s1 = bytes_of_string s2 -> s1 = s2.
Proof.
  unfold bytes_of_string. induction s1 as [|c s1 IH]; intros [|d s2] Heq; try done.
  simpl in Heq. inversion Heq as [[Hc Hs]]. apply IH in Hs as ->.
  apply N2Z.inj in Hc. f_equal. by rewrite <- (ascii_N_embedding c), Hc, ascii_N_embedding.
Qed.

Lemma number_bytes s (b : Z) c :
  allChars isNumberChar s = true -> isNumberChar c = false -> b = Z.of_N (N_of_ascii c) ->
  b ∉ bytes_of_string s.
Proof.
  unfold allChars, bytes_of_string. intros Hs Hc -> Hin.
  apply list_elem_of_fmap in Hin as (d & Hd & Hin). apply N2Z.inj in Hd.
  assert (c = d) as -> by (by rewrite <- (ascii_N_embedding c), Hd, ascii_N_embedding).
  rewrite forallb_forall in Hs. apply list_elem_of_In, Hs in Hin. congruence.
Qed.

(** X26. [hashPngPixels] digests the bytes of [<width>x<height>], a zero
    byte and the pixel data, and from these bytes the width, the height
    and the data are read back in one way: two bitmaps that differ in a
    side or in a byte of their data never give the digest the same
    bytes. *)
Theorem hashPngPixels_message_unambiguous d1 d2 :
  (forall sha256, hashPngPixels sha256 d1 = sha256 (hashedBytes d1))
  /\ (hashedBytes d1 = hashedBytes d2 <-> d1 = d2).
Proof.
  split.
  { intros sha256. unfold hashPngPixels, sha256Hex, hashedBytes. cbn [concat].
    by rewrite app_nil_r. }
  split; [|by intros ->].
  unfold hashedBytes. rewrite !bytes_of_string_app, <- !app_assoc.
  change (bytes_of_string "x") with [120]. change (bytes_of_string (String (ascii_of_nat 0) "")) with [0].
  cbn [app]. intros Heq.
  apply (app_cons_unique 120) in Heq as [Hw Heq];
    [|apply (number_bytes _ _ "x"); [apply pretty_Z_chars|done|done]..].
  apply (app_cons_unique 0) in Heq as [Hh Hdata];
    [|apply (number_bytes _ _ (ascii_of_nat 0)); [apply pretty_Z_chars|done|done]..].
  apply bytes_of_string_inj, (inj pretty) in Hw, Hh.
  destruct d1, d2. cbn in *. by subst.
Qed.

(** *** parseViewport *)

Lemma toLower_digit c : isDigit (toLower c) = isDigit c.
Proof. destruct c as [[] [] [] [] [] [] [] []]; vm_compute; done. Qed.

Lemma toLower_digit_fixed c : isDigit c = true -> toLower c = c.
Proof. destruct c as [[] [] [] [] [] [] [] []]; vm_compute; done. Qed.

Lemma toLower_x c : Ascii.eqb (toLower c) "x" = Ascii.eqb c "x" || Ascii.eqb c "X".
Proof. destruct c as [[] [] [] [] [] [] [] []]; vm_compute; done. Qed.

Lemma digitRun_digits w : forall s,
  allChars isDigit w = true ->
  match s with String c _ => isDigit c = false | EmptyString => True end ->
  digitRun (w +:+ s) = (w, s).
Proof.
  unfold allChars. induction w as [|c w IH]; intros s Hw Hs.
  - destruct s as [|c s]; [done|]. change (digitRun (String c s) = ("", String c s)).
    cbn [digitRun]. by rewrite Hs.
  - cbn [list_ascii_of_string forallb] in Hw. apply andb_prop in Hw as [Hc Hw].
    change (digitRun (String c (w +:+ s)) = (String c w, s)).
    cbn [digitRun]. by rewrite Hc, IH.
Qed.

Lemma digitRun_spec s : forall w rest,
  digitRun s = (w, rest) ->
  s = w +:+ rest /\ allChars isDigit w = true
  /\ match rest with String c _ => isDigit c = false | EmptyString => True end.
Proof.
  unfold allChars. induction s as [|c s IH]; intros w rest Hrun; cbn [digitRun] in Hrun.
  - by inversion Hrun.
  - destruct (isDigit c) eqn:Hc.
    + destruct (digitRun s) as [w' rest'] eqn:Hs. inversion Hrun; subst.
      destruct (IH w' rest eq_refl) as (-> & Hw & Hrest).
      cbn [list_ascii_of_string forallb]. by rewrite Hc, Hw.
    + inversion Hrun; subst. by rewrite Hc.
Qed.

Lemma mapString_app f s1 s2 : mapString f (s1 +:+ s2) = mapString f s1 +:+ mapString f s2.
Proof. induction s1 as [|c s1 IH]; [done|]. simpl. by rewrite IH. Qed.

Lemma mapString_split f s : forall a b,
  mapString f s = a +:+ b ->
  exists a' b', s = a' +:+ b' /\ mapString f a' = a /\ mapString f b' = b.
Proof.
  induction s as [|c s IH]; intros a b Heq.
  - destruct a; [|done]. destruct b; [|done]. by exists "", "".
  - destruct a as [|d a].
    + exists "", (String c s). split; [done|]. split; [done|]. exact Heq.
    + simpl in Heq. inversion Heq as [[Hd Hs]].
      destruct (IH a b Hs) as (a' & b' & -> & <- & <-). by exists (String c a'), b'.
Qed.

Lemma lowered_digits s : allChars isDigit (mapString toLower s) = true ->
  allChars isDigit s = true /\ mapString toLower s = s.
Proof.
  unfold allChars. induction s as [|c s IH]; [done|].
  cbn [mapString list_ascii_of_string forallb]. rewrite toLower_digit.
  intros [Hc Hs]%andb_prop. destruct (IH Hs) as [-> ->]. by rewrite Hc, toLower_digit_fixed.
Qed.

Section ViewportFacts.

Variable number : Type.
Variable toNumber : string -> number.

Local Abbreviation parseViewport := (parseViewport number toNumber).

(** X25. [parseViewport] returns exactly on a value made of digits, one
    [x] in either case and digits, nothing before, between or after; the
    sides are then the numbers of the two runs of digits. On every other
    value it throws. *)
Theorem parseViewport_accepts_digits_x_digits value vp :
  parseViewport value = Returns vp
  <-> exists w h c,
        value = w +:+ String c h
        /\ allChars isDigit w = true /\ w <> ""
        /\ allChars isDigit h = true /\ h <> ""
        /\ (c = "x"%char \/ c = "X"%char)
        /\ vp = {| vp_width := toNumber w; vp_height := toNumber h |}.
Proof.
  unfold parseViewport. cbv zeta. split.
  - destruct (digitRun (mapString toLower value)) as [w rest] eqn:Hw.
    destruct rest as [|c rest]; [done|].
    destruct (digitRun rest) as [h rest'] eqn:Hh.
    destruct (truthy w) eqn:Htw; [|done]. destruct (Ascii.eqb c "x") eqn:Hc; [|done].
    destruct (truthy h) eqn:Hth; [|done]. destruct (truthy rest') eqn:Htr; [done|].
    cbn [andb negb]. intros [= <-].
    apply digitRun_spec in Hw as (Hvalue & Hwd & _).
    apply digitRun_spec in Hh as (-> & Hhd & _).
    assert (rest' = "") as -> by (by destruct rest').
    rewrite string_app_nil_r in Hvalue.
    apply mapString_split in Hvalue as (w' & b' & -> & Hw' & Hb').
    destruct b' as [|c' h']; [done|]. cbn [mapString] in Hb'. inversion Hb' as [[Hc' Hh']].
    subst w. destruct (lowered_digits w' Hwd) as [Hwd' Hw']. rewrite Hw' in *.
    subst h. destruct (lowered_digits h' Hhd) as [Hhd' Hh']. rewrite Hh' in *.
    exists w', h', c'. split; [done|]. split; [done|]. split; [by destruct w'|].
    split; [done|]. split; [by destruct h'|]. split; [|done].
    subst c. rewrite toLower_x in Hc. apply orb_prop in Hc as [Hc|Hc]; [left|right];
      by apply Ascii.eqb_eq.
  - intros (w & h & c & -> & Hwd & Hw & Hhd & Hh & Hc & ->).
    assert (mapString toLower (w +:+ String c h) = w +:+ String "x" (h +:+ "")) as ->.
    { rewrite mapString_app. cbn [mapString].
      assert (forall s, allChars isDigit s = true -> mapString toLower s = s) as Hfix.
      { intros s Hs. apply lowered_digits. unfold allChars in *. revert Hs.
        induction s as [|d s IH]; [done|]. cbn [mapString list_ascii_of_string forallb].
        rewrite toLower_digit. intros [Hd Hs]%andb_prop. by rewrite Hd, IH. }
      rewrite !Hfix by done. rewrite string_app_nil_r. by destruct Hc as [->| ->]. }
    rewrite digitRun_digits by done. rewrite digitRun_digits by done.
    assert (truthy w = true) as -> by (by destruct w).
    assert (truthy h = true) as -> by (by destruct h). done.
Qed.

End ViewportFacts.

(** *** The ids of the elements *)

Lemma pretty_N_go_digits x : forall s,
  allChars isDigit s = true -> s <> "" ->
  allChars isDigit (pretty_N_go x s) = true /\ pretty_N_go x s <> "".
Proof.
  induction x as [x IH] using (well_founded_induction N.lt_wf_0). intros s Hs Hne.
  destruct (decide (0 < x)%N) as [Hpos|Hzero].
  - rewrite pretty_N_go_step by done. apply IH; [by apply N.div_lt| |done].
    unfold allChars in *. cbn [list_ascii_of_string forallb]. rewrite Hs.
    destruct (x `mod` 10)%N as [|p]; [done|]. by do 4 (destruct p as [p|p|]; try done).
  - assert (x = 0%N) as -> by lia. by rewrite pretty_N_go_0.
Qed.

Lemma pretty_N_digits (n : N) : allChars isDigit (pretty n) = true /\ pretty n <> "".
Proof.
  unfold pretty, pretty_N. destruct (decide (n = 0%N)) as [->|Hn]; [done|].
  assert (0 < n)%N as Hpos by lia. rewrite pretty_N_go_step by done.
  apply pretty_N_go_digits; [|done].
  unfold allChars. cbn [list_ascii_of_string forallb]. rewrite andb_true_r.
  destruct (n `mod` 10)%N as [|p]; [done|]. by do 4 (destruct p as [p|p|]; try done).
Qed.

Lemma sanitizeId_identifier value : matchesIdentifier (sanitizeId value) = true.
Proof.
  destruct (sanitizeId_shapes value)
    as [[-> _]|(c & rest & Hclean & Hall & [[Hc ->]|[Hc ->]])]; [done| |].
  - cbn [matchesIdentifier]. rewrite Hc. cbn [andb].
    unfold allChars in *. cbn [list_ascii_of_string forallb] in Hall.
    by apply andb_prop in Hall as [_ ->].
  - change ("E" +:+ String c rest) with (String "E" (String c rest)).
    cbn [matchesIdentifier]. by rewrite Hall.
Qed.

Lemma matchesIdentifier_app s t :
  matchesIdentifier s = true -> allChars isAlnum t = true -> matchesIdentifier (s +:+ t) = true.
Proof.
  destruct s as [|c s]; [done|]. cbn [matchesIdentifier]. intros [Hc Hs]%andb_prop Ht.
  change (String c s +:+ t) with (String c (s +:+ t)). cbn [matchesIdentifier].
  by rewrite Hc, allChars_app, Hs, Ht.
Qed.

Lemma elementId_identifier value count :
  matchesIdentifier (elementId (sanitizeId value) count) = true.
Proof.
  unfold elementId. destruct (count =? 0)%N; [apply sanitizeId_identifier|].
  apply matchesIdentifier_app; [apply sanitizeId_identifier|].
  destruct (pretty_N_digits (count + 1)) as [Hd _].
  unfold allChars in *. rewrite forallb_forall in Hd. apply forallb_forall.
  intros c Hc. unfold isAlnum. by rewrite (Hd c Hc), orb_true_r.
Qed.

Lemma elementId_inj s a b : elementId s a = elementId s b -> a = b.
Proof.
  assert (forall n, s <> s +:+ pretty (n + 1)%N) as Hne.
  { intros n Heq. destruct (pretty_N_digits (n + 1)) as [_ Hn]. apply Hn.
    apply (prefix_inj s). by rewrite string_app_nil_r. }
  unfold elementId. destruct (N.eqb_spec a 0) as [->|Ha], (N.eqb_spec b 0) as [->|Hb].
  - done.
  - intros Heq. by apply Hne in Heq.
  - intros Heq. symmetry in Heq. by apply Hne in Heq.
  - intros Heq%prefix_inj%(inj pretty). lia.
Qed.

(** The id given at a place tells how many elements of the same base
    came before. *)
Lemma assignIds_lookup baseIds : forall usedIds i baseId,
  baseIds !! i = Some baseId ->
  assignIds usedIds baseIds !! i
  = Some (elementId (sanitizeId baseId)
            (default 0%N (usedIds !! sanitizeId baseId)
             + N.of_nat (sameBaseBefore baseIds i (sanitizeId baseId)))).
Proof.
  induction baseIds as [|b baseIds IH]; intros usedIds i baseId Hi; [done|].
  destruct i as [|i].
  - inversion Hi; subst. cbn [assignIds]. unfold sameBaseBefore. cbn.
    by rewrite N.add_0_r.
  - cbn [assignIds]. cbn [lookup list_lookup] in Hi |- *. rewrite (IH _ i baseId Hi).
    do 2 f_equal. unfold sameBaseBefore. cbn [take List.filter].
    destruct (String.eqb_spec (sanitizeId b) (sanitizeId baseId)) as [Heq|Hne].
    + rewrite Heq, lookup_insert_eq. cbn [default from_option id length]. lia.
    + rewrite lookup_insert_ne by done. done.
Qed.

Lemma sameBaseBefore_lt baseIds i j bi s :
  (i < j)%nat -> baseIds !! i = Some bi -> sanitizeId bi = s ->
  (sameBaseBefore baseIds i s < sameBaseBefore baseIds j s)%nat.
Proof.
  intros Hlt Hi Hs. unfold sameBaseBefore.
  assert (take j baseIds = take i baseIds ++ bi :: take (j - S i) (drop (S i) baseIds)) as ->.
  { rewrite <- (take_drop_middle baseIds i bi Hi) at 1.
    assert (length (take i baseIds) = i) as Hlen
      by (rewrite length_take; apply lookup_lt_Some in Hi; lia).
    rewrite take_app. rewrite Hlen. rewrite (take_ge (take i baseIds)) by lia.
    f_equal. replace (j - i)%nat with (S (j - S i)) by lia. done. }
  rewrite List.filter_app, length_app. cbn [List.filter].
  rewrite Hs, String.eqb_refl. cbn [length]. lia.
Qed.

(** X27. The ids a page gives its elements: each is an identifier for
    the validator, a letter followed by letters and digits; two
    elements whose ids have the same base after [sanitizeId] never get
    the same id; and as many ids are given as there are elements. *)
Theorem element_ids_are_identifiers baseIds :
  length (assignIds ∅ baseIds) = length baseIds
  /\ Forall (fun id => matchesIdentifier id = true) (assignIds ∅ baseIds)
  /\ (forall i j bi bj idi idj,
        (i < j)%nat ->
        baseIds !! i = Some bi -> baseIds !! j = Some bj ->
        sanitizeId bi = sanitizeId bj ->
        assignIds ∅ baseIds !! i = Some idi -> assignIds ∅ baseIds !! j = Some idj ->
        idi <> idj).
Proof.
  split; [|split].
  - generalize (∅ : gmap string N). induction baseIds as [|b baseIds IH]; intros usedIds; [done|].
    cbn [assignIds length]. by rewrite IH.
  - generalize (∅ : gmap string N). induction baseIds as [|b baseIds IH]; intros usedIds;
      [constructor|].
    cbn [assignIds]. constructor; [apply elementId_identifier|apply IH].
  - intros i j bi bj idi idj Hlt Hi Hj Hsame Hidi Hidj.
    rewrite (assignIds_lookup _ _ _ _ Hi) in Hidi. rewrite (assignIds_lookup _ _ _ _ Hj) in Hidj.
    inversion Hidi; subst idi. inversion Hidj; subst idj. rewrite <- Hsame.
    intros Heq%elementId_inj.
    pose proof (sameBaseBefore_lt baseIds i j bi (sanitizeId bi) Hlt Hi eq_refl). lia.
Qed.
